(** * Multi-level cache manager (src/core/cache-manager.ts)

    A shallow embedding of the three-tier cache: the fast in-memory tier
    [l1Cache], the compressed in-memory tier [l2Cache] and the disk tier
    [l3Index] with its backing files, together with the eviction policies,
    the statistics and the maintenance sweep.

    Conventions of the embedding.
    - A JavaScript [Map] iterates in insertion order, and both the victim
      selection and the disk tier's FIFO discipline depend on that order, so
      the three tier maps are association lists ([JsMap]).
    - Timestamps ([Date.now()]) are integers ([Z]); counts, capacities and
      sizes are naturals.  A TTL is a JavaScript number ([JsNumber]): a finite
      value or one of [Infinity], [-Infinity] and [NaN].  Every public
      operation receives the value [now] that [Date.now()] returns while it
      runs ([get] also receives [startTime], its first reading of the clock).
    - An [async] function that is awaited runs to completion at the [await]:
      the state after an operation is the state once the operation and what
      it started have settled.  The one call that is not awaited, the
      [promoteToL1] of [get], runs up to the first [await] it reaches; [get]
      does its [recordHit] there, and the rest of the promotion follows.
    - The averages and the predictive scores are JavaScript doubles; they are
      modelled as exact rationals ([Q]).
    - The logger and the event bus are optional observers and are left out. *)

From Stdlib Require Import ZArith QArith Qround Ascii String List Lia Bool.
From stdpp Require Import base option list gmap strings.
Import ListNotations.

Local Open Scope string_scope.
Local Open Scope list_scope.
Local Open Scope nat_scope.

(** ** JavaScript [Map] with string keys, in insertion order *)

Module JsMap.

Abbreviation t V := (list (string * V)).

Section Ops.
Context {V : Type}.

(** [Map.prototype.get] *)
Fixpoint get (k : string) (m : t V) : option V :=
  match m with
  | [] => None
  | (k', v) :: m' => if String.eqb k k' then Some v else get k m'
  end.

(** [Map.prototype.has] *)
Definition has (k : string) (m : t V) : bool :=
  match get k m with Some _ => true | None => false end.

(** [Map.prototype.set]: an existing key keeps its position, a new key
    goes to the end. *)
Fixpoint set (k : string) (v : V) (m : t V) : t V :=
  match m with
  | [] => [(k, v)]
  | (k', v') :: m' =>
      if String.eqb k k' then (k, v) :: m' else (k', v') :: set k v m'
  end.

(** [Map.prototype.delete] (the map after the call) *)
Fixpoint delete (k : string) (m : t V) : t V :=
  match m with
  | [] => []
  | (k', v') :: m' =>
      if String.eqb k k' then delete k m' else (k', v') :: delete k m'
  end.

(** [Map.prototype.size] *)
Definition size (m : t V) : nat := length m.

(** [Map.prototype.keys] *)
Definition keys (m : t V) : list string := map fst m.

(** In-place mutation of the object stored under [k]: the entry objects
    are shared between the map and the code that holds a reference. *)
Fixpoint mutate (k : string) (f : V -> V) (m : t V) : t V :=
  match m with
  | [] => []
  | (k', v') :: m' =>
      if String.eqb k k' then (k', f v') :: m' else (k', v') :: mutate k f m'
  end.
End Ops.

End JsMap.

(** ** Platform functions *)

(** A [Buffer] is a byte string. *)
Abbreviation Buffer := string.

(** The functions of the platform the cache calls: [JSON.stringify],
    [JSON.parse] ([None] when it throws), zlib's [gzip] and [gunzip]
    ([None] when it rejects) and the hex SHA-256 digest of a key. *)
Class Runtime (T : Type) := {
  json_stringify : T -> string;
  json_parse : string -> option T;
  gzip : string -> Buffer;
  gunzip : Buffer -> option string;
  sha256_hex : string -> string
}.

(** Values are serializable and compression is reversible. *)
Class RuntimeLaws (T : Type) `{Runtime T} : Prop := {
  parse_stringify : forall v : T, json_parse (json_stringify v) = Some v;
  gunzip_gzip : forall s : string, gunzip (gzip s) = Some s
}.

(** ** Data model *)

(** A JavaScript number that holds a duration in milliseconds: a finite
    value (every finite double is a rational) or one of the special values
    [Infinity], [-Infinity] and [NaN]. *)
Inductive JsNumber :=
| Num (q : Q)
| PosInf
| NegInf
| NaN.

(** Truthiness of a number: [0] and [NaN] are falsy. *)
Definition truthy_number (n : JsNumber) : bool :=
  match n with
  | Num q => negb (Qeq_bool q 0)
  | NaN => false
  | PosInf | NegInf => true
  end.

(** [x > n] for an integer [x]; a comparison with [NaN] is false. *)
Definition gt_number (x : Z) (n : JsNumber) : bool :=
  match n with
  | Num q => negb (Qle_bool (inject_Z x) q)
  | PosInf => false
  | NegInf => true
  | NaN => false
  end.

(** [x || d] on numbers: [undefined], [0] and [NaN] are falsy. *)
Definition or_number (x : option JsNumber) (d : JsNumber) : JsNumber :=
  match x with
  | Some n => if truthy_number n then n else d
  | None => d
  end.

(** A number field after [JSON.stringify] and [JSON.parse]: [Infinity],
    [-Infinity] and [NaN] are written as [null]. *)
Definition json_number (x : option JsNumber) : option JsNumber :=
  match x with
  | Some (Num q) => Some (Num q)
  | _ => None
  end.

(** [ttl && elapsed > ttl], the test of [isExpired] and of [loadFromDisk]. *)
Definition ttl_elapsed (elapsed : Z) (t : option JsNumber) : bool :=
  match t with
  | None => false
  | Some n => truthy_number n && gt_number elapsed n
  end.

Inductive CachePriority := LOW | NORMAL | HIGH | CRITICAL.

Definition priority_value (p : CachePriority) : nat :=
  match p with LOW => 1 | NORMAL => 2 | HIGH => 3 | CRITICAL => 4 end.

(** The priorities below HIGH. *)
Definition evictable_priority (p : CachePriority) : Prop := p = LOW \/ p = NORMAL.

Inductive EvictionPolicyType := LRU | LFU | FIFO | FILO | ADAPTIVE.

Inductive Level := l1 | l2 | l3.

(** The payload of an entry.  The source keeps two optional fields, [value]
    and [compressed]; whenever an operation has settled exactly one of them
    is present: [Raw v] is [value = v] with [compressed] absent, [Gz b] is
    [compressed = b] with [value] deleted. *)
Inductive Payload (T : Type) :=
| Raw (v : T)
| Gz (b : Buffer).
Arguments Raw {T} v.
Arguments Gz {T} b.

Record CacheEntry (T : Type) := mkEntry {
  key : string;
  payload : Payload T;
  size : nat;
  priority : CachePriority;
  created : Z;
  accessed : Z;
  hits : nat;
  ttl : option JsNumber;
  level : Level
}.
Arguments mkEntry {T}.
Arguments key {T}.
Arguments payload {T}.
Arguments size {T}.
Arguments priority {T}.
Arguments created {T}.
Arguments accessed {T}.
Arguments hits {T}.
Arguments ttl {T}.
Arguments level {T}.

(** [entry.value]: [undefined] once the raw value has been deleted. *)
Definition value {T} (e : CacheEntry T) : option T :=
  match payload e with Raw v => Some v | Gz _ => None end.

(** [entry.compressed] *)
Definition compressed {T} (e : CacheEntry T) : option Buffer :=
  match payload e with Raw _ => None | Gz b => Some b end.

Record CacheConfig := mkConfig {
  maxL1Size : nat;
  maxL2Size : nat;
  maxL3Size : nat;
  l3Directory : string;
  compressionThreshold : nat;
  evictionPolicy : EvictionPolicyType;
  defaultTtl : JsNumber;
  enableDiskCache : bool;
  enableCompression : bool;
  maintenanceInterval : Z;
  accessPatternWindowSize : nat;
  predictiveCaching : bool
}.

(** [Partial<CacheConfig>] *)
Record PartialConfig := mkPartial {
  p_maxL1Size : option nat;
  p_maxL2Size : option nat;
  p_maxL3Size : option nat;
  p_l3Directory : option string;
  p_compressionThreshold : option nat;
  p_evictionPolicy : option EvictionPolicyType;
  p_defaultTtl : option JsNumber;
  p_enableDiskCache : option bool;
  p_enableCompression : option bool;
  p_maintenanceInterval : option Z;
  p_accessPatternWindowSize : option nat;
  p_predictiveCaching : option bool
}.

(** [x || d] on numbers and strings: [undefined], [0] and the empty string
    are falsy. *)
Definition or_nat (x : option nat) (d : nat) : nat :=
  match x with Some (S n) => S n | _ => d end.

Definition or_Z (x : option Z) (d : Z) : Z :=
  match x with Some z => if (z =? 0)%Z then d else z | None => d end.

Definition or_string (x : option string) (d : string) : string :=
  match x with Some EmptyString => d | Some s => s | None => d end.

(** The configuration the constructor builds from the caller's options. *)
Definition constructor_config (c : PartialConfig) : CacheConfig :=
  {| maxL1Size := or_nat (p_maxL1Size c) 1000;
     maxL2Size := or_nat (p_maxL2Size c) 5000;
     maxL3Size := or_nat (p_maxL3Size c) 10000;
     l3Directory := or_string (p_l3Directory c) "./cache";
     compressionThreshold := or_nat (p_compressionThreshold c) 1024;
     evictionPolicy := default LRU (p_evictionPolicy c);
     defaultTtl := or_number (p_defaultTtl c) (Num 3600000);
     enableDiskCache := default true (p_enableDiskCache c);
     enableCompression := default true (p_enableCompression c);
     maintenanceInterval := or_Z (p_maintenanceInterval c) 300000;
     accessPatternWindowSize := or_nat (p_accessPatternWindowSize c) 1000;
     predictiveCaching := default false (p_predictiveCaching c) |}.

(** The counters of [this.stats]. *)
Record Counters := mkCounters {
  totalHits : nat;
  totalMisses : nat;
  l1Hits : nat;
  l2Hits : nat;
  l3Hits : nat;
  evictions : nat;
  compressions : nat;
  decompressions : nat;
  diskWrites : nat;
  diskReads : nat
}.

Definition zero_counters : Counters := mkCounters 0 0 0 0 0 0 0 0 0 0.

(** The result of [getStats]: the counters and three derived numbers. *)
Record CacheStats := mkStats {
  counters : Counters;
  hitRate : Q;
  avgAccessTime : Q;
  avgCompressionRatio : Q
}.

(** ** The disk *)

(** What a backing file holds: the payload of the record [demoteToL3]
    writes is either the JSON text of the raw value or the compressed
    bytes (the record's [compressed] flag tells which). *)
Inductive FilePayload :=
| RawJson (json : string)
| GzBytes (b : Buffer).

Record DiskRecord := mkDiskRecord {
  d_key : string;
  d_data : FilePayload;
  d_priority : CachePriority;
  d_created : Z;
  d_ttl : option JsNumber
}.

(** A file is a record written by the cache or something [JSON.parse]
    rejects. *)
Inductive FileContent :=
| FileRecord (r : DiskRecord)
| FileGarbage.

(** The file system: the files by path, and whether the cache directory
    accepts writes. *)
Record FileSystem := mkFs {
  files : gmap string FileContent;
  writable : bool
}.

(** [fs.readFile]: [None] when it rejects. *)
Definition fs_readFile (p : string) (fs : FileSystem) : option FileContent :=
  files fs !! p.

(** [fs.writeFile]: [None] when it rejects. *)
Definition fs_writeFile (p : string) (c : FileContent) (fs : FileSystem)
  : option FileSystem :=
  if writable fs then Some (mkFs (<[p := c]> (files fs)) (writable fs)) else None.

(** [fs.unlink]: [None] when it rejects (no such file). *)
Definition fs_unlink (p : string) (fs : FileSystem) : option FileSystem :=
  match files fs !! p with
  | Some _ => Some (mkFs (base.delete p (files fs)) (writable fs))
  | None => None
  end.

(** [try { await fs.unlink(p) } catch { }] *)
Definition fs_unlink_ignore (p : string) (fs : FileSystem) : FileSystem :=
  default fs (fs_unlink p fs).

(** ** The cache manager *)

(** The mutable fields of a [CacheManager], and the disk it writes to. *)
Record CacheManager (T : Type) := mkCache {
  l1Cache : JsMap.t (CacheEntry T);
  l2Cache : JsMap.t (CacheEntry T);
  l3Index : JsMap.t string;
  stats : Counters;
  accessTimes : list Z;
  compressionRatios : list Q;
  predictiveCache : gmap string Q;
  disk : FileSystem
}.
Arguments mkCache {T}.
Arguments l1Cache {T}.
Arguments l2Cache {T}.
Arguments l3Index {T}.
Arguments stats {T}.
Arguments accessTimes {T}.
Arguments compressionRatios {T}.
Arguments predictiveCache {T}.
Arguments disk {T}.

(** What an [async] call gives its caller: a value, or a rejection. *)
Inductive Outcome (A : Type) :=
| Returned (a : A)
| Threw.
Arguments Returned {A} a.
Arguments Threw {A}.

Section Manager.
Context {T : Type} `{Runtime T}.

Abbreviation Entry := (CacheEntry T).
Abbreviation Cache := (CacheManager T).

(** *** Field updates *)

Definition with_l1Cache (m : JsMap.t Entry) (s : Cache) : Cache :=
  mkCache m (l2Cache s) (l3Index s) (stats s) (accessTimes s)
          (compressionRatios s) (predictiveCache s) (disk s).

Definition with_l2Cache (m : JsMap.t Entry) (s : Cache) : Cache :=
  mkCache (l1Cache s) m (l3Index s) (stats s) (accessTimes s)
          (compressionRatios s) (predictiveCache s) (disk s).

Definition with_l3Index (m : JsMap.t string) (s : Cache) : Cache :=
  mkCache (l1Cache s) (l2Cache s) m (stats s) (accessTimes s)
          (compressionRatios s) (predictiveCache s) (disk s).

Definition with_stats (c : Counters) (s : Cache) : Cache :=
  mkCache (l1Cache s) (l2Cache s) (l3Index s) c (accessTimes s)
          (compressionRatios s) (predictiveCache s) (disk s).

Definition with_accessTimes (l : list Z) (s : Cache) : Cache :=
  mkCache (l1Cache s) (l2Cache s) (l3Index s) (stats s) l
          (compressionRatios s) (predictiveCache s) (disk s).

Definition with_compressionRatios (l : list Q) (s : Cache) : Cache :=
  mkCache (l1Cache s) (l2Cache s) (l3Index s) (stats s) (accessTimes s)
          l (predictiveCache s) (disk s).

Definition with_predictiveCache (m : gmap string Q) (s : Cache) : Cache :=
  mkCache (l1Cache s) (l2Cache s) (l3Index s) (stats s) (accessTimes s)
          (compressionRatios s) m (disk s).

Definition with_disk (d : FileSystem) (s : Cache) : Cache :=
  mkCache (l1Cache s) (l2Cache s) (l3Index s) (stats s) (accessTimes s)
          (compressionRatios s) (predictiveCache s) d.

Definition with_payload (p : Payload T) (e : Entry) : Entry :=
  mkEntry (key e) p (size e) (priority e) (created e) (accessed e)
          (hits e) (ttl e) (level e).

Definition with_accessed (a : Z) (e : Entry) : Entry :=
  mkEntry (key e) (payload e) (size e) (priority e) (created e) a
          (hits e) (ttl e) (level e).

Definition with_hits (h : nat) (e : Entry) : Entry :=
  mkEntry (key e) (payload e) (size e) (priority e) (created e) (accessed e)
          h (ttl e) (level e).

Definition with_level (l : Level) (e : Entry) : Entry :=
  mkEntry (key e) (payload e) (size e) (priority e) (created e) (accessed e)
          (hits e) (ttl e) l.

Definition bump_totalHits (c : Counters) : Counters :=
  mkCounters (S (totalHits c)) (totalMisses c) (l1Hits c) (l2Hits c) (l3Hits c)
    (evictions c) (compressions c) (decompressions c) (diskWrites c) (diskReads c).

Definition bump_totalMisses (c : Counters) : Counters :=
  mkCounters (totalHits c) (S (totalMisses c)) (l1Hits c) (l2Hits c) (l3Hits c)
    (evictions c) (compressions c) (decompressions c) (diskWrites c) (diskReads c).

(** [this.stats[`${level}Hits`]++] *)
Definition bump_levelHits (l : Level) (c : Counters) : Counters :=
  match l with
  | l1 => mkCounters (totalHits c) (totalMisses c) (S (l1Hits c)) (l2Hits c)
            (l3Hits c) (evictions c) (compressions c) (decompressions c)
            (diskWrites c) (diskReads c)
  | l2 => mkCounters (totalHits c) (totalMisses c) (l1Hits c) (S (l2Hits c))
            (l3Hits c) (evictions c) (compressions c) (decompressions c)
            (diskWrites c) (diskReads c)
  | l3 => mkCounters (totalHits c) (totalMisses c) (l1Hits c) (l2Hits c)
            (S (l3Hits c)) (evictions c) (compressions c) (decompressions c)
            (diskWrites c) (diskReads c)
  end.

Definition bump_evictions (c : Counters) : Counters :=
  mkCounters (totalHits c) (totalMisses c) (l1Hits c) (l2Hits c) (l3Hits c)
    (S (evictions c)) (compressions c) (decompressions c) (diskWrites c) (diskReads c).

Definition bump_compressions (c : Counters) : Counters :=
  mkCounters (totalHits c) (totalMisses c) (l1Hits c) (l2Hits c) (l3Hits c)
    (evictions c) (S (compressions c)) (decompressions c) (diskWrites c) (diskReads c).

Definition bump_decompressions (c : Counters) : Counters :=
  mkCounters (totalHits c) (totalMisses c) (l1Hits c) (l2Hits c) (l3Hits c)
    (evictions c) (compressions c) (S (decompressions c)) (diskWrites c) (diskReads c).

Definition bump_diskWrites (c : Counters) : Counters :=
  mkCounters (totalHits c) (totalMisses c) (l1Hits c) (l2Hits c) (l3Hits c)
    (evictions c) (compressions c) (decompressions c) (S (diskWrites c)) (diskReads c).

Definition bump_diskReads (c : Counters) : Counters :=
  mkCounters (totalHits c) (totalMisses c) (l1Hits c) (l2Hits c) (l3Hits c)
    (evictions c) (compressions c) (decompressions c) (diskWrites c) (S (diskReads c)).

(** *** Eviction policies *)

(** [entry.priority < CachePriority.HIGH] *)
Definition below_HIGH (e : Entry) : bool :=
  priority_value (priority e) <? priority_value HIGH.

(** [x < bound] where [bound] starts as [Infinity] ([None]). *)
Definition lt_bound_Z (x : Z) (bound : option Z) : bool :=
  match bound with None => true | Some b => (x <? b)%Z end.

Definition lt_bound_nat (x : nat) (bound : option nat) : bool :=
  match bound with None => true | Some b => x <? b end.

(** One turn of the loop of [LRUPolicy.selectVictim]; the accumulator is
    [(oldestTime, victimKey)]. *)
Definition lru_step (acc : option Z * option string) (ke : string * Entry)
  : option Z * option string :=
  if below_HIGH (snd ke) && lt_bound_Z (accessed (snd ke)) (fst acc)
  then (Some (accessed (snd ke)), Some (fst ke))
  else acc.

Definition lru_selectVictim (entries : JsMap.t Entry) : option string :=
  snd (fold_left lru_step entries (None, None)).

(** One turn of the loop of [LFUPolicy.selectVictim]; the accumulator is
    [(minHits, victimKey)]. *)
Definition lfu_step (acc : option nat * option string) (ke : string * Entry)
  : option nat * option string :=
  if below_HIGH (snd ke) && lt_bound_nat (hits (snd ke)) (fst acc)
  then (Some (hits (snd ke)), Some (fst ke))
  else acc.

Definition lfu_selectVictim (entries : JsMap.t Entry) : option string :=
  snd (fold_left lfu_step entries (None, None)).

(** The two policy classes. *)
Inductive Policy := LRUPolicy | LFUPolicy.

Definition createEvictionPolicy (type : EvictionPolicyType) : Policy :=
  match type with
  | LRU => LRUPolicy
  | LFU => LFUPolicy
  | _ => LRUPolicy
  end.

Definition onAccess (p : Policy) (now : Z) (e : Entry) : Entry :=
  match p with
  | LRUPolicy => with_accessed now e
  | LFUPolicy => with_accessed now (with_hits (S (hits e)) e)
  end.

Definition onAdd (p : Policy) (now : Z) (e : Entry) : Entry :=
  match p with
  | LRUPolicy => with_accessed now e
  | LFUPolicy => with_accessed now (with_hits 1 e)
  end.

Definition selectVictim (p : Policy) (entries : JsMap.t Entry) : option string :=
  match p with
  | LRUPolicy => lru_selectVictim entries
  | LFUPolicy => lfu_selectVictim entries
  end.

(** *** Entries *)

Section WithConfig.
Variable config : CacheConfig.

Definition policy : Policy := createEvictionPolicy (evictionPolicy config).

(** [createEntry]; [ttl || this.config.defaultTtl]. *)
Definition createEntry (k : string) (v : T) (p : CachePriority)
           (ttl_arg : option JsNumber) (now : Z) : Entry :=
  {| key := k;
     payload := Raw v;
     size := String.length (json_stringify v);
     priority := p;
     created := now;
     accessed := now;
     hits := 0;
     ttl := Some (or_number ttl_arg (defaultTtl config));
     level := l1 |}.

(** [isExpired]: [!entry.ttl] holds of a missing, zero or [NaN] [ttl]. *)
Definition isExpired (now : Z) (e : Entry) : bool :=
  ttl_elapsed (now - created e) (ttl e).

(** [push] on a rolling sample, then one [shift] when it is longer than
    the window. *)
Definition push_window {A} (window : nat) (l : list A) (x : A) : list A :=
  let l' := l ++ [x] in
  if window <? length l' then tl l' else l'.

(** What [recordHit] does to the entry object. *)
Definition hit_entry (now : Z) (e : Entry) : Entry :=
  onAccess policy now (with_accessed now (with_hits (S (hits e)) e)).

(** What [recordHit] does to the statistics. *)
Definition recordHit_stats (lvl : Level) (accessTime : Z) (s : Cache) : Cache :=
  with_accessTimes
    (push_window (accessPatternWindowSize config) (accessTimes s) accessTime)
    (with_stats (bump_levelHits lvl (bump_totalHits (stats s))) s).

Definition recordMiss (accessTime : Z) (s : Cache) : Cache :=
  with_accessTimes
    (push_window (accessPatternWindowSize config) (accessTimes s) accessTime)
    (with_stats (bump_totalMisses (stats s)) s).

(** *** The disk tier *)

(** [path.join(l3Directory, `${hash}.cache`)] with the SHA-256 digest of
    the key. *)
Definition filePath_of (k : string) : string :=
  (l3Directory config ++ "/" ++ sha256_hex k ++ ".cache")%string.

(** The loop of [enforceL3Size]; each turn removes the first key of the
    index, so the size of the index bounds the number of turns.  (An index
    over its capacity is not empty: the case [[]] is never taken.) *)
Fixpoint enforceL3Size_loop (fuel : nat) (s : Cache) : Cache :=
  match fuel with
  | 0 => s
  | S fuel' =>
      if maxL3Size config <? JsMap.size (l3Index s) then
        match l3Index s with
        | [] => s
        | (oldestKey, filePath) :: _ =>
            let s1 := with_disk (fs_unlink_ignore filePath (disk s)) s in
            let s2 := with_l3Index (JsMap.delete oldestKey (l3Index s1)) s1 in
            enforceL3Size_loop fuel' (with_stats (bump_evictions (stats s2)) s2)
        end
      else s
  end.

Definition enforceL3Size (s : Cache) : Cache :=
  enforceL3Size_loop (JsMap.size (l3Index s)) s.

(** The record [demoteToL3] serializes, as [JSON.parse] reads it back. *)
Definition disk_record (e : Entry) : DiskRecord :=
  {| d_key := key e;
     d_data := match payload e with
               | Gz b => GzBytes b
               | Raw v => RawJson (json_stringify v)
               end;
     d_priority := priority e;
     d_created := created e;
     d_ttl := json_number (ttl e) |}.

(** [demoteToL3]: a failed write is caught and the entry is dropped. *)
Definition demoteToL3 (entry : Entry) (s : Cache) : Cache :=
  let e := with_level l3 entry in
  let filePath := filePath_of (key e) in
  match fs_writeFile filePath (FileRecord (disk_record e)) (disk s) with
  | Some fs' =>
      let s1 := with_disk fs' s in
      let s2 := with_l3Index (JsMap.set (key e) filePath (l3Index s1)) s1 in
      enforceL3Size (with_stats (bump_diskWrites (stats s2)) s2)
  | None => s
  end.

(** *** The compressed tier *)

(** [!victimKey]: [null] and the empty string both end the loop. *)
Definition usable_victim (v : option string) : option string :=
  match v with
  | Some EmptyString => None
  | Some k => Some k
  | None => None
  end.

(** The loop of [enforceL2Size]; each turn removes the victim from the
    compressed tier, so the size of the tier bounds the number of turns.
    ([this.l2Cache.get(victimKey)!]: the victim is a key of the tier, the
    lookup never fails.) *)
Fixpoint enforceL2Size_loop (fuel : nat) (s : Cache) : Cache :=
  match fuel with
  | 0 => s
  | S fuel' =>
      if maxL2Size config <? JsMap.size (l2Cache s) then
        match usable_victim (selectVictim policy (l2Cache s)) with
        | None => s
        | Some victimKey =>
            match JsMap.get victimKey (l2Cache s) with
            | None => s
            | Some victim =>
                let s1 := with_l2Cache (JsMap.delete victimKey (l2Cache s)) s in
                let s2 := if enableDiskCache config
                          then demoteToL3 victim s1 else s1 in
                enforceL2Size_loop fuel'
                  (with_stats (bump_evictions (stats s2)) s2)
            end
        end
      else s
  end.

Definition enforceL2Size (s : Cache) : Cache :=
  enforceL2Size_loop (JsMap.size (l2Cache s)) s.

(** [originalSize / compressedSize] *)
Definition compression_ratio (json : string) (buffer : Buffer) : Q :=
  (inject_Z (Z.of_nat (String.length json))
   / inject_Z (Z.of_nat (String.length buffer)))%Q.

(** [demoteToL2].  The entries of the fast tier hold their raw value, so
    the compression always finds a value to compress. *)
Definition demoteToL2 (entry : Entry) (s : Cache) : Cache :=
  let e := with_level l2 entry in
  let '(e', s1) :=
    if enableCompression config && (compressionThreshold config <? size e) then
      match payload e with
      | Raw v =>
          let json := json_stringify v in
          let buffer := gzip json in
          let ratios := push_window 100 (compressionRatios s)
                                    (compression_ratio json buffer) in
          (with_payload (Gz buffer) e,
           with_stats (bump_compressions (stats s))
                      (with_compressionRatios ratios s))
      | Gz _ => (e, s)
      end
    else (e, s) in
  enforceL2Size (with_l2Cache (JsMap.set (key e') e' (l2Cache s1)) s1).

(** *** The fast tier *)

(** The loop of [enforceL1Size]; each turn removes the victim from the
    fast tier, so the size of the tier bounds the number of turns.
    ([this.l1Cache.get(victimKey)!]: the victim is a key of the tier, the
    lookup never fails.) *)
Fixpoint enforceL1Size_loop (fuel : nat) (s : Cache) : Cache :=
  match fuel with
  | 0 => s
  | S fuel' =>
      if maxL1Size config <? JsMap.size (l1Cache s) then
        match usable_victim (selectVictim policy (l1Cache s)) with
        | None => s
        | Some victimKey =>
            match JsMap.get victimKey (l1Cache s) with
            | None => s
            | Some victim =>
                let s1 := with_l1Cache (JsMap.delete victimKey (l1Cache s)) s in
                let s2 := demoteToL2 victim s1 in
                enforceL1Size_loop fuel'
                  (with_stats (bump_evictions (stats s2)) s2)
            end
        end
      else s
  end.

Definition enforceL1Size (s : Cache) : Cache :=
  enforceL1Size_loop (JsMap.size (l1Cache s)) s.

(** [if (diskPath)]: a missing or empty path is falsy. *)
Definition truthy_path (p : option string) : option string :=
  match p with
  | Some EmptyString => None
  | Some s => Some s
  | None => None
  end.

(** [data.ttl && Date.now() - data.created > data.ttl] *)
Definition record_expired (now : Z) (data : DiskRecord) : bool :=
  ttl_elapsed (now - d_created data) (d_ttl data).

(** [loadFromDisk]: every error is caught inside and gives [null]; the
    result carries the fields its callers read, [data] and [priority]. *)
Definition loadFromDisk (filePath : string) (now : Z) (s : Cache)
  : Cache * option (T * CachePriority) :=
  match fs_readFile filePath (disk s) with
  | None => (s, None)
  | Some FileGarbage => (s, None)
  | Some (FileRecord data) =>
      match d_data data with
      | RawJson json =>
          match json_parse json with
          | None => (s, None)
          | Some v =>
              if record_expired now data
              then (with_disk (fs_unlink_ignore filePath (disk s)) s, None)
              else (with_stats (bump_diskReads (stats s)) s,
                    Some (v, d_priority data))
          end
      | GzBytes b =>
          if record_expired now data
          then (with_disk (fs_unlink_ignore filePath (disk s)) s, None)
          else
            match gunzip b ≫= json_parse with
            | None => (s, None)
            | Some v =>
                (with_stats
                   (bump_diskReads (bump_decompressions (stats s))) s,
                 Some (v, d_priority data))
            end
      end
  end.

(** *** The promotion that [get] does not await

    [get] calls [promoteToL1(entry)] without awaiting it and goes on to
    [recordHit(entry, level, accessTime)].  The promotion runs up to the
    first [await] it reaches; [recordHit] runs while it is suspended there,
    and the rest of the promotion follows.  The first [await] reached is,
    in the order of the code: the [fs.unlink] of [promoteToL1]; the [gzip]
    of the first demotion out of the fast tier; the [fs.writeFile] of the
    first demotion out of the compressed tier; or the [await] on a callee
    that has returned without reaching any.

    [recordHit] updates the statistics and the promoted entry object.  At
    that moment the object is in the fast tier under its key, or in flight as
    the victim of the fast tier, or in the compressed tier under its key, or
    it has been written to its file or dropped. *)

(** The arguments of the pending [recordHit] and the clock it reads. *)
Record Hit := mkHit {
  hit_level : Level;
  hit_accessTime : Z;
  hit_now : Z
}.

(** The tier map that holds the promoted object, and its key there. *)
Inductive Place :=
| InL1 (k : string)
| InL2 (k : string).

(** [recordHit] on the promoted object where it is stored. *)
Definition recordHit_at (w : Place) (h : Hit) (s : Cache) : Cache :=
  recordHit_stats (hit_level h) (hit_accessTime h)
    match w with
    | InL1 k =>
        with_l1Cache (JsMap.mutate k (hit_entry (hit_now h)) (l1Cache s)) s
    | InL2 k =>
        with_l2Cache (JsMap.mutate k (hit_entry (hit_now h)) (l2Cache s)) s
    end.

(** [enforceL2Size] up to its first [await].  With the disk tier enabled
    that is the [fs.writeFile] of the first victim's demotion, whose record
    is serialized before the call, or the caller's [await] when the loop ends
    at once; with the disk tier disabled the whole loop runs first. *)
Definition enforceL2Size_first (w : Place) (h : Hit) (s : Cache) : Cache :=
  if enableDiskCache config then
    if maxL2Size config <? JsMap.size (l2Cache s) then
      match usable_victim (selectVictim policy (l2Cache s)) with
      | None => recordHit_at w h s
      | Some victimKey =>
          match JsMap.get victimKey (l2Cache s) with
          | None => recordHit_at w h s
          | Some victim =>
              let s1 := with_l2Cache (JsMap.delete victimKey (l2Cache s)) s in
              let s2 := demoteToL3 victim (recordHit_at w h s1) in
              enforceL2Size (with_stats (bump_evictions (stats s2)) s2)
          end
      end
    else recordHit_at w h s
  else recordHit_at w h (enforceL2Size s).

(** [demoteToL2(victim)] up to its first [await]: the [gzip] when the
    victim is compressed, else the first [await] of [enforceL2Size].
    [promoted] tells whether the victim is the promoted object, which is then
    in flight at the [gzip] and in the compressed tier afterwards; otherwise
    the promoted object is in the fast tier under [k].  ([recordHit] changes
    [hits] and [accessed] only, which the compression does not read.) *)
Definition demoteToL2_first (promoted : bool) (k : string) (h : Hit)
           (victim : Entry) (s : Cache) : Cache :=
  if enableCompression config && (compressionThreshold config <? size victim)
  then
    if promoted
    then demoteToL2 (hit_entry (hit_now h) victim)
                    (recordHit_stats (hit_level h) (hit_accessTime h) s)
    else demoteToL2 victim (recordHit_at (InL1 k) h s)
  else
    let e := with_level l2 victim in
    enforceL2Size_first (if promoted then InL2 (key e) else InL1 k) h
      (with_l2Cache (JsMap.set (key e) e (l2Cache s)) s).

(** [enforceL1Size] up to its first [await], the promoted object being in
    the fast tier under [k] when it starts. *)
Definition enforceL1Size_first (k : string) (h : Hit) (s : Cache) : Cache :=
  if maxL1Size config <? JsMap.size (l1Cache s) then
    match usable_victim (selectVictim policy (l1Cache s)) with
    | None => recordHit_at (InL1 k) h s
    | Some victimKey =>
        match JsMap.get victimKey (l1Cache s) with
        | None => recordHit_at (InL1 k) h s
        | Some victim =>
            let s1 := with_l1Cache (JsMap.delete victimKey (l1Cache s)) s in
            let s2 := demoteToL2_first (String.eqb victimKey k) k h victim s1 in
            enforceL1Size (with_stats (bump_evictions (stats s2)) s2)
        end
    end
  else recordHit_at (InL1 k) h s.

(** [entry.level = 'l1'; this.l1Cache.set(entry.key, entry);
    this.evictionPolicy.onAdd(entry)] *)
Definition place_in_l1 (now : Z) (entry : Entry) (s : Cache) : Cache :=
  let e := with_level l1 entry in
  with_l1Cache
    (JsMap.mutate (key e) (onAdd policy now)
                  (JsMap.set (key e) e (l1Cache s))) s.

(** [this.promoteToL1(entry); this.recordHit(entry, level, accessTime)] *)
Definition promoteToL1 (h : Hit) (entry : Entry) (s : Cache) : Cache :=
  match level entry with
  | l2 =>
      enforceL1Size_first (key entry) h
        (place_in_l1 (hit_now h) entry
           (with_l2Cache (JsMap.delete (key entry) (l2Cache s)) s))
  | l3 =>
      match truthy_path (JsMap.get (key entry) (l3Index s)) with
      | Some diskPath =>
          let s0 := recordHit_stats (hit_level h) (hit_accessTime h) s in
          let s1 := with_l3Index (JsMap.delete (key entry) (l3Index s0))
                      (with_disk (fs_unlink_ignore diskPath (disk s0)) s0) in
          enforceL1Size
            (place_in_l1 (hit_now h) (hit_entry (hit_now h) entry) s1)
      | None =>
          enforceL1Size_first (key entry) h (place_in_l1 (hit_now h) entry s)
      end
  | l1 =>
      enforceL1Size_first (key entry) h (place_in_l1 (hit_now h) entry s)
  end.

(** *** Public operations *)

(** [entry && !this.isExpired(entry)] *)
Definition live (now : Z) (o : option Entry) : option Entry :=
  match o with
  | Some e => if isExpired now e then None else Some e
  | None => None
  end.

(** The disk branch of [get].  The [catch] around [loadFromDisk] is never
    entered, because [loadFromDisk] catches every error itself. *)
Definition get_l3 (k : string) (startTime now : Z) (s : Cache)
  : Cache * Outcome (option T) :=
  let miss s' := (recordMiss (now - startTime) s', Returned None) in
  if enableDiskCache config then
    match truthy_path (JsMap.get k (l3Index s)) with
    | Some diskPath =>
        match loadFromDisk diskPath now s with
        | (s1, Some (data, prio)) =>
            let entry := createEntry k data prio None now in
            (promoteToL1 (mkHit l3 (now - startTime) now) entry s1,
             Returned (Some data))
        | (s1, None) => miss s1
        end
    | None => miss s
    end
  else miss s.

(** The compressed-tier branch of [get].  A failing decompression is not
    caught: the call rejects.  The value returned is [entry.value] as it is
    after [recordHit], while the promotion is suspended: the raw value, which
    a demotion deletes only once its [gzip] has completed. *)
Definition get_l2 (k : string) (startTime now : Z) (s : Cache)
  : Cache * Outcome (option T) :=
  match live now (JsMap.get k (l2Cache s)) with
  | Some entry =>
      let promote entry' s1 :=
        (promoteToL1 (mkHit l2 (now - startTime) now) entry' s1,
         Returned (value entry')) in
      match payload entry with
      | Gz b =>
          match gunzip b ≫= json_parse with
          | None => (s, Threw)
          | Some v =>
              let entry' := with_payload (Raw v) entry in
              promote entry'
                (with_stats (bump_decompressions (stats s))
                   (with_l2Cache
                      (JsMap.mutate k (fun _ => entry') (l2Cache s)) s))
          end
      | Raw _ => promote entry s
      end
  | None => get_l3 k startTime now s
  end.

(** [get] *)
Definition get (k : string) (startTime now : Z) (s : Cache)
  : Cache * Outcome (option T) :=
  match live now (JsMap.get k (l1Cache s)) with
  | Some entry =>
      let s1 := with_l1Cache (JsMap.mutate k (hit_entry now) (l1Cache s)) s in
      (recordHit_stats l1 (now - startTime) s1, Returned (value entry))
  | None => get_l2 k startTime now s
  end.

(** [key.split(':')[0]] *)
Fixpoint pattern_of (k : string) : string :=
  match k with
  | EmptyString => EmptyString
  | String c k' =>
      if Ascii.eqb c ":"%char then EmptyString else String c (pattern_of k')
  end.

(** [updatePredictiveCache] *)
Definition updatePredictiveCache (k : string) (s : Cache) : Cache :=
  let pattern := pattern_of k in
  let score := default 0%Q (predictiveCache s !! pattern) in
  with_predictiveCache (<[pattern := (score + 1)%Q]> (predictiveCache s)) s.

(** [set] *)
Definition set (k : string) (v : T) (prio : CachePriority)
           (ttl_arg : option JsNumber) (now : Z) (s : Cache) : Cache :=
  let entry := createEntry k v prio ttl_arg now in
  let s1 := with_l1Cache
              (JsMap.mutate k (onAdd policy now)
                            (JsMap.set k entry (l1Cache s))) s in
  let s2 := enforceL1Size s1 in
  if predictiveCaching config then updatePredictiveCache k s2 else s2.

(** [delete]: the map after the call and whether anything was removed. *)
Definition delete (k : string) (s : Cache) : Cache * bool :=
  let d1 := JsMap.has k (l1Cache s) in
  let d2 := JsMap.has k (l2Cache s) in
  let s1 := with_l2Cache (JsMap.delete k (l2Cache s))
              (with_l1Cache (JsMap.delete k (l1Cache s)) s) in
  match truthy_path (JsMap.get k (l3Index s1)) with
  | Some diskPath =>
      match fs_unlink diskPath (disk s1) with
      | Some fs' =>
          (with_l3Index (JsMap.delete k (l3Index s1)) (with_disk fs' s1), true)
      | None => (s1, d1 || d2)
      end
  | None => (s1, d1 || d2)
  end.

(** [clear] *)
Definition clear (s : Cache) : Cache :=
  let s1 := with_l2Cache [] (with_l1Cache [] s) in
  let s2 :=
    if enableDiskCache config then
      with_l3Index []
        (with_disk
           (fold_left (fun fs kp => fs_unlink_ignore (snd kp) fs)
                      (l3Index s1) (disk s1)) s1)
    else s1 in
  with_stats zero_counters s2.

(** [l.reduce((a, b) => a + b, 0) / l.length], [0] on the empty list *)
Definition average (l : list Q) : Q :=
  match l with
  | [] => 0%Q
  | _ => (fold_left Qplus l 0 / inject_Z (Z.of_nat (length l)))%Q
  end.

(** [getStats] *)
Definition getStats (s : Cache) : CacheStats :=
  let totalAccesses := totalHits (stats s) + totalMisses (stats s) in
  {| counters := stats s;
     hitRate :=
       if 0 <? totalAccesses
       then (inject_Z (Z.of_nat (totalHits (stats s)))
             / inject_Z (Z.of_nat totalAccesses))%Q
       else 0%Q;
     avgAccessTime := average (map inject_Z (accessTimes s));
     avgCompressionRatio := average (compressionRatios s) |}.

(** [getSizes], as [(l1, l2, l3)] *)
Definition getSizes (s : Cache) : nat * nat * nat :=
  (JsMap.size (l1Cache s), JsMap.size (l2Cache s), JsMap.size (l3Index s)).

(** *** Maintenance *)

(** The sweep of the disk index in [cleanExpiredEntries]. *)
Definition clean_l3_step (now : Z) (s : Cache) (kp : string * string) : Cache :=
  match loadFromDisk (snd kp) now s with
  | (s1, Some _) => s1
  | (s1, None) => with_l3Index (JsMap.delete (fst kp) (l3Index s1)) s1
  end.

(** [cleanExpiredEntries] *)
Definition cleanExpiredEntries (now : Z) (s : Cache) : Cache :=
  let keep (ke : string * Entry) := negb (isExpired now (snd ke)) in
  let s1 := with_l1Cache (List.filter keep (l1Cache s)) s in
  let s2 := with_l2Cache (List.filter keep (l2Cache s1)) s1 in
  fold_left (clean_l3_step now) (l3Index s2) s2.

(** One entry of the loop of [updatePredictiveScores]. *)
Definition decay (score : Q) : option Q :=
  if negb (Qle_bool score 1) then Some (score * (9 # 10))%Q else None.

(** [updatePredictiveScores] *)
Definition updatePredictiveScores (s : Cache) : Cache :=
  with_predictiveCache (omap decay (predictiveCache s)) s.

(** [runMaintenance] *)
Definition runMaintenance (now : Z) (s : Cache) : Cache :=
  let s1 := cleanExpiredEntries now s in
  if predictiveCaching config then updatePredictiveScores s1 else s1.
End WithConfig.

(** The cache a constructor call leaves: empty tiers, zero statistics. *)
Definition new_cache (fs : FileSystem) : Cache :=
  mkCache [] [] [] zero_counters [] [] ∅ fs.
End Manager.

(** ** A small platform for the examples

    Values are strings that serialize to themselves; the stand-in for gzip
    prepends one byte and the stand-in for the digest is the key itself. *)

Module Demo.

Definition demo_gunzip (b : Buffer) : option string :=
  match b with
  | String "z" s => Some s
  | _ => None
  end.

#[export] Instance demo_runtime : Runtime string := {|
  json_stringify := fun v => v;
  json_parse := fun s => Some s;
  gzip := fun s => String "z" s;
  gunzip := demo_gunzip;
  sha256_hex := fun k => k
|}.

#[export] Instance demo_laws : RuntimeLaws string.
Proof. split; reflexivity. Qed.

(** The empty disk, with a writable cache directory. *)
Definition empty_disk : FileSystem := mkFs ∅ true.

(** A configuration with small tiers. *)
Definition small_config (m1 m2 m3 : nat) (diskOn : bool) : CacheConfig :=
  {| maxL1Size := m1;
     maxL2Size := m2;
     maxL3Size := m3;
     l3Directory := "cache";
     compressionThreshold := 1024;
     evictionPolicy := LRU;
     defaultTtl := Num 3600000;
     enableDiskCache := diskOn;
     enableCompression := true;
     maintenanceInterval := 300000;
     accessPatternWindowSize := 1000;
     predictiveCaching := false |}.

End Demo.

(** * Properties *)

(** ** The insertion-ordered map *)

Module JsMapFacts.
Section Facts.
Context {V : Type}.
Implicit Types (m : JsMap.t V) (k : string) (v : V).

Lemma get_set_eq k v m : JsMap.get k (JsMap.set k v m) = Some v.
Proof.
  induction m as [|[k' v'] m IH]; simpl.
  - now rewrite String.eqb_refl.
  - destruct (String.eqb k k') eqn:E; simpl; rewrite ?String.eqb_refl, ?E; auto.
Qed.

Lemma get_set_ne k k' v m :
  k <> k' -> JsMap.get k (JsMap.set k' v m) = JsMap.get k m.
Proof.
  intros Hne. induction m as [|[k2 v2] m IH]; simpl.
  - apply String.eqb_neq in Hne. now rewrite Hne.
  - destruct (String.eqb k' k2) eqn:E; simpl.
    + apply String.eqb_eq in E. subst k2.
      apply String.eqb_neq in Hne. now rewrite Hne.
    + now rewrite IH.
Qed.

Lemma get_delete_eq k m : JsMap.get k (JsMap.delete k m) = None.
Proof.
  induction m as [|[k' v'] m IH]; simpl; auto.
  destruct (String.eqb k k') eqn:E; simpl; rewrite ?E; auto.
Qed.

Lemma get_delete_ne k k' m :
  k <> k' -> JsMap.get k (JsMap.delete k' m) = JsMap.get k m.
Proof.
  intros Hne. induction m as [|[k2 v2] m IH]; simpl; auto.
  destruct (String.eqb k' k2) eqn:E; simpl.
  - apply String.eqb_eq in E. subst k2.
    apply String.eqb_neq in Hne. now rewrite Hne.
  - now rewrite IH.
Qed.

(** A deletion never brings a key to a different value. *)
Lemma get_delete_cases k k' m :
  JsMap.get k (JsMap.delete k' m) = None \/
  JsMap.get k (JsMap.delete k' m) = JsMap.get k m.
Proof.
  destruct (String.eqb_spec k k') as [->|Hne].
  - left. apply get_delete_eq.
  - right. now apply get_delete_ne.
Qed.

Lemma get_mutate_eq k f m :
  JsMap.get k (JsMap.mutate k f m) = f <$> JsMap.get k m.
Proof.
  induction m as [|[k' v'] m IH]; simpl; auto.
  destruct (String.eqb k k') eqn:E; simpl; rewrite E; auto.
Qed.

Lemma get_mutate_ne k k' f m :
  k <> k' -> JsMap.get k (JsMap.mutate k' f m) = JsMap.get k m.
Proof.
  intros Hne. induction m as [|[k2 v2] m IH]; simpl; auto.
  destruct (String.eqb k' k2) eqn:E; simpl.
  - apply String.eqb_eq in E. subst k2.
    apply String.eqb_neq in Hne. now rewrite Hne.
  - now rewrite IH.
Qed.

(** Mutating the object just stored is storing the mutated object. *)
Lemma mutate_set k f v m :
  JsMap.mutate k f (JsMap.set k v m) = JsMap.set k (f v) m.
Proof.
  induction m as [|[k' v'] m IH]; simpl.
  - now rewrite String.eqb_refl.
  - destruct (String.eqb k k') eqn:E; simpl.
    + now rewrite String.eqb_refl.
    + now rewrite E, IH.
Qed.

Lemma size_mutate k f m : JsMap.size (JsMap.mutate k f m) = JsMap.size m.
Proof.
  unfold JsMap.size.
  induction m as [|[k' v'] m IH]; simpl; auto.
  destruct (String.eqb k k'); simpl; auto.
Qed.

Lemma keys_mutate k f m : JsMap.keys (JsMap.mutate k f m) = JsMap.keys m.
Proof.
  unfold JsMap.keys.
  induction m as [|[k' v'] m IH]; simpl; auto.
  destruct (String.eqb k k'); simpl; congruence.
Qed.

Lemma size_set_le k v m : JsMap.size (JsMap.set k v m) <= S (JsMap.size m).
Proof.
  unfold JsMap.size.
  induction m as [|[k' v'] m IH]; simpl; auto.
  destruct (String.eqb k k'); simpl; lia.
Qed.

Lemma size_delete_le k m : JsMap.size (JsMap.delete k m) <= JsMap.size m.
Proof.
  unfold JsMap.size.
  induction m as [|[k' v'] m IH]; simpl; auto.
  destruct (String.eqb k k'); simpl; lia.
Qed.

Lemma size_delete_lt k v m :
  JsMap.get k m = Some v -> JsMap.size (JsMap.delete k m) < JsMap.size m.
Proof.
  unfold JsMap.size.
  induction m as [|[k' v'] m IH]; simpl; [discriminate|].
  destruct (String.eqb k k') eqn:E; simpl; intros Hg.
  - pose proof (size_delete_le k m). unfold JsMap.size in *. lia.
  - specialize (IH Hg). lia.
Qed.

Lemma get_Some_In k v m : JsMap.get k m = Some v -> In (k, v) m.
Proof.
  induction m as [|[k' v'] m IH]; simpl; [discriminate|].
  destruct (String.eqb_spec k k') as [->|Hne]; intros Hg.
  - left. congruence.
  - right. auto.
Qed.

Lemma In_get_Some k v m : In (k, v) m -> exists v', JsMap.get k m = Some v'.
Proof.
  induction m as [|[k' v'] m IH]; simpl; [tauto|].
  intros [Heq|Hin].
  - inversion Heq; subst. rewrite String.eqb_refl. eauto.
  - destruct (String.eqb k k'); eauto.
Qed.

(** With distinct keys, membership determines the lookup. *)
Lemma NoDup_In_get k v m :
  NoDup (JsMap.keys m) -> In (k, v) m -> JsMap.get k m = Some v.
Proof.
  unfold JsMap.keys.
  induction m as [|[k' v'] m IH]; simpl; [tauto|].
  intros Hnd [Heq|Hin].
  - inversion Heq; subst. now rewrite String.eqb_refl.
  - apply NoDup_cons in Hnd as [Hk Hnd].
    destruct (String.eqb_spec k k') as [->|Hne]; auto.
    exfalso. apply Hk. apply list_elem_of_In.
    apply in_map_iff. exists (k', v). auto.
Qed.

Lemma In_delete k kv m : In kv (JsMap.delete k m) -> In kv m /\ fst kv <> k.
Proof.
  induction m as [|[k' v'] m IH]; simpl; [tauto|].
  destruct (String.eqb_spec k k') as [->|Hne]; simpl.
  - intros Hin. destruct (IH Hin). auto.
  - intros [<-|Hin]; simpl; auto. destruct (IH Hin). auto.
Qed.

Lemma In_set k v kv m : In kv (JsMap.set k v m) -> kv = (k, v) \/ In kv m.
Proof.
  induction m as [|[k' v'] m IH]; simpl.
  - intros [<-|[]]. auto.
  - destruct (String.eqb k k'); simpl.
    + intros [<-|Hin]; auto.
    + intros [<-|Hin]; auto. destruct (IH Hin); auto.
Qed.

Lemma In_mutate k f kv m :
  In kv (JsMap.mutate k f m) ->
  In kv m \/ exists v, In (k, v) m /\ kv = (k, f v).
Proof.
  induction m as [|[k' v'] m IH]; simpl; [tauto|].
  destruct (String.eqb_spec k k') as [->|Hne]; simpl.
  - intros [<-|Hin]; eauto.
  - intros [<-|Hin]; auto. destruct (IH Hin) as [?|(v & ? & ?)]; eauto.
Qed.

Lemma Forall_delete (P : string * V -> Prop) k m :
  Forall P m -> Forall P (JsMap.delete k m).
Proof.
  rewrite !List.Forall_forall. intros HP kv Hin.
  apply In_delete in Hin as [Hin _]. auto.
Qed.

Lemma Forall_set (P : string * V -> Prop) k v m :
  P (k, v) -> Forall P m -> Forall P (JsMap.set k v m).
Proof.
  rewrite !List.Forall_forall. intros Hkv HP kv Hin.
  apply In_set in Hin as [->|Hin]; auto.
Qed.

Lemma Forall_mutate (P : string * V -> Prop) k f m :
  (forall v, P (k, v) -> P (k, f v)) -> Forall P m ->
  Forall P (JsMap.mutate k f m).
Proof.
  rewrite !List.Forall_forall. intros Hf HP kv Hin.
  apply In_mutate in Hin as [Hin|(v & Hin & ->)]; auto.
Qed.

Lemma keys_delete_incl k k' m :
  In k' (JsMap.keys (JsMap.delete k m)) -> In k' (JsMap.keys m).
Proof.
  unfold JsMap.keys. rewrite !in_map_iff.
  intros ([k2 v2] & <- & Hin). apply In_delete in Hin as [Hin _].
  exists (k2, v2). auto.
Qed.

Lemma NoDup_keys_delete k m :
  NoDup (JsMap.keys m) -> NoDup (JsMap.keys (JsMap.delete k m)).
Proof.
  induction m as [|[k' v'] m IH]; simpl; auto.
  intros Hnd. apply NoDup_cons in Hnd as [Hk Hnd].
  destruct (String.eqb k k'); simpl; auto.
  apply NoDup_cons. split; auto.
  intros Hin. apply Hk. apply list_elem_of_In.
  apply list_elem_of_In in Hin. now apply keys_delete_incl in Hin.
Qed.

Lemma keys_set_incl k k' v m :
  In k' (JsMap.keys (JsMap.set k v m)) -> k' = k \/ In k' (JsMap.keys m).
Proof.
  unfold JsMap.keys. rewrite !in_map_iff.
  intros ([k2 v2] & <- & Hin). apply In_set in Hin as [Heq|Hin].
  - inversion Heq; auto.
  - right. exists (k2, v2). auto.
Qed.

Lemma NoDup_keys_set k v m :
  NoDup (JsMap.keys m) -> NoDup (JsMap.keys (JsMap.set k v m)).
Proof.
  induction m as [|[k' v'] m IH]; simpl.
  - intros _. apply NoDup_cons. split; [apply not_elem_of_nil | constructor].
  - intros Hnd. apply NoDup_cons in Hnd as [Hk Hnd].
    destruct (String.eqb_spec k k') as [->|Hne]; simpl.
    + apply NoDup_cons. auto.
    + apply NoDup_cons. split; auto.
      intros Hin. apply list_elem_of_In in Hin.
      apply keys_set_incl in Hin as [Heq|Hin]; [congruence|].
      apply Hk. now apply list_elem_of_In.
Qed.
End Facts.
End JsMapFacts.

(** ** Victim selection *)

Section Victims.
Context {T : Type}.
Implicit Types (e : CacheEntry T) (entries : JsMap.t (CacheEntry T)).

(** An entry the policies may evict: its priority is below HIGH. *)
Definition evictable e : Prop := priority e = LOW \/ priority e = NORMAL.

(** A pinned entry: HIGH or CRITICAL. *)
Definition pinned e : Prop := priority e = HIGH \/ priority e = CRITICAL.

Lemma below_HIGH_true e : below_HIGH e = true <-> evictable e.
Proof.
  unfold below_HIGH, evictable.
  destruct (priority e); simpl; split; intros; auto;
    try discriminate; destruct H; discriminate.
Qed.

Lemma below_HIGH_false e : below_HIGH e = false <-> pinned e.
Proof.
  unfold below_HIGH, pinned.
  destruct (priority e); simpl; split; intros; auto;
    try discriminate; destruct H; discriminate.
Qed.

Lemma pinned_not_evictable e : pinned e -> ~ evictable e.
Proof. intros [Hp|Hp] [He|He]; congruence. Qed.

(** What the scan of [LRUPolicy.selectVictim] holds after a prefix of the
    entries: nothing while every entry seen is pinned, otherwise the first
    of the evictable entries with the least [accessed]. *)
Definition lru_best entries (acc : option Z * option string) : Prop :=
  (acc = (None, None) /\ Forall (fun ke => pinned (snd ke)) entries) \/
  (exists i k e,
      acc = (Some (accessed e), Some k) /\
      entries !! i = Some (k, e) /\
      evictable e /\
      (forall j k' e', entries !! j = Some (k', e') -> evictable e' ->
                       (accessed e <= accessed e')%Z) /\
      (forall j k' e', j < i -> entries !! j = Some (k', e') -> evictable e' ->
                       (accessed e < accessed e')%Z)).

Lemma lru_fold_best entries :
  lru_best entries (fold_left lru_step entries (None, None)).
Proof.
  induction entries as [|[kx ex] l IH] using rev_ind.
  - left. split; [reflexivity | constructor].
  - rewrite fold_left_app. simpl.
    destruct IH as [[Hacc Hall] | (i & k & e & Hacc & Hi & Hev & Hmin & Hfirst)];
      rewrite Hacc; unfold lru_step; simpl.
    + destruct (below_HIGH ex) eqn:Hb; simpl.
      * right. exists (length l), kx, ex. split; [reflexivity|].
        split; [apply list_lookup_middle; reflexivity|].
        split; [now apply below_HIGH_true|].
        assert (Hpin : forall j k' e', j < length l ->
                  (l ++ [(kx, ex)]) !! j = Some (k', e') -> evictable e' -> False).
        { intros j k' e' Hj Hl He'. rewrite lookup_app_l in Hl by lia.
          apply list_elem_of_lookup_2, list_elem_of_In in Hl.
          rewrite List.Forall_forall in Hall. apply Hall in Hl.
          now apply pinned_not_evictable in Hl. }
        split.
        -- intros j k' e' Hl He'.
           destruct (Nat.lt_ge_cases j (length l)) as [Hj|Hj].
           ++ exfalso. eauto.
           ++ rewrite lookup_app_r in Hl by lia.
              destruct (j - length l) as [|n] eqn:Ej; simpl in Hl; [|discriminate].
              inversion Hl; subst. lia.
        -- intros j k' e' Hj Hl He'. exfalso. eauto.
      * left. split; [reflexivity|].
        apply Forall_app. split; [assumption|].
        constructor; [|constructor]. now apply below_HIGH_false.
    + destruct (below_HIGH ex && (accessed ex <? accessed e)%Z) eqn:Hb.
      * apply andb_true_iff in Hb as [Hb Hlt]. apply Z.ltb_lt in Hlt.
        right. exists (length l), kx, ex. split; [reflexivity|].
        split; [apply list_lookup_middle; reflexivity|].
        split; [now apply below_HIGH_true|].
        split.
        -- intros j k' e' Hl He'.
           destruct (Nat.lt_ge_cases j (length l)) as [Hj|Hj].
           ++ rewrite lookup_app_l in Hl by lia.
              specialize (Hmin _ _ _ Hl He'). lia.
           ++ rewrite lookup_app_r in Hl by lia.
              destruct (j - length l) as [|n] eqn:Ej; simpl in Hl; [|discriminate].
              inversion Hl; subst. lia.
        -- intros j k' e' Hj Hl He'.
           rewrite lookup_app_l in Hl by lia.
           specialize (Hmin _ _ _ Hl He'). lia.
      * right. exists i, k, e. split; [reflexivity|].
        assert (Hil : i < length l) by (eapply lookup_lt_Some; eauto).
        split; [rewrite lookup_app_l by lia; assumption|].
        split; [assumption|].
        split.
        -- intros j k' e' Hl He'.
           destruct (Nat.lt_ge_cases j (length l)) as [Hj|Hj].
           ++ rewrite lookup_app_l in Hl by lia. eauto.
           ++ rewrite lookup_app_r in Hl by lia.
              destruct (j - length l) as [|n] eqn:Ej; simpl in Hl; [|discriminate].
              inversion Hl; subst.
              apply below_HIGH_true in He'. rewrite He' in Hb. simpl in Hb.
              apply Z.ltb_ge in Hb. lia.
        -- intros j k' e' Hj Hl He'.
           rewrite lookup_app_l in Hl by lia. eauto.
Qed.

(** C8.  [LRUPolicy.selectVictim] returns none exactly when every entry of
    the tier is pinned (HIGH or CRITICAL); otherwise it returns the key of
    an entry whose priority is below HIGH, whose [accessed] timestamp is the
    oldest among the entries below HIGH, and which comes first in the map's
    iteration order among the entries that tie on that timestamp. *)
Theorem lru_selectVictim_oldest_evictable entries :
  (lru_selectVictim entries = None <->
   Forall (fun ke => pinned (snd ke)) entries) /\
  (forall k, lru_selectVictim entries = Some k ->
     exists i e,
       entries !! i = Some (k, e) /\
       evictable e /\
       (forall j k' e', entries !! j = Some (k', e') -> evictable e' ->
                        (accessed e <= accessed e')%Z) /\
       (forall j k' e', j < i -> entries !! j = Some (k', e') -> evictable e' ->
                        (accessed e < accessed e')%Z)).
Proof.
  unfold lru_selectVictim.
  pose proof (lru_fold_best entries) as
    [[Hacc Hall] | (i & k & e & Hacc & Hi & Hev & Hmin & Hfirst)];
    rewrite Hacc; simpl.
  - split; [tauto|]. intros k Hk. discriminate.
  - split.
    + split; [discriminate|]. intros Hall. exfalso.
      apply list_elem_of_lookup_2, list_elem_of_In in Hi.
      rewrite List.Forall_forall in Hall. apply Hall in Hi.
      now apply pinned_not_evictable in Hi.
    + intros k0 Hk0. inversion Hk0; subst k0. exists i, e. auto.
Qed.
End Victims.

Section VictimsAnyPolicy.
Context {T : Type}.
Implicit Types (e : CacheEntry T) (entries : JsMap.t (CacheEntry T)).

(** The scan of [LFUPolicy.selectVictim] holds nothing while every entry
    seen is pinned, and an evictable entry of the tier otherwise. *)
Lemma lfu_fold_member entries :
  let acc := fold_left lfu_step entries (None, None) in
  (acc = (None, None) /\ Forall (fun ke => pinned (snd ke)) entries) \/
  (exists k e, acc = (Some (hits e), Some k) /\ In (k, e) entries /\ evictable e).
Proof.
  induction entries as [|[kx ex] l IH] using rev_ind; simpl.
  - left. split; [reflexivity | constructor].
  - rewrite fold_left_app. simpl in *.
    destruct IH as [[Hacc Hall] | (k & e & Hacc & Hin & Hev)];
      rewrite Hacc; unfold lfu_step; simpl.
    + destruct (below_HIGH ex) eqn:Hb; simpl.
      * right. exists kx, ex. split; [reflexivity|].
        split; [apply in_or_app; right; now left | now apply below_HIGH_true].
      * left. split; [reflexivity|].
        apply Forall_app. split; [assumption|].
        constructor; [|constructor]. now apply below_HIGH_false.
    + destruct (below_HIGH ex && (hits ex <? hits e)) eqn:Hb.
      * apply andb_true_iff in Hb as [Hb _].
        right. exists kx, ex. split; [reflexivity|].
        split; [apply in_or_app; right; now left | now apply below_HIGH_true].
      * right. exists k, e. split; [reflexivity|].
        split; [apply in_or_app; now left | assumption].
Qed.

(** Under either policy a victim is an evictable entry of the tier. *)
Lemma selectVictim_Some p entries k :
  selectVictim p entries = Some k ->
  exists e, In (k, e) entries /\ evictable e.
Proof.
  destruct p; simpl.
  - unfold lru_selectVictim.
    pose proof (lru_fold_best entries) as
      [[Hacc _] | (i & k0 & e & Hacc & Hi & Hev & _)]; rewrite Hacc; simpl.
    + discriminate.
    + intros Hk. inversion Hk; subst k0. exists e. split; [|assumption].
      now apply list_elem_of_lookup_2, list_elem_of_In in Hi.
  - unfold lfu_selectVictim.
    pose proof (lfu_fold_member entries) as
      [[Hacc _] | (k0 & e & Hacc & Hin & Hev)]; simpl in *; rewrite Hacc; simpl.
    + discriminate.
    + intros Hk. inversion Hk; subst k0. eauto.
Qed.

(** Under either policy no victim means that every entry is pinned. *)
Lemma selectVictim_None p entries :
  selectVictim p entries = None ->
  Forall (fun ke => pinned (snd ke)) entries.
Proof.
  destruct p; simpl.
  - unfold lru_selectVictim.
    pose proof (lru_fold_best entries) as
      [[Hacc Hall] | (i & k0 & e & Hacc & _)]; rewrite Hacc; simpl; auto.
    discriminate.
  - unfold lfu_selectVictim.
    pose proof (lfu_fold_member entries) as
      [[Hacc Hall] | (k0 & e & Hacc & _)]; simpl in *; rewrite Hacc; simpl; auto.
    discriminate.
Qed.

Lemma usable_victim_Some (v : option string) k :
  usable_victim v = Some k -> v = Some k /\ k <> EmptyString.
Proof.
  destruct v as [[|c s]|]; simpl; intros Hk; inversion Hk; subst.
  split; [reflexivity | discriminate].
Qed.

Lemma usable_victim_None (v : option string) :
  usable_victim v = None -> v = None \/ v = Some EmptyString.
Proof. destruct v as [[|c s]|]; simpl; intros Hk; auto; discriminate. Qed.
End VictimsAnyPolicy.

(** ** The capacity loops *)

Section Loops.
Context {T : Type} `{Runtime T}.
Variable config : CacheConfig.

Abbreviation Cache := (CacheManager T).
Abbreviation Entry := (CacheEntry T).
Implicit Types (s : Cache) (e victim : Entry) (k : string) (n : nat).

(** One turn of each loop. *)
Definition l3_evict (oldestKey filePath : string) (s : Cache) : Cache :=
  let s1 := with_disk (fs_unlink_ignore filePath (disk s)) s in
  let s2 := with_l3Index (JsMap.delete oldestKey (l3Index s1)) s1 in
  with_stats (bump_evictions (stats s2)) s2.

Definition l2_evict (victimKey : string) (victim : Entry) (s : Cache) : Cache :=
  let s1 := with_l2Cache (JsMap.delete victimKey (l2Cache s)) s in
  let s2 := if enableDiskCache config then demoteToL3 config victim s1 else s1 in
  with_stats (bump_evictions (stats s2)) s2.

Definition l1_evict (victimKey : string) (victim : Entry) (s : Cache) : Cache :=
  let s1 := with_l1Cache (JsMap.delete victimKey (l1Cache s)) s in
  let s2 := demoteToL2 config victim s1 in
  with_stats (bump_evictions (stats s2)) s2.

Lemma enforceL3Size_loop_S n s :
  enforceL3Size_loop config (S n) s =
  if maxL3Size config <? JsMap.size (l3Index s) then
    match l3Index s with
    | [] => s
    | (oldestKey, filePath) :: _ =>
        enforceL3Size_loop config n (l3_evict oldestKey filePath s)
    end
  else s.
Proof. reflexivity. Qed.

Lemma enforceL2Size_loop_S n s :
  enforceL2Size_loop config (S n) s =
  if maxL2Size config <? JsMap.size (l2Cache s) then
    match usable_victim (selectVictim (policy config) (l2Cache s)) with
    | None => s
    | Some victimKey =>
        match JsMap.get victimKey (l2Cache s) with
        | None => s
        | Some victim =>
            enforceL2Size_loop config n (l2_evict victimKey victim s)
        end
    end
  else s.
Proof. reflexivity. Qed.

Lemma enforceL1Size_loop_S n s :
  enforceL1Size_loop config (S n) s =
  if maxL1Size config <? JsMap.size (l1Cache s) then
    match usable_victim (selectVictim (policy config) (l1Cache s)) with
    | None => s
    | Some victimKey =>
        match JsMap.get victimKey (l1Cache s) with
        | None => s
        | Some victim =>
            enforceL1Size_loop config n (l1_evict victimKey victim s)
        end
    end
  else s.
Proof. reflexivity. Qed.

(** A property kept by every turn is kept by the loop. *)
Lemma enforceL3Size_loop_ind (P : Cache -> Prop) :
  (forall s oldestKey filePath rest,
      P s -> l3Index s = (oldestKey, filePath) :: rest ->
      maxL3Size config < JsMap.size (l3Index s) ->
      P (l3_evict oldestKey filePath s)) ->
  forall n s, P s -> P (enforceL3Size_loop config n s).
Proof.
  intros Hstep n. induction n as [|n IH]; intros s HP; [assumption|].
  rewrite enforceL3Size_loop_S.
  destruct (maxL3Size config <? JsMap.size (l3Index s)) eqn:E; [|assumption].
  apply Nat.ltb_lt in E.
  destruct (l3Index s) as [|[k p] rest] eqn:Ei; [assumption|].
  apply IH. eapply (Hstep s k p rest); eauto. now rewrite Ei.
Qed.

Lemma enforceL2Size_loop_ind (P : Cache -> Prop) :
  (forall s k victim,
      P s -> maxL2Size config < JsMap.size (l2Cache s) ->
      usable_victim (selectVictim (policy config) (l2Cache s)) = Some k ->
      JsMap.get k (l2Cache s) = Some victim ->
      P (l2_evict k victim s)) ->
  forall n s, P s -> P (enforceL2Size_loop config n s).
Proof.
  intros Hstep n. induction n as [|n IH]; intros s HP; [assumption|].
  rewrite enforceL2Size_loop_S.
  destruct (maxL2Size config <? JsMap.size (l2Cache s)) eqn:E; [|assumption].
  apply Nat.ltb_lt in E.
  destruct (usable_victim _) as [k|] eqn:Ev; [|assumption].
  destruct (JsMap.get k (l2Cache s)) as [victim|] eqn:Eg; [|assumption].
  apply IH. now apply (Hstep s k victim).
Qed.

Lemma enforceL1Size_loop_ind (P : Cache -> Prop) :
  (forall s k victim,
      P s -> maxL1Size config < JsMap.size (l1Cache s) ->
      usable_victim (selectVictim (policy config) (l1Cache s)) = Some k ->
      JsMap.get k (l1Cache s) = Some victim ->
      P (l1_evict k victim s)) ->
  forall n s, P s -> P (enforceL1Size_loop config n s).
Proof.
  intros Hstep n. induction n as [|n IH]; intros s HP; [assumption|].
  rewrite enforceL1Size_loop_S.
  destruct (maxL1Size config <? JsMap.size (l1Cache s)) eqn:E; [|assumption].
  apply Nat.ltb_lt in E.
  destruct (usable_victim _) as [k|] eqn:Ev; [|assumption].
  destruct (JsMap.get k (l1Cache s)) as [victim|] eqn:Eg; [|assumption].
  apply IH. now apply (Hstep s k victim).
Qed.

(** The entry [demoteToL2] stores and the statistics it updates. *)
Definition compresses (e : Entry) : bool :=
  enableCompression config && (compressionThreshold config <? size e).

Definition demoted_entry (e : Entry) : Entry :=
  let e2 := with_level l2 e in
  if compresses e then
    match payload e with
    | Raw v => with_payload (Gz (gzip (json_stringify v))) e2
    | Gz _ => e2
    end
  else e2.

Definition demote_stats (e : Entry) (s : Cache) : Cache :=
  if compresses e then
    match payload e with
    | Raw v =>
        let json := json_stringify v in
        with_stats (bump_compressions (stats s))
          (with_compressionRatios
             (push_window 100 (compressionRatios s)
                          (compression_ratio json (gzip json))) s)
    | Gz _ => s
    end
  else s.

Lemma demoteToL2_eq e s :
  demoteToL2 config e s =
  enforceL2Size config
    (with_l2Cache (JsMap.set (key e) (demoted_entry e)
                             (l2Cache (demote_stats e s)))
                  (demote_stats e s)).
Proof.
  unfold demoteToL2, demoted_entry, demote_stats, compresses. simpl.
  destruct (enableCompression config && _); [|reflexivity].
  destruct (payload e); reflexivity.
Qed.

Lemma key_demoted_entry e : key (demoted_entry e) = key e.
Proof.
  unfold demoted_entry. destruct (compresses e); [|reflexivity].
  destruct (payload e); reflexivity.
Qed.

Lemma priority_demoted_entry e : priority (demoted_entry e) = priority e.
Proof.
  unfold demoted_entry. destruct (compresses e); [|reflexivity].
  destruct (payload e); reflexivity.
Qed.

(** *** The disk index stays within its capacity *)

Lemma enforceL3Size_loop_bound n s :
  JsMap.size (l3Index s) <= n ->
  JsMap.size (l3Index (enforceL3Size_loop config n s)) <= maxL3Size config.
Proof.
  revert s. induction n as [|n IH]; intros s Hn; [simpl; lia|].
  rewrite enforceL3Size_loop_S.
  destruct (maxL3Size config <? JsMap.size (l3Index s)) eqn:E;
    [|apply Nat.ltb_ge in E; assumption].
  destruct (l3Index s) as [|[k p] rest] eqn:Ei; [rewrite Ei; simpl; lia|].
  apply IH. simpl. rewrite Ei. simpl. rewrite String.eqb_refl.
  pose proof (JsMapFacts.size_delete_le k rest).
  unfold JsMap.size in *. simpl in Hn. lia.
Qed.

Lemma enforceL3Size_bound s :
  JsMap.size (l3Index (enforceL3Size config s)) <= maxL3Size config.
Proof. unfold enforceL3Size. now apply enforceL3Size_loop_bound. Qed.

Lemma demoteToL3_bound e s :
  JsMap.size (l3Index s) <= maxL3Size config ->
  JsMap.size (l3Index (demoteToL3 config e s)) <= maxL3Size config.
Proof.
  intros Hs. unfold demoteToL3.
  destruct (fs_writeFile _ _ _); [apply enforceL3Size_bound | assumption].
Qed.

Lemma l2_evict_l3_bound k victim s :
  JsMap.size (l3Index s) <= maxL3Size config ->
  JsMap.size (l3Index (l2_evict k victim s)) <= maxL3Size config.
Proof.
  intros Hs. unfold l2_evict. simpl.
  destruct (enableDiskCache config); [|assumption].
  now apply demoteToL3_bound.
Qed.

Lemma enforceL2Size_loop_l3_bound n s :
  JsMap.size (l3Index s) <= maxL3Size config ->
  JsMap.size (l3Index (enforceL2Size_loop config n s)) <= maxL3Size config.
Proof.
  apply (enforceL2Size_loop_ind
           (fun s => JsMap.size (l3Index s) <= maxL3Size config)).
  intros. now apply l2_evict_l3_bound.
Qed.

Lemma demote_stats_frame e s :
  l1Cache (demote_stats e s) = l1Cache s /\
  l2Cache (demote_stats e s) = l2Cache s /\
  l3Index (demote_stats e s) = l3Index s /\
  accessTimes (demote_stats e s) = accessTimes s /\
  predictiveCache (demote_stats e s) = predictiveCache s /\
  disk (demote_stats e s) = disk s.
Proof.
  unfold demote_stats. destruct (compresses e); [|tauto].
  destruct (payload e); simpl; tauto.
Qed.

Lemma demoteToL2_l3_bound e s :
  JsMap.size (l3Index s) <= maxL3Size config ->
  JsMap.size (l3Index (demoteToL2 config e s)) <= maxL3Size config.
Proof.
  intros Hs. rewrite demoteToL2_eq. unfold enforceL2Size.
  apply enforceL2Size_loop_l3_bound. simpl.
  now rewrite (proj1 (proj2 (proj2 (demote_stats_frame e s)))).
Qed.

Lemma enforceL1Size_loop_l3_bound n s :
  JsMap.size (l3Index s) <= maxL3Size config ->
  JsMap.size (l3Index (enforceL1Size_loop config n s)) <= maxL3Size config.
Proof.
  apply (enforceL1Size_loop_ind
           (fun s => JsMap.size (l3Index s) <= maxL3Size config)).
  intros s' k victim Hs _ _ _. unfold l1_evict. simpl.
  now apply demoteToL2_l3_bound.
Qed.
End Loops.

(** ** Capacity of the tiers *)

Section Capacity.
Context {T : Type} `{Runtime T}.
Variable config : CacheConfig.

Abbreviation Cache := (CacheManager T).
Abbreviation Entry := (CacheEntry T).
Implicit Types (s : Cache) (e victim : Entry) (k : string) (n : nat).

(** What the disk-level steps leave alone. *)
Definition same_memory s s' : Prop :=
  l1Cache s' = l1Cache s /\ l2Cache s' = l2Cache s /\
  accessTimes s' = accessTimes s /\
  compressionRatios s' = compressionRatios s /\
  predictiveCache s' = predictiveCache s.

Lemma same_memory_refl s : same_memory s s.
Proof. unfold same_memory. tauto. Qed.

Lemma same_memory_trans s1 s2 s3 :
  same_memory s1 s2 -> same_memory s2 s3 -> same_memory s1 s3.
Proof. unfold same_memory. intuition congruence. Qed.

Lemma enforceL3Size_loop_frame n s :
  same_memory s (enforceL3Size_loop config n s).
Proof.
  apply (enforceL3Size_loop_ind config (same_memory s));
    [|apply same_memory_refl].
  intros s' k p rest Hs' _ _. eapply same_memory_trans; [exact Hs'|].
  unfold same_memory, l3_evict. simpl. tauto.
Qed.

Lemma demoteToL3_frame e s : same_memory s (demoteToL3 config e s).
Proof.
  unfold demoteToL3. destruct (fs_writeFile _ _ _); [|apply same_memory_refl].
  unfold enforceL3Size.
  eapply same_memory_trans; [|apply enforceL3Size_loop_frame].
  unfold same_memory. simpl. tauto.
Qed.

(** What a turn of the compressed tier's loop leaves alone. *)
Definition same_fast s s' : Prop :=
  l1Cache s' = l1Cache s /\
  accessTimes s' = accessTimes s /\
  compressionRatios s' = compressionRatios s /\
  predictiveCache s' = predictiveCache s.

Lemma same_fast_refl s : same_fast s s.
Proof. unfold same_fast. tauto. Qed.

Lemma same_fast_trans s1 s2 s3 :
  same_fast s1 s2 -> same_fast s2 s3 -> same_fast s1 s3.
Proof. unfold same_fast. intuition congruence. Qed.

Lemma l2_evict_l2Cache k victim s :
  l2Cache (l2_evict config k victim s) = JsMap.delete k (l2Cache s).
Proof.
  unfold l2_evict. simpl. destruct (enableDiskCache config); [|reflexivity].
  now destruct (demoteToL3_frame victim
                  (with_l2Cache (JsMap.delete k (l2Cache s)) s)) as (_ & -> & _).
Qed.

Lemma l2_evict_frame k victim s : same_fast s (l2_evict config k victim s).
Proof.
  unfold l2_evict. simpl. destruct (enableDiskCache config).
  - destruct (demoteToL3_frame victim
                (with_l2Cache (JsMap.delete k (l2Cache s)) s))
      as (H1 & _ & H3 & H4 & H5).
    unfold same_fast. simpl in *. tauto.
  - unfold same_fast. simpl. tauto.
Qed.

Lemma enforceL2Size_loop_frame n s :
  same_fast s (enforceL2Size_loop config n s).
Proof.
  apply (enforceL2Size_loop_ind config (same_fast s)); [|apply same_fast_refl].
  intros s' k victim Hs' _ _ _. eapply same_fast_trans; [exact Hs'|].
  apply l2_evict_frame.
Qed.

(** An entry of the compressed tier: its key is not empty and the
    policies may evict it. *)
Definition good2 (ke : string * Entry) : Prop :=
  fst ke <> EmptyString /\ evictable (snd ke).

Lemma enforceL2Size_loop_good2 n s :
  Forall good2 (l2Cache s) ->
  Forall good2 (l2Cache (enforceL2Size_loop config n s)).
Proof.
  apply (enforceL2Size_loop_ind config (fun s => Forall good2 (l2Cache s))).
  intros s' k victim Hs' _ _ _. rewrite l2_evict_l2Cache.
  now apply JsMapFacts.Forall_delete.
Qed.

(** With enough turns the loop of [enforceL2Size] ends because the tier is
    within its capacity. *)
Lemma enforceL2Size_loop_bound n s :
  Forall good2 (l2Cache s) ->
  JsMap.size (l2Cache s) <= n ->
  JsMap.size (l2Cache (enforceL2Size_loop config n s)) <= maxL2Size config.
Proof.
  revert s. induction n as [|n IH]; intros s Hgood Hn; [simpl; lia|].
  rewrite enforceL2Size_loop_S.
  destruct (maxL2Size config <? JsMap.size (l2Cache s)) eqn:E;
    [|apply Nat.ltb_ge in E; assumption].
  apply Nat.ltb_lt in E.
  destruct (usable_victim _) as [k|] eqn:Ev.
  - apply usable_victim_Some in Ev as [Ev Hk].
    apply selectVictim_Some in Ev as (e & Hin & Hev).
    destruct (JsMapFacts.In_get_Some _ _ _ Hin) as [victim Hget].
    rewrite Hget. apply IH.
    + rewrite l2_evict_l2Cache. now apply JsMapFacts.Forall_delete.
    + rewrite l2_evict_l2Cache.
      pose proof (JsMapFacts.size_delete_lt _ _ _ Hget). lia.
  - exfalso. apply usable_victim_None in Ev as [Ev|Ev].
    + apply selectVictim_None in Ev.
      destruct (l2Cache s) as [|[k0 e0] rest]; [simpl in E; lia|].
      apply Forall_cons in Ev as [Hp _]. apply Forall_cons in Hgood as [[_ He] _].
      now apply pinned_not_evictable in Hp.
    + apply selectVictim_Some in Ev as (e & Hin & _).
      rewrite List.Forall_forall in Hgood. apply Hgood in Hin as [Hk _].
      now apply Hk.
Qed.

Lemma demoteToL2_frame e s :
  l1Cache (demoteToL2 config e s) = l1Cache s /\
  accessTimes (demoteToL2 config e s) = accessTimes s /\
  predictiveCache (demoteToL2 config e s) = predictiveCache s.
Proof.
  rewrite demoteToL2_eq. unfold enforceL2Size.
  destruct (enforceL2Size_loop_frame
              (JsMap.size (l2Cache
                 (with_l2Cache (JsMap.set (key e) (demoted_entry config e)
                                          (l2Cache (demote_stats config e s)))
                               (demote_stats config e s))))
              (with_l2Cache (JsMap.set (key e) (demoted_entry config e)
                                       (l2Cache (demote_stats config e s)))
                            (demote_stats config e s)))
    as (H1 & H2 & _ & H4).
  destruct (demote_stats_frame config e s) as (F1 & _ & _ & F4 & F5 & _).
  simpl in *. rewrite H1, H2, H4. auto.
Qed.

(** After a demotion the compressed tier is within its capacity. *)
Lemma demoteToL2_l2 e s :
  Forall good2 (l2Cache s) -> key e <> EmptyString -> evictable e ->
  Forall good2 (l2Cache (demoteToL2 config e s)) /\
  JsMap.size (l2Cache (demoteToL2 config e s)) <= maxL2Size config.
Proof.
  intros Hgood Hk He. rewrite demoteToL2_eq. unfold enforceL2Size.
  destruct (demote_stats_frame config e s) as (_ & F2 & _).
  assert (Hgood' : Forall good2
            (JsMap.set (key e) (demoted_entry config e)
                       (l2Cache (demote_stats config e s)))).
  { apply JsMapFacts.Forall_set; [|now rewrite F2].
    split; [assumption|]. unfold evictable in *.
    simpl. now rewrite priority_demoted_entry. }
  split.
  - now apply enforceL2Size_loop_good2.
  - apply enforceL2Size_loop_bound; [assumption | reflexivity].
Qed.

(** An entry of the fast tier: its key is not empty and is the key the
    entry itself records. *)
Definition good1 (ke : string * Entry) : Prop :=
  fst ke <> EmptyString /\ key (snd ke) = fst ke.

(** The invariant the capacity loops keep. *)
Definition tiers_ok s : Prop :=
  Forall good1 (l1Cache s) /\
  NoDup (JsMap.keys (l1Cache s)) /\
  Forall good2 (l2Cache s) /\
  JsMap.size (l2Cache s) <= maxL2Size config /\
  JsMap.size (l3Index s) <= maxL3Size config.

Lemma l1_evict_l1Cache k victim s :
  l1Cache (l1_evict config k victim s) = JsMap.delete k (l1Cache s).
Proof.
  unfold l1_evict. simpl.
  now destruct (demoteToL2_frame victim
                  (with_l1Cache (JsMap.delete k (l1Cache s)) s)) as (-> & _).
Qed.

Lemma l1_evict_tiers_ok k victim s :
  tiers_ok s ->
  usable_victim (selectVictim (policy config) (l1Cache s)) = Some k ->
  JsMap.get k (l1Cache s) = Some victim ->
  tiers_ok (l1_evict config k victim s).
Proof.
  intros (Hg1 & Hnd & Hg2 & Hs2 & Hs3) Hv Hget.
  apply usable_victim_Some in Hv as [Hv Hk].
  apply selectVictim_Some in Hv as (e & Hin & Hev).
  rewrite (JsMapFacts.NoDup_In_get _ _ _ Hnd Hin) in Hget.
  inversion Hget; subst e.
  assert (Hkey : key victim = k).
  { rewrite List.Forall_forall in Hg1. now destruct (Hg1 _ Hin). }
  unfold tiers_ok. rewrite l1_evict_l1Cache.
  split; [now apply JsMapFacts.Forall_delete|].
  split; [now apply JsMapFacts.NoDup_keys_delete|].
  unfold l1_evict. simpl.
  destruct (demoteToL2_l2 victim (with_l1Cache (JsMap.delete k (l1Cache s)) s))
    as [Hg2' Hs2']; [assumption | congruence | assumption |].
  split; [assumption|]. split; [assumption|].
  now apply demoteToL2_l3_bound.
Qed.

Lemma enforceL1Size_loop_tiers_ok n s :
  tiers_ok s -> tiers_ok (enforceL1Size_loop config n s).
Proof.
  apply (enforceL1Size_loop_ind config tiers_ok).
  intros s' k victim Hs' _ Hv Hget. now apply l1_evict_tiers_ok.
Qed.

(** With enough turns the loop of [enforceL1Size] ends because the tier is
    within its capacity or because every entry left is pinned. *)
Lemma enforceL1Size_loop_bound n s :
  tiers_ok s ->
  JsMap.size (l1Cache s) <= n ->
  JsMap.size (l1Cache (enforceL1Size_loop config n s)) <= maxL1Size config \/
  Forall (fun ke => pinned (snd ke)) (l1Cache (enforceL1Size_loop config n s)).
Proof.
  revert s. induction n as [|n IH]; intros s Hok Hn; [simpl; lia|].
  rewrite enforceL1Size_loop_S.
  destruct (maxL1Size config <? JsMap.size (l1Cache s)) eqn:E;
    [|apply Nat.ltb_ge in E; auto].
  apply Nat.ltb_lt in E.
  destruct (usable_victim _) as [k|] eqn:Ev.
  - pose proof Ev as Ev'.
    apply usable_victim_Some in Ev' as [Ev' Hk].
    apply selectVictim_Some in Ev' as (e & Hin & Hev).
    destruct (JsMapFacts.In_get_Some _ _ _ Hin) as [victim Hget].
    rewrite Hget. apply IH.
    + now apply l1_evict_tiers_ok.
    + rewrite l1_evict_l1Cache.
      pose proof (JsMapFacts.size_delete_lt _ _ _ Hget). lia.
  - apply usable_victim_None in Ev as [Ev|Ev].
    + right. now apply selectVictim_None in Ev.
    + exfalso. apply selectVictim_Some in Ev as (e & Hin & _).
      destruct Hok as (Hg1 & _). rewrite List.Forall_forall in Hg1.
      apply Hg1 in Hin as [Hk _]. now apply Hk.
Qed.

(** *** The loops run to their own exit

    Whatever the state, the number of turns each loop is given (the size of
    its tier) is enough: the loop stops because its tier is within capacity
    or because the policy offers no usable victim, never for want of turns.
    (For the disk tier this is [enforceL3Size_bound].) *)

Lemma victim_is_stored p (m : JsMap.t Entry) k :
  usable_victim (selectVictim p m) = Some k ->
  exists victim, JsMap.get k m = Some victim.
Proof.
  intros Hv. apply usable_victim_Some in Hv as [Hv _].
  apply selectVictim_Some in Hv as (e & Hin & _).
  now apply JsMapFacts.In_get_Some in Hin.
Qed.

Lemma enforceL2Size_loop_settles n s :
  JsMap.size (l2Cache s) <= n ->
  JsMap.size (l2Cache (enforceL2Size_loop config n s)) <= maxL2Size config \/
  usable_victim (selectVictim (policy config)
                   (l2Cache (enforceL2Size_loop config n s))) = None.
Proof.
  revert s. induction n as [|n IH]; intros s Hn; [simpl; lia|].
  rewrite enforceL2Size_loop_S.
  destruct (maxL2Size config <? JsMap.size (l2Cache s)) eqn:E;
    [|apply Nat.ltb_ge in E; auto].
  destruct (usable_victim _) as [k|] eqn:Ev; [|auto].
  destruct (victim_is_stored _ _ _ Ev) as [victim Hget].
  rewrite Hget. apply IH. rewrite l2_evict_l2Cache.
  pose proof (JsMapFacts.size_delete_lt _ _ _ Hget). lia.
Qed.

Lemma enforceL1Size_loop_settles n s :
  JsMap.size (l1Cache s) <= n ->
  JsMap.size (l1Cache (enforceL1Size_loop config n s)) <= maxL1Size config \/
  usable_victim (selectVictim (policy config)
                   (l1Cache (enforceL1Size_loop config n s))) = None.
Proof.
  revert s. induction n as [|n IH]; intros s Hn; [simpl; lia|].
  rewrite enforceL1Size_loop_S.
  destruct (maxL1Size config <? JsMap.size (l1Cache s)) eqn:E;
    [|apply Nat.ltb_ge in E; auto].
  destruct (usable_victim _) as [k|] eqn:Ev; [|auto].
  destruct (victim_is_stored _ _ _ Ev) as [victim Hget].
  rewrite Hget. apply IH. rewrite l1_evict_l1Cache.
  pose proof (JsMapFacts.size_delete_lt _ _ _ Hget). lia.
Qed.
End Capacity.

(** ** Sequences of [set] calls *)

(** The arguments of one [set] call and the time at which it runs. *)
Record SetCall (T : Type) := mkSetCall {
  sc_key : string;
  sc_value : T;
  sc_priority : CachePriority;
  sc_ttl : option JsNumber;
  sc_now : Z
}.
Arguments mkSetCall {T}.
Arguments sc_key {T}.
Arguments sc_value {T}.
Arguments sc_priority {T}.
Arguments sc_ttl {T}.
Arguments sc_now {T}.

Section SetCalls.
Context {T : Type} `{Runtime T}.
Variable config : CacheConfig.

Abbreviation Cache := (CacheManager T).
Abbreviation Entry := (CacheEntry T).
Implicit Types (s : Cache) (e victim : Entry) (k : string) (n : nat).

Definition set_call (s : Cache) (c : SetCall T) : Cache :=
  set config (sc_key c) (sc_value c) (sc_priority c) (sc_ttl c) (sc_now c) s.

(** The calls run one after the other, each one settled before the next. *)
Definition run_sets (calls : list (SetCall T)) (s : Cache) : Cache :=
  fold_left set_call calls s.

(** The three tiers are within their configured capacities. *)
Definition within_capacity s : Prop :=
  JsMap.size (l1Cache s) <= maxL1Size config /\
  JsMap.size (l2Cache s) <= maxL2Size config /\
  JsMap.size (l3Index s) <= maxL3Size config.

(** The fast tier is within its capacity unless only pinned entries are
    left in it; the other two tiers are within theirs. *)
Definition within_capacity_or_pinned s : Prop :=
  (JsMap.size (l1Cache s) <= maxL1Size config \/
   Forall (fun ke => pinned (snd ke)) (l1Cache s)) /\
  JsMap.size (l2Cache s) <= maxL2Size config /\
  JsMap.size (l3Index s) <= maxL3Size config.

Lemma priority_onAdd p now e : priority (onAdd p now e) = priority e.
Proof. destruct p; reflexivity. Qed.

Lemma key_onAdd p now e : key (onAdd p now e) = key e.
Proof. destruct p; reflexivity. Qed.

(** The state [set] hands to [enforceL1Size]. *)
Definition set_insert k (v : T) prio ttl_arg now s : Cache :=
  with_l1Cache
    (JsMap.mutate k (onAdd (policy config) now)
                  (JsMap.set k (createEntry config k v prio ttl_arg now)
                             (l1Cache s))) s.

Lemma set_eq k v prio ttl_arg now s :
  set config k v prio ttl_arg now s =
  let s2 := enforceL1Size config (set_insert k v prio ttl_arg now s) in
  if predictiveCaching config then updatePredictiveCache k s2 else s2.
Proof. reflexivity. Qed.

Lemma set_insert_tiers_ok k v prio ttl_arg now s :
  k <> EmptyString -> tiers_ok config s ->
  tiers_ok config (set_insert k v prio ttl_arg now s).
Proof.
  intros Hk (Hg1 & Hnd & Hrest). unfold tiers_ok, set_insert. simpl.
  split; [|split; [|exact Hrest]].
  - apply JsMapFacts.Forall_mutate.
    + intros e [Hk' He]. split; [assumption|]. simpl in *.
      now rewrite key_onAdd.
    + apply JsMapFacts.Forall_set; [|assumption]. now split.
  - rewrite JsMapFacts.keys_mutate. now apply JsMapFacts.NoDup_keys_set.
Qed.

Lemma set_tiers_ok k v prio ttl_arg now s :
  k <> EmptyString -> tiers_ok config s ->
  tiers_ok config (set config k v prio ttl_arg now s) /\
  within_capacity_or_pinned (set config k v prio ttl_arg now s).
Proof.
  intros Hk Hok. rewrite set_eq. cbv zeta.
  pose proof (set_insert_tiers_ok k v prio ttl_arg now s Hk Hok) as Hok1.
  pose proof (enforceL1Size_loop_tiers_ok config
                (JsMap.size (l1Cache (set_insert k v prio ttl_arg now s)))
                _ Hok1) as Hok2.
  pose proof (enforceL1Size_loop_bound config
                (JsMap.size (l1Cache (set_insert k v prio ttl_arg now s)))
                _ Hok1 (Nat.le_refl _)) as Hb.
  fold (enforceL1Size config (set_insert k v prio ttl_arg now s)) in Hok2, Hb.
  assert (Hcap : within_capacity_or_pinned
                   (enforceL1Size config (set_insert k v prio ttl_arg now s))).
  { destruct Hok2 as (_ & _ & _ & H2 & H3). split; [exact Hb | split; assumption]. }
  destruct (predictiveCaching config); [|split; assumption].
  split; [exact Hok2 | exact Hcap].
Qed.

Lemma new_cache_tiers_ok fs : tiers_ok config (new_cache fs : Cache).
Proof.
  unfold tiers_ok, new_cache. simpl.
  repeat split; try constructor; lia.
Qed.

Lemma run_sets_tiers_ok calls s :
  Forall (fun c => sc_key c <> EmptyString) calls ->
  tiers_ok config s -> within_capacity_or_pinned s ->
  tiers_ok config (run_sets calls s) /\
  within_capacity_or_pinned (run_sets calls s).
Proof.
  unfold run_sets. revert s.
  induction calls as [|c calls IH]; intros s Hkeys Hok Hcap; simpl; [auto|].
  apply Forall_cons in Hkeys as [Hk Hkeys].
  destruct (set_tiers_ok (sc_key c) (sc_value c) (sc_priority c) (sc_ttl c)
                         (sc_now c) s Hk Hok) as [Hok' Hcap'].
  now apply IH.
Qed.

(** The entry a [set] call stores: the new entry after [onAdd]. *)
Definition set_entry k (v : T) prio ttl_arg now : Entry :=
  onAdd (policy config) now (createEntry config k v prio ttl_arg now).

Lemma set_insert_l1Cache k v prio ttl_arg now s :
  l1Cache (set_insert k v prio ttl_arg now s) =
  JsMap.set k (set_entry k v prio ttl_arg now) (l1Cache s).
Proof. unfold set_insert, set_entry. simpl. apply JsMapFacts.mutate_set. Qed.

Lemma updatePredictiveCache_tiers k s :
  l1Cache (updatePredictiveCache k s) = l1Cache s /\
  l2Cache (updatePredictiveCache k s) = l2Cache s /\
  l3Index (updatePredictiveCache k s) = l3Index s.
Proof. unfold updatePredictiveCache. simpl. tauto. Qed.

Lemma enforceL1Size_loop_l1_Forall (P : string * Entry -> Prop) n s :
  Forall P (l1Cache s) -> Forall P (l1Cache (enforceL1Size_loop config n s)).
Proof.
  apply (enforceL1Size_loop_ind config (fun s => Forall P (l1Cache s))).
  intros s' k victim Hs' _ _ _. rewrite l1_evict_l1Cache.
  now apply JsMapFacts.Forall_delete.
Qed.

Lemma set_l1_Forall (P : string * Entry -> Prop) k v prio ttl_arg now s :
  P (k, set_entry k v prio ttl_arg now) ->
  Forall P (l1Cache s) ->
  Forall P (l1Cache (set config k v prio ttl_arg now s)).
Proof.
  intros Hnew Hall. rewrite set_eq. cbv zeta.
  assert (Hl : Forall P (l1Cache (enforceL1Size config
                                    (set_insert k v prio ttl_arg now s)))).
  { apply enforceL1Size_loop_l1_Forall. rewrite set_insert_l1Cache.
    now apply JsMapFacts.Forall_set. }
  destruct (predictiveCaching config); exact Hl.
Qed.

(** Only evictable entries reach the fast tier when only priorities below
    HIGH are set. *)
Lemma run_sets_l1_evictable calls s :
  Forall (fun c => evictable_priority (sc_priority c)) calls ->
  Forall (fun ke => evictable (snd ke)) (l1Cache s) ->
  Forall (fun ke => evictable (snd ke)) (l1Cache (run_sets calls s)).
Proof.
  unfold run_sets. revert s.
  induction calls as [|c calls IH]; intros s Hp Hall; simpl; [assumption|].
  apply Forall_cons in Hp as [Hc Hp]. apply IH; [assumption|].
  apply set_l1_Forall; [|assumption].
  unfold evictable, set_entry. simpl. rewrite priority_onAdd. exact Hc.
Qed.

(** C4, as amended.  For every sequence of [set] calls with non-empty keys,
    starting from the empty cache: once each call has settled the fast tier
    holds at most [maxL1Size] entries unless every entry left in it is pinned
    (HIGH or CRITICAL), the compressed tier holds at most [maxL2Size] entries
    and the disk index at most [maxL3Size]; when every call uses a priority
    below HIGH all three tiers are within their capacities. *)
Theorem set_calls_respect_capacity (fs : FileSystem) (calls : list (SetCall T)) :
  Forall (fun c => sc_key c <> EmptyString) calls ->
  within_capacity_or_pinned (run_sets calls (new_cache fs)) /\
  (Forall (fun c => evictable_priority (sc_priority c)) calls ->
   within_capacity (run_sets calls (new_cache fs))).
Proof.
  intros Hkeys.
  assert (Hcap : within_capacity_or_pinned (run_sets calls (new_cache fs))).
  { apply run_sets_tiers_ok; [assumption | apply new_cache_tiers_ok |].
    unfold within_capacity_or_pinned, new_cache. simpl.
    split; [left; lia | split; lia]. }
  split; [exact Hcap|].
  intros Hprio. destruct Hcap as ([Hl1 | Hpin] & Hl2 & Hl3);
    [split; [assumption | split; assumption]|].
  pose proof (run_sets_l1_evictable calls (new_cache fs) Hprio) as Hev.
  specialize (Hev (List.Forall_nil _)). unfold within_capacity.
  destruct (l1Cache (run_sets calls (new_cache fs))) as [|[k0 e0] rest].
  - split; [simpl; lia | split; assumption].
  - exfalso. apply Forall_cons in Hpin as [Hp _]. apply Forall_cons in Hev as [He _].
    now apply pinned_not_evictable in Hp.
Qed.
End SetCalls.

(** ** Updates of entries in place *)

Section EntryUpdates.
Context {T : Type} `{Runtime T}.
Variable config : CacheConfig.

Abbreviation Cache := (CacheManager T).
Abbreviation Entry := (CacheEntry T).
Implicit Types (s : Cache) (e victim : Entry) (k : string) (n : nat).

Lemma evictable_hit_entry now e :
  evictable (hit_entry config now e) <-> evictable e.
Proof. unfold evictable, hit_entry. destruct (policy config); reflexivity. Qed.

Lemma key_hit_entry now e : key (hit_entry config now e) = key e.
Proof. unfold hit_entry. destruct (policy config); reflexivity. Qed.

(** A victim is an evictable entry stored under a key that is not empty. *)
Lemma victim_evictable s k victim :
  NoDup (JsMap.keys (l1Cache s)) ->
  usable_victim (selectVictim (policy config) (l1Cache s)) = Some k ->
  JsMap.get k (l1Cache s) = Some victim ->
  k <> EmptyString /\ evictable victim /\ In (k, victim) (l1Cache s).
Proof.
  intros Hnd Hv Hget. apply usable_victim_Some in Hv as [Hv Hk].
  apply selectVictim_Some in Hv as (e & Hin & Hev).
  rewrite (JsMapFacts.NoDup_In_get _ _ _ Hnd Hin) in Hget.
  inversion Hget; subst e. auto.
Qed.

Lemma demoted_entry_plain e :
  compresses config e = false -> demoted_entry config e = with_level l2 e.
Proof. unfold demoted_entry. now intros ->. Qed.

Lemma with_level_hit_entry now l e :
  with_level l (hit_entry config now e) = hit_entry config now (with_level l e).
Proof. unfold hit_entry. destruct (policy config); reflexivity. Qed.

End EntryUpdates.

(** ** What the eviction loops and the promotion keep *)

(** The capacity loops move entries down the tiers and the promotion of
    [get] moves one entry up; [recordHit] and [onAdd] update entries in
    place.  A property [P1] of the entries of the fast tier and a property
    [P2] of the entries of the compressed tier are kept when these updates
    keep them and the demotion of an evictable [P1] entry gives a [P2]
    entry. *)
Section Tiers.
Context {T : Type} `{Runtime T}.
Variable config : CacheConfig.
Variables P1 P2 : string * CacheEntry T -> Prop.

Abbreviation Cache := (CacheManager T).
Abbreviation Entry := (CacheEntry T).
Implicit Types (s : Cache) (e victim : Entry) (k : string) (n : nat).

Hypothesis P1_hit :
  forall now k e, P1 (k, e) -> P1 (k, hit_entry config now e).
Hypothesis P2_hit :
  forall now k e, P2 (k, e) -> P2 (k, hit_entry config now e).
Hypothesis P1_onAdd :
  forall now k e, P1 (k, e) -> P1 (k, onAdd (policy config) now e).
Hypothesis P1_P2 :
  forall k e, k <> EmptyString -> evictable e -> P1 (k, e) ->
              P2 (key e, demoted_entry config e).

Definition tiers_keep s : Prop :=
  NoDup (JsMap.keys (l1Cache s)) /\
  Forall P1 (l1Cache s) /\
  Forall P2 (l2Cache s).

Lemma enforceL2Size_loop_keep n s :
  tiers_keep s -> tiers_keep (enforceL2Size_loop config n s).
Proof.
  apply (enforceL2Size_loop_ind config tiers_keep).
  intros s' k victim (Hnd & H1 & H2) _ _ _. unfold tiers_keep.
  rewrite l2_evict_l2Cache.
  destruct (l2_evict_frame config k victim s') as (-> & _).
  split; [assumption|]. split; [assumption|].
  now apply JsMapFacts.Forall_delete.
Qed.

Lemma demoteToL2_keep e s :
  tiers_keep s -> P2 (key e, demoted_entry config e) ->
  tiers_keep (demoteToL2 config e s).
Proof.
  intros (Hnd & H1 & H2) He. rewrite demoteToL2_eq. unfold enforceL2Size.
  apply enforceL2Size_loop_keep.
  destruct (demote_stats_frame config e s) as (F1 & F2 & _).
  unfold tiers_keep. simpl. rewrite F1, F2.
  split; [assumption|]. split; [assumption|].
  now apply JsMapFacts.Forall_set.
Qed.

Lemma l1_evict_keep k victim s :
  tiers_keep s ->
  usable_victim (selectVictim (policy config) (l1Cache s)) = Some k ->
  JsMap.get k (l1Cache s) = Some victim ->
  tiers_keep (l1_evict config k victim s).
Proof.
  intros (Hnd & H1 & H2) Hv Hget.
  destruct (victim_evictable config s k victim Hnd Hv Hget) as (Hk & Hev & Hin).
  unfold l1_evict.
  assert (Hd : tiers_keep
                 (demoteToL2 config victim
                    (with_l1Cache (JsMap.delete k (l1Cache s)) s))).
  { apply demoteToL2_keep.
    - split; [now apply JsMapFacts.NoDup_keys_delete|].
      split; [now apply JsMapFacts.Forall_delete | assumption].
    - apply (P1_P2 k); try assumption.
      rewrite List.Forall_forall in H1. now apply H1. }
  exact Hd.
Qed.

Lemma enforceL1Size_loop_keep n s :
  tiers_keep s -> tiers_keep (enforceL1Size_loop config n s).
Proof.
  apply (enforceL1Size_loop_ind config tiers_keep).
  intros s' k victim Hs' _ Hv Hget. now apply l1_evict_keep.
Qed.

Lemma recordHit_at_keep w h s :
  tiers_keep s -> tiers_keep (recordHit_at config w h s).
Proof.
  intros (Hnd & H1 & H2). unfold tiers_keep, recordHit_at.
  destruct w as [k|k]; simpl.
  - rewrite JsMapFacts.keys_mutate. split; [assumption|].
    split; [|assumption]. apply JsMapFacts.Forall_mutate; [|assumption].
    intros e. apply P1_hit.
  - split; [assumption|]. split; [assumption|].
    apply JsMapFacts.Forall_mutate; [|assumption].
    intros e. apply P2_hit.
Qed.

Lemma demoteToL3_keep e s : tiers_keep s -> tiers_keep (demoteToL3 config e s).
Proof.
  intros (Hnd & H1 & H2).
  destruct (demoteToL3_frame config e s) as (F1 & F2 & _).
  unfold tiers_keep. now rewrite F1, F2.
Qed.

Lemma enforceL2Size_first_keep w h s :
  tiers_keep s -> tiers_keep (enforceL2Size_first config w h s).
Proof.
  intros Hs. unfold enforceL2Size_first.
  destruct (enableDiskCache config);
    [|now apply recordHit_at_keep, enforceL2Size_loop_keep].
  destruct (maxL2Size config <? _); [|now apply recordHit_at_keep].
  destruct (usable_victim _) as [k|]; [|now apply recordHit_at_keep].
  destruct (JsMap.get k (l2Cache s)) as [victim|];
    [|now apply recordHit_at_keep].
  unfold enforceL2Size. apply enforceL2Size_loop_keep.
  assert (Hd : tiers_keep
                 (demoteToL3 config victim
                    (recordHit_at config w h
                       (with_l2Cache (JsMap.delete k (l2Cache s)) s)))).
  { apply demoteToL3_keep, recordHit_at_keep.
    destruct Hs as (Hnd & H1 & H2).
    split; [assumption|]. split; [assumption|].
    now apply JsMapFacts.Forall_delete. }
  exact Hd.
Qed.

Lemma demoteToL2_first_keep promoted k' k h victim s :
  tiers_keep s -> k' <> EmptyString -> evictable victim -> P1 (k', victim) ->
  tiers_keep (demoteToL2_first config promoted k h victim s).
Proof.
  intros Hs Hk Hev Hv. unfold demoteToL2_first.
  fold (compresses config victim).
  destruct (compresses config victim) eqn:Ec.
  - destruct promoted.
    + apply demoteToL2_keep.
      * destruct Hs as (Hnd & H1 & H2). split; [assumption|]. now split.
      * apply (P1_P2 k'); [assumption | now apply evictable_hit_entry |].
        now apply P1_hit.
    + apply demoteToL2_keep; [now apply recordHit_at_keep|].
      now apply (P1_P2 k').
  - apply enforceL2Size_first_keep.
    destruct Hs as (Hnd & H1 & H2).
    split; [assumption|]. split; [assumption|]. simpl.
    apply JsMapFacts.Forall_set; [|assumption].
    rewrite <- (demoted_entry_plain config victim Ec).
    now apply (P1_P2 k').
Qed.

Lemma enforceL1Size_first_keep k h s :
  tiers_keep s -> tiers_keep (enforceL1Size_first config k h s).
Proof.
  intros Hs. unfold enforceL1Size_first.
  destruct (maxL1Size config <? _); [|now apply recordHit_at_keep].
  destruct (usable_victim _) as [k'|] eqn:Ev; [|now apply recordHit_at_keep].
  destruct (JsMap.get k' (l1Cache s)) as [victim|] eqn:Eg;
    [|now apply recordHit_at_keep].
  destruct Hs as (Hnd & H1 & H2).
  destruct (victim_evictable config s k' victim Hnd Ev Eg) as (Hk & Hev & Hin).
  unfold enforceL1Size. apply enforceL1Size_loop_keep.
  assert (Hd : tiers_keep
                 (demoteToL2_first config (String.eqb k' k) k h victim
                    (with_l1Cache (JsMap.delete k' (l1Cache s)) s))).
  { apply (demoteToL2_first_keep _ k'); try assumption.
    - split; [now apply JsMapFacts.NoDup_keys_delete|].
      split; [now apply JsMapFacts.Forall_delete | assumption].
    - rewrite List.Forall_forall in H1. now apply H1. }
  exact Hd.
Qed.

Lemma place_in_l1_keep now e s :
  tiers_keep s -> P1 (key e, with_level l1 e) ->
  tiers_keep (place_in_l1 config now e s).
Proof.
  intros (Hnd & H1 & H2) He. unfold tiers_keep, place_in_l1. simpl.
  rewrite JsMapFacts.mutate_set.
  split; [now apply JsMapFacts.NoDup_keys_set|].
  split; [|assumption].
  apply JsMapFacts.Forall_set; [|assumption]. now apply P1_onAdd.
Qed.

Lemma promoteToL1_keep h e s :
  tiers_keep s -> P1 (key e, with_level l1 e) ->
  tiers_keep (promoteToL1 config h e s).
Proof.
  intros Hs He. unfold promoteToL1.
  assert (Hl2 : tiers_keep (with_l2Cache (JsMap.delete (key e) (l2Cache s)) s)).
  { destruct Hs as (Hnd & H1 & H2). split; [assumption|].
    split; [assumption|]. now apply JsMapFacts.Forall_delete. }
  destruct (level e).
  - now apply enforceL1Size_first_keep, place_in_l1_keep.
  - now apply enforceL1Size_first_keep, place_in_l1_keep.
  - destruct (truthy_path _) as [p|];
      [|now apply enforceL1Size_first_keep, place_in_l1_keep].
    unfold enforceL1Size. apply enforceL1Size_loop_keep.
    apply place_in_l1_keep.
    + destruct Hs as (Hnd & H1 & H2). split; [assumption|]. now split.
    + rewrite key_hit_entry, with_level_hit_entry. now apply P1_hit.
Qed.
End Tiers.

(** ** The paths of [get] *)

Section GetPaths.
Context {T : Type} `{Runtime T}.
Variable config : CacheConfig.

Abbreviation Cache := (CacheManager T).
Abbreviation Entry := (CacheEntry T).
Implicit Types (s : Cache) (e : Entry) (k : string).

(** The state [get] leaves and what it returns, path by path: a hit in the
    fast tier; a hit in the compressed tier on a raw entry, on a compressed
    entry that decodes, or on one that does not; a hit on the disk; a miss
    after a failed load; a miss without a load. *)
Lemma get_paths (Q : Cache * Outcome (option T) -> Prop) k startTime now s :
  (forall e,
      live now (JsMap.get k (l1Cache s)) = Some e ->
      Q (recordHit_stats config l1 (now - startTime)
           (with_l1Cache
              (JsMap.mutate k (hit_entry config now) (l1Cache s)) s),
         Returned (value e))) ->
  (forall e v,
      live now (JsMap.get k (l1Cache s)) = None ->
      live now (JsMap.get k (l2Cache s)) = Some e ->
      payload e = Raw v ->
      Q (promoteToL1 config (mkHit l2 (now - startTime) now) e s,
         Returned (Some v))) ->
  (forall e b v,
      live now (JsMap.get k (l1Cache s)) = None ->
      live now (JsMap.get k (l2Cache s)) = Some e ->
      payload e = Gz b ->
      gunzip b ≫= json_parse = Some v ->
      Q (promoteToL1 config (mkHit l2 (now - startTime) now)
           (with_payload (Raw v) e)
           (with_stats (bump_decompressions (stats s))
              (with_l2Cache
                 (JsMap.mutate k (fun _ => with_payload (Raw v) e)
                               (l2Cache s)) s)),
         Returned (Some v))) ->
  (forall e b,
      live now (JsMap.get k (l1Cache s)) = None ->
      live now (JsMap.get k (l2Cache s)) = Some e ->
      payload e = Gz b ->
      gunzip b ≫= json_parse = None ->
      Q (s, Threw)) ->
  (forall p s1 data prio,
      live now (JsMap.get k (l1Cache s)) = None ->
      live now (JsMap.get k (l2Cache s)) = None ->
      enableDiskCache config = true ->
      truthy_path (JsMap.get k (l3Index s)) = Some p ->
      loadFromDisk p now s = (s1, Some (data, prio)) ->
      Q (promoteToL1 config (mkHit l3 (now - startTime) now)
           (createEntry config k data prio None now) s1,
         Returned (Some data))) ->
  (forall p s1,
      live now (JsMap.get k (l1Cache s)) = None ->
      live now (JsMap.get k (l2Cache s)) = None ->
      enableDiskCache config = true ->
      truthy_path (JsMap.get k (l3Index s)) = Some p ->
      loadFromDisk p now s = (s1, None) ->
      Q (recordMiss config (now - startTime) s1, Returned None)) ->
  (live now (JsMap.get k (l1Cache s)) = None ->
   live now (JsMap.get k (l2Cache s)) = None ->
   enableDiskCache config = false \/
   truthy_path (JsMap.get k (l3Index s)) = None ->
   Q (recordMiss config (now - startTime) s, Returned None)) ->
  Q (get config k startTime now s).
Proof.
  intros H1 H2r H2z H2x H3 H3x Hm. unfold get.
  destruct (live now (JsMap.get k (l1Cache s))) as [e1|] eqn:E1;
    [now apply H1|].
  unfold get_l2.
  destruct (live now (JsMap.get k (l2Cache s))) as [e2|] eqn:E2.
  { destruct (payload e2) as [v|b] eqn:Ep.
    - unfold value. rewrite Ep. now apply H2r.
    - destruct (gunzip b ≫= json_parse) as [v|] eqn:Ed.
      + unfold value. simpl. now apply (H2z e2 b v).
      + now apply (H2x e2 b). }
  unfold get_l3.
  destruct (enableDiskCache config) eqn:Ed; [|apply Hm; auto].
  destruct (truthy_path (JsMap.get k (l3Index s))) as [p|] eqn:Et;
    [|apply Hm; auto].
  destruct (loadFromDisk p now s) as [s1 [[data prio]|]] eqn:El.
  - now apply (H3 p).
  - now apply (H3x p).
Qed.
End GetPaths.

(** ** Reading back what was just set *)

Section RoundTrip.
Context {T : Type} `{RuntimeLaws T}.
Variable config : CacheConfig.

Abbreviation Cache := (CacheManager T).
Abbreviation Entry := (CacheEntry T).
Implicit Types (s : Cache) (e victim : Entry) (k : string) (n : nat).

(** The loops only remove keys: a lookup afterwards finds nothing or what
    it found before. *)
Lemma enforceL2Size_loop_l2_get n s k :
  JsMap.get k (l2Cache (enforceL2Size_loop config n s)) = None \/
  JsMap.get k (l2Cache (enforceL2Size_loop config n s)) = JsMap.get k (l2Cache s).
Proof.
  apply (enforceL2Size_loop_ind config
           (fun s' => JsMap.get k (l2Cache s') = None \/
                      JsMap.get k (l2Cache s') = JsMap.get k (l2Cache s)));
    [|now right].
  intros s' k' victim Hs' _ _ _. rewrite l2_evict_l2Cache.
  destruct (JsMapFacts.get_delete_cases k k' (l2Cache s')) as [Hd|Hd];
    rewrite Hd; auto.
Qed.

Lemma demoteToL2_l2_get e s k :
  JsMap.get k (l2Cache (demoteToL2 config e s)) = None \/
  JsMap.get k (l2Cache (demoteToL2 config e s)) =
  JsMap.get k (JsMap.set (key e) (demoted_entry config e) (l2Cache s)).
Proof.
  rewrite demoteToL2_eq. unfold enforceL2Size.
  destruct (demote_stats_frame config e s) as (_ & F2 & _).
  rewrite <- F2.
  apply (enforceL2Size_loop_l2_get _
           (with_l2Cache (JsMap.set (key e) (demoted_entry config e)
                                    (l2Cache (demote_stats config e s)))
                         (demote_stats config e s))).
Qed.

(** Every entry of the fast tier is stored under the key it records. *)
Definition keys_agree (m : JsMap.t Entry) : Prop :=
  Forall (fun ke => key (snd ke) = fst ke) m.

(** Where the entry [e] stored under [k] can be while [set] enforces the
    capacity of the fast tier: still there, or demoted to the compressed
    tier, or evicted from both. *)
Definition tracked k e s : Prop :=
  JsMap.get k (l1Cache s) = Some e \/
  (JsMap.get k (l1Cache s) = None /\
   (JsMap.get k (l2Cache s) = None \/
    JsMap.get k (l2Cache s) = Some (demoted_entry config e))).

Lemma l1_evict_tracked k e k' victim s :
  key e = k ->
  keys_agree (l1Cache s) -> tracked k e s ->
  JsMap.get k' (l1Cache s) = Some victim ->
  keys_agree (l1Cache (l1_evict config k' victim s)) /\
  tracked k e (l1_evict config k' victim s).
Proof.
  intros Hke Hagree Htr Hget.
  assert (Hkv : key victim = k').
  { apply JsMapFacts.get_Some_In in Hget.
    unfold keys_agree in Hagree. rewrite List.Forall_forall in Hagree.
    now apply Hagree in Hget. }
  split.
  { rewrite l1_evict_l1Cache. now apply JsMapFacts.Forall_delete. }
  unfold tracked. rewrite l1_evict_l1Cache.
  assert (Hl2 : l2Cache (l1_evict config k' victim s) =
                l2Cache (demoteToL2 config victim
                           (with_l1Cache (JsMap.delete k' (l1Cache s)) s)))
    by reflexivity.
  rewrite Hl2.
  pose proof (demoteToL2_l2_get victim
                (with_l1Cache (JsMap.delete k' (l1Cache s)) s) k) as Hd.
  simpl in Hd. rewrite Hkv in Hd.
  destruct (String.eqb_spec k k') as [<-|Hne].
  - right. split; [apply JsMapFacts.get_delete_eq|].
    rewrite JsMapFacts.get_set_eq in Hd.
    destruct Htr as [Hin | [Hnone _]]; [|congruence].
    assert (victim = e) by congruence. subst victim. exact Hd.
  - rewrite JsMapFacts.get_delete_ne by assumption.
    rewrite JsMapFacts.get_set_ne in Hd by assumption.
    destruct Htr as [Hin | [Hnone Hl2k]]; [now left|].
    right. split; [assumption|].
    destruct Hd as [Hd|Hd]; [now left|]. rewrite Hd. exact Hl2k.
Qed.

Lemma enforceL1Size_loop_tracked k e n s :
  key e = k ->
  keys_agree (l1Cache s) -> tracked k e s ->
  tracked k e (enforceL1Size_loop config n s).
Proof.
  intros Hke Hagree Htr.
  apply (enforceL1Size_loop_ind config
           (fun s' => keys_agree (l1Cache s') /\ tracked k e s')); [|now split].
  intros s' k' victim [Ha Ht] _ _ Hget. now apply l1_evict_tracked.
Qed.

Lemma set_tracked k v prio ttl_arg now s :
  keys_agree (l1Cache s) ->
  tracked k (set_entry config k v prio ttl_arg now)
          (set config k v prio ttl_arg now s).
Proof.
  intros Hagree. rewrite set_eq. cbv zeta.
  assert (Ht : tracked k (set_entry config k v prio ttl_arg now)
                 (enforceL1Size config (set_insert config k v prio ttl_arg now s))).
  { apply enforceL1Size_loop_tracked.
    - unfold set_entry. now rewrite key_onAdd.
    - unfold keys_agree. rewrite set_insert_l1Cache.
      apply JsMapFacts.Forall_set; [|assumption].
      unfold set_entry. simpl. now rewrite key_onAdd.
    - left. rewrite set_insert_l1Cache. apply JsMapFacts.get_set_eq. }
  destruct (predictiveCaching config); exact Ht.
Qed.

(** The entry [set] stores expires as the entry [createEntry] makes. *)
Lemma set_entry_live k v prio ttl_arg now now' :
  isExpired now' (set_entry config k v prio ttl_arg now)
  = isExpired now' (createEntry config k v prio ttl_arg now).
Proof. unfold isExpired, set_entry. destruct (policy config); reflexivity. Qed.

Lemma demoted_entry_live e now' :
  isExpired now' (demoted_entry config e) = isExpired now' e.
Proof.
  unfold demoted_entry. destruct (compresses config e); [|reflexivity].
  destruct (payload e); reflexivity.
Qed.

Lemma payload_set_entry k v prio ttl_arg now :
  payload (set_entry config k v prio ttl_arg now) = Raw v.
Proof. unfold set_entry. destruct (policy config); reflexivity. Qed.
End RoundTrip.

(** ** Sequences of operations *)

(** The public operations, with the clock readings of each call. *)
Inductive Op (T : Type) :=
| OpGet (k : string) (startTime now : Z)
| OpSet (k : string) (v : T) (prio : CachePriority)
        (ttl_arg : option JsNumber) (now : Z)
| OpDelete (k : string)
| OpClear
| OpMaintenance (now : Z).
Arguments OpGet {T}.
Arguments OpSet {T}.
Arguments OpDelete {T}.
Arguments OpClear {T}.
Arguments OpMaintenance {T}.

Section Operations.
Context {T : Type} `{Runtime T}.
Variable config : CacheConfig.

Abbreviation Cache := (CacheManager T).
Abbreviation Entry := (CacheEntry T).
Implicit Types (s : Cache) (e victim : Entry) (k : string) (n : nat).

(** The cache once the operation has settled. *)
Definition step (s : Cache) (op : Op T) : Cache :=
  match op with
  | OpGet k startTime now => fst (get config k startTime now s)
  | OpSet k v prio ttl_arg now => set config k v prio ttl_arg now s
  | OpDelete k => fst (delete k s)
  | OpClear => clear config s
  | OpMaintenance now => runMaintenance config now s
  end.

Definition run (ops : list (Op T)) (s : Cache) : Cache := fold_left step ops s.

(** *** The rolling samples *)

(** The latency sample is bounded by the configured window, the
    compression-ratio sample by the constant 100 of [demoteToL2]. *)
Definition samples_bounded s : Prop :=
  length (accessTimes s) <= accessPatternWindowSize config /\
  length (compressionRatios s) <= 100.

Lemma push_window_length {A} (w : nat) (l : list A) (x : A) :
  length l <= w -> length (push_window w l x) <= w.
Proof.
  intros Hl. unfold push_window.
  destruct (w <? length (l ++ [x])) eqn:E.
  - destruct l as [|a l]; simpl in *; [lia|].
    rewrite length_app. simpl. rewrite length_app in E. simpl in *. lia.
  - apply Nat.ltb_ge in E. exact E.
Qed.

(** Once the window is full a push drops the oldest sample. *)
Lemma push_window_full {A} (w : nat) (l : list A) (x : A) :
  length l = w -> push_window w l x = tl (l ++ [x]).
Proof.
  intros Hl. unfold push_window.
  assert (E : (w <? length (l ++ [x])) = true).
  { apply Nat.ltb_lt. rewrite length_app. simpl. lia. }
  now rewrite E.
Qed.

(** Below the window a push keeps every sample. *)
Lemma push_window_room {A} (w : nat) (l : list A) (x : A) :
  length l < w -> push_window w l x = l ++ [x].
Proof.
  intros Hl. unfold push_window.
  assert (E : (w <? length (l ++ [x])) = false).
  { apply Nat.ltb_ge. rewrite length_app. simpl. lia. }
  now rewrite E.
Qed.

Lemma samples_same_fast s s' :
  same_fast s s' -> samples_bounded s -> samples_bounded s'.
Proof. unfold same_fast, samples_bounded. intros (_ & -> & -> & _). auto. Qed.

Lemma demoteToL2_samples e s :
  samples_bounded s -> samples_bounded (demoteToL2 config e s).
Proof.
  intros [Ha Hc]. rewrite demoteToL2_eq. unfold enforceL2Size.
  eapply samples_same_fast; [apply enforceL2Size_loop_frame|].
  unfold samples_bounded. simpl.
  destruct (demote_stats_frame config e s) as (_ & _ & _ & F4 & _).
  rewrite F4. split; [assumption|].
  unfold demote_stats. destruct (compresses config e); [|assumption].
  destruct (payload e); [|assumption]. simpl.
  now apply push_window_length.
Qed.

Lemma enforceL1Size_loop_samples n s :
  samples_bounded s -> samples_bounded (enforceL1Size_loop config n s).
Proof.
  apply (enforceL1Size_loop_ind config samples_bounded).
  intros s' k victim Hs' _ _ _. unfold l1_evict.
  pose proof (demoteToL2_samples victim
                (with_l1Cache (JsMap.delete k (l1Cache s')) s') Hs') as Hd.
  exact Hd.
Qed.

Lemma loadFromDisk_samples p now s :
  samples_bounded s -> samples_bounded (fst (loadFromDisk p now s)).
Proof.
  intros Hs. unfold loadFromDisk.
  repeat case_match; simpl; exact Hs.
Qed.

Lemma recordHit_stats_samples lvl t s :
  samples_bounded s -> samples_bounded (recordHit_stats config lvl t s).
Proof.
  intros [Ha Hc]. split; [|exact Hc]. simpl. now apply push_window_length.
Qed.

Lemma recordMiss_samples t s :
  samples_bounded s -> samples_bounded (recordMiss config t s).
Proof.
  intros [Ha Hc]. split; [|exact Hc]. simpl. now apply push_window_length.
Qed.

Lemma recordHit_at_samples w h s :
  samples_bounded s -> samples_bounded (recordHit_at config w h s).
Proof.
  intros Hs. unfold recordHit_at. apply recordHit_stats_samples.
  destruct w; exact Hs.
Qed.

Lemma enforceL2Size_first_samples w h s :
  samples_bounded s -> samples_bounded (enforceL2Size_first config w h s).
Proof.
  intros Hs. unfold enforceL2Size_first.
  assert (Hloop : forall s', samples_bounded s' ->
                             samples_bounded (enforceL2Size config s')).
  { intros s' Hs'. unfold enforceL2Size.
    eapply samples_same_fast; [apply enforceL2Size_loop_frame | exact Hs']. }
  destruct (enableDiskCache config);
    [|now apply recordHit_at_samples, Hloop].
  destruct (maxL2Size config <? _); [|now apply recordHit_at_samples].
  destruct (usable_victim _) as [k|]; [|now apply recordHit_at_samples].
  destruct (JsMap.get k (l2Cache s)) as [victim|];
    [|now apply recordHit_at_samples].
  apply Hloop.
  destruct (demoteToL3_frame config victim
              (recordHit_at config w h
                 (with_l2Cache (JsMap.delete k (l2Cache s)) s)))
    as (_ & _ & F3 & F4 & _).
  pose proof (recordHit_at_samples w h
                (with_l2Cache (JsMap.delete k (l2Cache s)) s) Hs) as [Ha Hc].
  split; simpl; [now rewrite F3 | now rewrite F4].
Qed.

Lemma demoteToL2_first_samples promoted k h victim s :
  samples_bounded s ->
  samples_bounded (demoteToL2_first config promoted k h victim s).
Proof.
  intros Hs. unfold demoteToL2_first.
  destruct (enableCompression config && _).
  - destruct promoted; apply demoteToL2_samples;
      [now apply recordHit_stats_samples | now apply recordHit_at_samples].
  - now apply enforceL2Size_first_samples.
Qed.

Lemma enforceL1Size_first_samples k h s :
  samples_bounded s -> samples_bounded (enforceL1Size_first config k h s).
Proof.
  intros Hs. unfold enforceL1Size_first.
  destruct (maxL1Size config <? _); [|now apply recordHit_at_samples].
  destruct (usable_victim _) as [k'|]; [|now apply recordHit_at_samples].
  destruct (JsMap.get k' (l1Cache s)) as [victim|];
    [|now apply recordHit_at_samples].
  unfold enforceL1Size. apply enforceL1Size_loop_samples.
  pose proof (demoteToL2_first_samples (String.eqb k' k) k h victim
                (with_l1Cache (JsMap.delete k' (l1Cache s)) s) Hs) as Hd.
  exact Hd.
Qed.

Lemma promoteToL1_samples h e s :
  samples_bounded s -> samples_bounded (promoteToL1 config h e s).
Proof.
  intros Hs. unfold promoteToL1.
  destruct (level e); try (apply enforceL1Size_first_samples; exact Hs).
  destruct (truthy_path _); [|apply enforceL1Size_first_samples; exact Hs].
  unfold enforceL1Size. apply enforceL1Size_loop_samples.
  pose proof (recordHit_stats_samples (hit_level h) (hit_accessTime h) s Hs)
    as Hr.
  exact Hr.
Qed.

Lemma get_l3_samples k startTime now s :
  samples_bounded s -> samples_bounded (fst (get_l3 config k startTime now s)).
Proof.
  intros Hs. unfold get_l3.
  destruct (enableDiskCache config); [|now apply recordMiss_samples].
  destruct (truthy_path _) as [p|]; [|now apply recordMiss_samples].
  pose proof (loadFromDisk_samples p now s Hs) as Hl.
  destruct (loadFromDisk p now s) as [s1 [[data prio]|]]; simpl in *.
  - now apply promoteToL1_samples.
  - now apply recordMiss_samples.
Qed.

Lemma get_samples k startTime now s :
  samples_bounded s -> samples_bounded (fst (get config k startTime now s)).
Proof.
  intros Hs. unfold get.
  destruct (live now (JsMap.get k (l1Cache s))) as [e1|].
  { simpl. now apply recordHit_stats_samples. }
  unfold get_l2.
  destruct (live now (JsMap.get k (l2Cache s))) as [e2|];
    [|now apply get_l3_samples].
  destruct (payload e2) as [v|b]; simpl.
  - now apply promoteToL1_samples.
  - destruct (gunzip b ≫= json_parse) as [v|]; simpl; [|exact Hs].
    now apply promoteToL1_samples.
Qed.

Lemma set_samples k v prio ttl_arg now s :
  samples_bounded s -> samples_bounded (set config k v prio ttl_arg now s).
Proof.
  intros Hs. rewrite set_eq. cbv zeta.
  assert (Hl : samples_bounded
                 (enforceL1Size config (set_insert config k v prio ttl_arg now s)))
    by now apply enforceL1Size_loop_samples.
  destruct (predictiveCaching config); exact Hl.
Qed.

Lemma delete_samples k s :
  samples_bounded s -> samples_bounded (fst (delete k s)).
Proof.
  intros Hs. unfold delete. repeat case_match; simpl; exact Hs.
Qed.

Lemma clear_samples s : samples_bounded s -> samples_bounded (clear config s).
Proof.
  intros Hs. unfold clear. destruct (enableDiskCache config); exact Hs.
Qed.

Lemma clean_l3_samples now (idx : JsMap.t string) s :
  samples_bounded s ->
  samples_bounded (fold_left (clean_l3_step now) idx s).
Proof.
  revert s. induction idx as [|kp idx IH]; intros s Hs; simpl; [exact Hs|].
  apply IH. unfold clean_l3_step.
  pose proof (loadFromDisk_samples (snd kp) now s Hs) as Hl.
  destruct (loadFromDisk (snd kp) now s) as [s1 [r|]]; exact Hl.
Qed.

Lemma runMaintenance_samples now s :
  samples_bounded s -> samples_bounded (runMaintenance config now s).
Proof.
  intros Hs. unfold runMaintenance.
  assert (Hc : samples_bounded (cleanExpiredEntries now s)).
  { unfold cleanExpiredEntries. now apply clean_l3_samples. }
  destruct (predictiveCaching config); exact Hc.
Qed.

Lemma step_samples op s : samples_bounded s -> samples_bounded (step s op).
Proof.
  destruct op; simpl.
  - apply get_samples.
  - apply set_samples.
  - apply delete_samples.
  - apply clear_samples.
  - apply runMaintenance_samples.
Qed.

(** C7, as amended.  After any sequence of operations on a new cache the
    recent-access-latency sample holds at most [accessPatternWindowSize]
    entries and the recent-compression-ratio sample holds at most 100 entries,
    a constant that does not depend on the configuration; a push onto a full
    sample appends the new entry and drops the oldest one, and a push onto a
    sample with room keeps every entry. *)
Theorem rolling_samples_bounded (fs : FileSystem) (ops : list (Op T)) :
  (length (accessTimes (run ops (new_cache fs)))
   <= accessPatternWindowSize config /\
   length (compressionRatios (run ops (new_cache fs))) <= 100) /\
  (forall (A : Type) (w : nat) (l : list A) (x : A),
      (length l = w -> push_window w l x = tl (l ++ [x])) /\
      (length l < w -> push_window w l x = l ++ [x])).
Proof.
  split.
  - assert (Hgen : forall s, samples_bounded s -> samples_bounded (run ops s)).
    { unfold run. induction ops as [|op ops' IH]; intros s Hs; simpl; [exact Hs|].
      apply IH. now apply step_samples. }
    apply (Hgen (new_cache fs)). split; simpl; lia.
  - intros A w l x. split; [apply push_window_full | apply push_window_room].
Qed.
End Operations.

(** ** Expiry, maintenance and statistics *)

Section Maintenance.
Context {T : Type} `{Runtime T}.
Variable config : CacheConfig.

Abbreviation Cache := (CacheManager T).
Abbreviation Entry := (CacheEntry T).
Implicit Types (s : Cache) (e victim : Entry) (k : string) (n : nat).

Lemma loadFromDisk_frame p now s : same_memory s (fst (loadFromDisk p now s)).
Proof.
  unfold loadFromDisk, same_memory. repeat case_match; simpl; tauto.
Qed.

Lemma clean_l3_frame now (idx : JsMap.t string) s :
  same_memory s (fold_left (clean_l3_step now) idx s).
Proof.
  revert s. induction idx as [|kp idx IH]; intros s; simpl;
    [apply same_memory_refl|].
  eapply same_memory_trans; [|apply IH].
  unfold clean_l3_step.
  pose proof (loadFromDisk_frame (snd kp) now s) as Hl.
  destruct (loadFromDisk (snd kp) now s) as [s1 [r|]]; simpl in *; [exact Hl|].
  unfold same_memory in *. simpl. exact Hl.
Qed.

Lemma cleanExpiredEntries_l1Cache now s :
  l1Cache (cleanExpiredEntries now s) =
  List.filter (fun ke => negb (isExpired now (snd ke))) (l1Cache s).
Proof.
  unfold cleanExpiredEntries.
  now destruct (clean_l3_frame now
    (l3Index (with_l2Cache
       (List.filter (fun ke => negb (isExpired now (snd ke)))
          (l2Cache (with_l1Cache
             (List.filter (fun ke => negb (isExpired now (snd ke))) (l1Cache s)) s)))
       (with_l1Cache
          (List.filter (fun ke => negb (isExpired now (snd ke))) (l1Cache s)) s)))
    (with_l2Cache
       (List.filter (fun ke => negb (isExpired now (snd ke)))
          (l2Cache (with_l1Cache
             (List.filter (fun ke => negb (isExpired now (snd ke))) (l1Cache s)) s)))
       (with_l1Cache
          (List.filter (fun ke => negb (isExpired now (snd ke))) (l1Cache s)) s)))
    as (-> & _).
Qed.

Lemma cleanExpiredEntries_predictiveCache now s :
  predictiveCache (cleanExpiredEntries now s) = predictiveCache s.
Proof.
  unfold cleanExpiredEntries.
  now destruct (clean_l3_frame now
    (l3Index (with_l2Cache
       (List.filter (fun ke => negb (isExpired now (snd ke)))
          (l2Cache (with_l1Cache
             (List.filter (fun ke => negb (isExpired now (snd ke))) (l1Cache s)) s)))
       (with_l1Cache
          (List.filter (fun ke => negb (isExpired now (snd ke))) (l1Cache s)) s)))
    (with_l2Cache
       (List.filter (fun ke => negb (isExpired now (snd ke)))
          (l2Cache (with_l1Cache
             (List.filter (fun ke => negb (isExpired now (snd ke))) (l1Cache s)) s)))
       (with_l1Cache
          (List.filter (fun ke => negb (isExpired now (snd ke))) (l1Cache s)) s)))
    as (_ & _ & _ & _ & ->).
Qed.

Lemma runMaintenance_l1Cache now s :
  l1Cache (runMaintenance config now s) =
  List.filter (fun ke => negb (isExpired now (snd ke))) (l1Cache s).
Proof.
  unfold runMaintenance. destruct (predictiveCaching config); simpl;
    apply cleanExpiredEntries_l1Cache.
Qed.

(** C2, as amended.  When the entry of [key] in the fast tier is expired and
    the key is in no other tier, [get(key)] returns not found and counts a
    miss, but it removes nothing: the three tiers are as before and the
    expired entry is still in the fast tier.  It is the maintenance sweep that
    removes expired entries: after a sweep no entry of the fast tier is
    expired. *)
Theorem get_expired_entry_misses_and_stays k e startTime now s :
  JsMap.get k (l1Cache s) = Some e ->
  isExpired now e = true ->
  JsMap.get k (l2Cache s) = None ->
  JsMap.get k (l3Index s) = None ->
  get config k startTime now s
  = (recordMiss config (now - startTime) s, Returned None) /\
  l1Cache (fst (get config k startTime now s)) = l1Cache s /\
  l2Cache (fst (get config k startTime now s)) = l2Cache s /\
  l3Index (fst (get config k startTime now s)) = l3Index s /\
  JsMap.get k (l1Cache (fst (get config k startTime now s))) = Some e /\
  totalMisses (stats (fst (get config k startTime now s)))
  = S (totalMisses (stats s)) /\
  Forall (fun ke => isExpired now (snd ke) = false)
         (l1Cache (runMaintenance config now
                     (fst (get config k startTime now s)))).
Proof.
  intros H1 Hexp H2 H3.
  assert (Hget : get config k startTime now s
                 = (recordMiss config (now - startTime) s, Returned None)).
  { unfold get. rewrite H1. simpl. rewrite Hexp.
    unfold get_l2. rewrite H2. simpl.
    unfold get_l3. rewrite H3. simpl.
    destruct (enableDiskCache config); reflexivity. }
  rewrite Hget. simpl.
  repeat split; try assumption.
  rewrite runMaintenance_l1Cache. simpl.
  rewrite List.Forall_forall. intros ke Hin.
  apply filter_In in Hin as [_ Hin]. now apply negb_true_iff in Hin.
Qed.

(** *** Predictive scores *)

Lemma decay_Some (q0 q : Q) :
  decay q0 = Some q <-> (1 < q0)%Q /\ q = (q0 * (9 # 10))%Q.
Proof.
  unfold decay. destruct (Qle_bool q0 1) eqn:E; simpl.
  - apply Qle_bool_iff in E. split; [discriminate|].
    intros [Hlt _]. exfalso. apply (Qlt_not_le _ _ Hlt E).
  - split.
    + intros Hq. inversion Hq. split; [|reflexivity].
      apply Qnot_le_lt. intros Hle. apply Qle_bool_iff in Hle. congruence.
    + intros [_ ->]. reflexivity.
Qed.

Lemma decay_None (q0 : Q) : decay q0 = None <-> (q0 <= 1)%Q.
Proof.
  unfold decay. destruct (Qle_bool q0 1) eqn:E; simpl.
  - apply Qle_bool_iff in E. tauto.
  - split; [discriminate|]. intros Hle. apply Qle_bool_iff in Hle. congruence.
Qed.

(** C9, as amended.  With predictive caching enabled a maintenance run
    removes every score that is at most 1 when the run starts and multiplies
    every other score by 0.9; the scores it keeps are the former scores above
    1 times 0.9, so each of them is above 0.9 (and may be at most 1). *)
Theorem maintenance_decays_scores now s (pattern : string) :
  predictiveCaching config = true ->
  predictiveCache (runMaintenance config now s) !! pattern
  = predictiveCache s !! pattern ≫= decay /\
  (forall q0, predictiveCache s !! pattern = Some q0 -> (q0 <= 1)%Q ->
              predictiveCache (runMaintenance config now s) !! pattern = None) /\
  (forall q0, predictiveCache s !! pattern = Some q0 -> (1 < q0)%Q ->
              predictiveCache (runMaintenance config now s) !! pattern
              = Some (q0 * (9 # 10))%Q) /\
  (forall q, predictiveCache (runMaintenance config now s) !! pattern = Some q ->
             (9 # 10 < q)%Q /\
             exists q0, predictiveCache s !! pattern = Some q0 /\
                        (1 < q0)%Q /\ q = (q0 * (9 # 10))%Q).
Proof.
  intros Hon.
  assert (Hlook : predictiveCache (runMaintenance config now s) !! pattern
                  = predictiveCache s !! pattern ≫= decay).
  { unfold runMaintenance. rewrite Hon. unfold updatePredictiveScores. simpl.
    rewrite lookup_omap. now rewrite cleanExpiredEntries_predictiveCache. }
  rewrite Hlook. split; [reflexivity|]. split; [|split].
  - intros q0 -> Hle. simpl. now apply decay_None.
  - intros q0 -> Hlt. simpl. now apply decay_Some.
  - intros q Hq.
    destruct (predictiveCache s !! pattern) as [q0|]; simpl in Hq; [|discriminate].
    apply decay_Some in Hq as [Hlt ->]. split; [|eauto].
    unfold Qlt in *. simpl in *. lia.
Qed.
End Maintenance.

Section Clear.
Context {T : Type}.
Variable config : CacheConfig.

Implicit Types (s : CacheManager T).

(** What [clear] does to a cache whose disk index is empty when the disk
    tier is disabled. *)
Lemma clear_effect s :
  (enableDiskCache config = false -> l3Index s = []) ->
  getSizes (clear config s) = (0, 0, 0) /\
  counters (getStats (clear config s)) = zero_counters /\
  hitRate (getStats (clear config s)) = 0%Q /\
  avgAccessTime (getStats (clear config s)) = avgAccessTime (getStats s) /\
  avgCompressionRatio (getStats (clear config s))
  = avgCompressionRatio (getStats s) /\
  clear config (clear config s) = clear config s.
Proof.
  intros Hidx. unfold clear, getSizes, getStats.
  destruct (enableDiskCache config); simpl.
  - repeat split.
  - rewrite (Hidx eq_refl). repeat split.
Qed.
End Clear.

Section Ttl.
Context {T : Type} `{Runtime T}.
Variable options : PartialConfig.

Abbreviation Cache := (CacheManager T).
Abbreviation Entry := (CacheEntry T).
Implicit Types (s : Cache) (e : Entry) (k : string) (n : nat).

(** A falsy number is [0] or [NaN]. *)
Definition falsy_number (x : JsNumber) : Prop :=
  x = NaN \/ exists q, x = Num q /\ (q == 0)%Q.

Lemma truthy_number_false x : truthy_number x = false <-> falsy_number x.
Proof.
  unfold falsy_number. destruct x as [q| | |]; simpl.
  - rewrite negb_false_iff, Qeq_bool_iff. split.
    + intros Hq. right. now exists q.
    + intros [Hn | (q' & Hq' & H0)]; [discriminate|]. now inversion Hq'; subst.
  - split; [discriminate|]. intros [Hn | (q & Hq & _)]; discriminate.
  - split; [discriminate|]. intros [Hn | (q & Hq & _)]; discriminate.
  - split; [now left | reflexivity].
Qed.

Lemma truthy_number_true x : truthy_number x = true <-> ~ falsy_number x.
Proof.
  rewrite <- truthy_number_false. destruct (truthy_number x).
  - split; [discriminate | reflexivity].
  - split; [discriminate | intros Hf; now exfalso].
Qed.

Lemma or_number_truthy (x : option JsNumber) (d : JsNumber) :
  truthy_number d = true -> truthy_number (or_number x d) = true.
Proof.
  intros Hd. unfold or_number. destruct x as [n|]; [|assumption].
  destruct (truthy_number n) eqn:E; assumption.
Qed.

(** The default TTL the constructor configures is never falsy. *)
Lemma constructor_defaultTtl_truthy :
  truthy_number (defaultTtl (constructor_config options)) = true.
Proof. unfold constructor_config. simpl. now apply or_number_truthy. Qed.

(** [elapsed > n] for a truthy [n]. *)
Lemma gt_number_iff (elapsed : Z) (x : JsNumber) :
  gt_number elapsed x = true <->
  match x with
  | Num q => (q < inject_Z elapsed)%Q
  | NegInf => True
  | PosInf | NaN => False
  end.
Proof.
  destruct x as [q| | |]; simpl; try (split; [discriminate | contradiction]);
    [|tauto].
  rewrite negb_true_iff. split.
  - intros Hle. apply Qnot_le_lt. intros Hq.
    apply Qle_bool_iff in Hq. congruence.
  - intros Hlt. destruct (Qle_bool (inject_Z elapsed) q) eqn:E; [|reflexivity].
    apply Qle_bool_iff in E. exfalso. now apply (Qlt_not_le _ _ Hlt).
Qed.

Lemma enforceL1Size_loop_l1_get config n s k :
  JsMap.get k (l1Cache (enforceL1Size_loop config n s)) = None \/
  JsMap.get k (l1Cache (enforceL1Size_loop config n s)) = JsMap.get k (l1Cache s).
Proof.
  apply (enforceL1Size_loop_ind config
           (fun s' => JsMap.get k (l1Cache s') = None \/
                      JsMap.get k (l1Cache s') = JsMap.get k (l1Cache s)));
    [|now right].
  intros s' k' victim Hs' _ _ _. rewrite l1_evict_l1Cache.
  destruct (JsMapFacts.get_delete_cases k k' (l1Cache s')) as [Hd|Hd];
    rewrite Hd; auto.
Qed.

(** What [set] leaves under its key in the fast tier is the entry it made. *)
Lemma set_l1_get config k v prio ttl_arg now s e :
  JsMap.get k (l1Cache (set config k v prio ttl_arg now s)) = Some e ->
  e = set_entry config k v prio ttl_arg now.
Proof.
  rewrite set_eq. cbv zeta.
  assert (Hl : forall e,
             JsMap.get k (l1Cache (enforceL1Size config
                            (set_insert config k v prio ttl_arg now s))) = Some e ->
             e = set_entry config k v prio ttl_arg now).
  { intros e0 He0. unfold enforceL1Size in He0.
    destruct (enforceL1Size_loop_l1_get config
                (JsMap.size (l1Cache (set_insert config k v prio ttl_arg now s)))
                (set_insert config k v prio ttl_arg now s) k) as [Hn|Hs];
      [congruence|].
    rewrite Hs, set_insert_l1Cache, JsMapFacts.get_set_eq in He0. congruence. }
  destruct (predictiveCaching config); apply Hl.
Qed.

Lemma ttl_demoted_entry config e : ttl (demoted_entry config e) = ttl e.
Proof.
  unfold demoted_entry. destruct (compresses config e); [|reflexivity].
  destruct (payload e); reflexivity.
Qed.

Lemma created_demoted_entry config e :
  created (demoted_entry config e) = created e.
Proof.
  unfold demoted_entry. destruct (compresses config e); [|reflexivity].
  destruct (payload e); reflexivity.
Qed.

(** The entry a [set] call stores, in the fast tier or demoted at once to
    the compressed tier, has the [ttl] and the [created] of the entry
    [createEntry] made. *)
Lemma stored_entry_ttl config k v prio ttl_arg now s e :
  keys_agree (l1Cache s) ->
  JsMap.get k (l1Cache (set config k v prio ttl_arg now s)) = Some e \/
  (JsMap.get k (l1Cache (set config k v prio ttl_arg now s)) = None /\
   JsMap.get k (l2Cache (set config k v prio ttl_arg now s)) = Some e) ->
  ttl e = Some (or_number ttl_arg (defaultTtl config)) /\ created e = now.
Proof.
  intros Hagree Hwhere.
  pose proof (set_tracked config k v prio ttl_arg now s Hagree) as Htr.
  assert (Httl0 : ttl (set_entry config k v prio ttl_arg now)
                 = Some (or_number ttl_arg (defaultTtl config))).
  { unfold set_entry. destruct (policy config); reflexivity. }
  assert (Hcr0 : created (set_entry config k v prio ttl_arg now) = now).
  { unfold set_entry. destruct (policy config); reflexivity. }
  destruct Hwhere as [H1 | [H1 H2]].
  - apply set_l1_get in H1. subst e. auto.
  - destruct Htr as [Ht | [_ [Ht | Ht]]]; try congruence.
    rewrite Ht in H2. inversion H2; subst e.
    now rewrite ttl_demoted_entry, created_demoted_entry.
Qed.
End Ttl.

(** ** Caches reached from a new cache *)

Section Reachable.
Context {T : Type} `{Runtime T}.
Variable config : CacheConfig.

Abbreviation Cache := (CacheManager T).
Abbreviation Entry := (CacheEntry T).
Implicit Types (s : Cache) (e victim : Entry) (k : string) (n : nat).

(** With the disk tier disabled nothing is ever registered in the index. *)
Definition index_off s : Prop :=
  enableDiskCache config = false -> l3Index s = [].

(** What every operation keeps: the entries of the fast tier are stored
    under their own keys, and the disk index is empty when the disk tier is
    disabled. *)
Definition well_formed s : Prop :=
  keys_agree (l1Cache s) /\ index_off s.

Lemma enforceL2Size_loop_index_off n s :
  index_off s -> index_off (enforceL2Size_loop config n s).
Proof.
  apply (enforceL2Size_loop_ind config index_off).
  intros s' k victim Hs' _ _ _ Hoff. unfold l2_evict. rewrite Hoff. simpl. auto.
Qed.

Lemma demoteToL2_index_off e s :
  index_off s -> index_off (demoteToL2 config e s).
Proof.
  intros Hs. rewrite demoteToL2_eq. unfold enforceL2Size.
  apply enforceL2Size_loop_index_off. intros Hoff. simpl.
  destruct (demote_stats_frame config e s) as (_ & _ & -> & _). auto.
Qed.

Lemma enforceL1Size_loop_index_off n s :
  index_off s -> index_off (enforceL1Size_loop config n s).
Proof.
  apply (enforceL1Size_loop_ind config index_off).
  intros s' k victim Hi _ _ _. unfold l1_evict.
  pose proof (demoteToL2_index_off victim
                (with_l1Cache (JsMap.delete k (l1Cache s')) s') Hi) as Hd.
  exact Hd.
Qed.

Lemma recordHit_at_index_off w h s :
  index_off s -> index_off (recordHit_at config w h s).
Proof. intros Hi. unfold recordHit_at. destruct w; exact Hi. Qed.

Lemma enforceL2Size_first_index_off w h s :
  index_off s -> index_off (enforceL2Size_first config w h s).
Proof.
  intros Hi Hoff. unfold enforceL2Size_first. rewrite Hoff.
  apply recordHit_at_index_off; [|exact Hoff].
  unfold enforceL2Size. now apply enforceL2Size_loop_index_off.
Qed.

Lemma demoteToL2_first_index_off promoted k h victim s :
  index_off s -> index_off (demoteToL2_first config promoted k h victim s).
Proof.
  intros Hi. unfold demoteToL2_first.
  destruct (enableCompression config && _).
  - destruct promoted; apply demoteToL2_index_off;
      [exact Hi | now apply recordHit_at_index_off].
  - apply enforceL2Size_first_index_off. exact Hi.
Qed.

Lemma enforceL1Size_first_index_off k h s :
  index_off s -> index_off (enforceL1Size_first config k h s).
Proof.
  intros Hi. unfold enforceL1Size_first.
  destruct (maxL1Size config <? _); [|now apply recordHit_at_index_off].
  destruct (usable_victim _) as [k'|]; [|now apply recordHit_at_index_off].
  destruct (JsMap.get k' (l1Cache s)) as [victim|];
    [|now apply recordHit_at_index_off].
  unfold enforceL1Size. apply enforceL1Size_loop_index_off.
  pose proof (demoteToL2_first_index_off (String.eqb k' k) k h victim
                (with_l1Cache (JsMap.delete k' (l1Cache s)) s) Hi) as Hd.
  exact Hd.
Qed.

Lemma promoteToL1_index_off h e s :
  index_off s -> index_off (promoteToL1 config h e s).
Proof.
  intros Hi. unfold promoteToL1.
  destruct (level e); try (apply enforceL1Size_first_index_off; exact Hi).
  destruct (truthy_path _) as [p|];
    [|apply enforceL1Size_first_index_off; exact Hi].
  unfold enforceL1Size. apply enforceL1Size_loop_index_off.
  intros Hoff. simpl. now rewrite (Hi Hoff).
Qed.

Lemma loadFromDisk_index_off p now s :
  index_off s -> index_off (fst (loadFromDisk p now s)).
Proof.
  intros Hs. unfold loadFromDisk. repeat case_match; simpl; exact Hs.
Qed.

Lemma get_index_off k startTime now s :
  index_off s -> index_off (fst (get config k startTime now s)).
Proof.
  intros Hi.
  apply (get_paths config (fun r => index_off (fst r))); simpl; intros;
    try exact Hi; try (apply promoteToL1_index_off; exact Hi).
  - apply promoteToL1_index_off.
    match goal with Hl : loadFromDisk _ _ _ = _ |- _ =>
      pose proof (loadFromDisk_index_off p now s Hi) as Hl'; now rewrite Hl in Hl'
    end.
  - match goal with Hl : loadFromDisk _ _ _ = _ |- _ =>
      pose proof (loadFromDisk_index_off p now s Hi) as Hl'; now rewrite Hl in Hl'
    end.
Qed.

Lemma set_index_off k v prio ttl_arg now s :
  index_off s -> index_off (set config k v prio ttl_arg now s).
Proof.
  intros Hi. rewrite set_eq. cbv zeta.
  assert (Hl : index_off
                 (enforceL1Size config (set_insert config k v prio ttl_arg now s)))
    by now apply enforceL1Size_loop_index_off.
  destruct (predictiveCaching config); exact Hl.
Qed.

Lemma delete_index_off k s : index_off s -> index_off (fst (delete k s)).
Proof.
  intros Hi Hoff. unfold delete. simpl. rewrite (Hi Hoff). simpl.
  exact (Hi Hoff).
Qed.

Lemma clear_index_off s : index_off s -> index_off (clear config s).
Proof. intros Hi Hoff. unfold clear. rewrite Hoff. simpl. exact (Hi Hoff). Qed.

Lemma runMaintenance_index_off now s :
  index_off s -> index_off (runMaintenance config now s).
Proof.
  intros Hi Hoff. specialize (Hi Hoff).
  assert (Hc : l3Index (cleanExpiredEntries now s) = []).
  { unfold cleanExpiredEntries. simpl. rewrite Hi. simpl. exact Hi. }
  unfold runMaintenance. destruct (predictiveCaching config); exact Hc.
Qed.

(** *** Keys of the fast tier *)

(** An entry stored under the key it records. *)
Definition keyed (ke : string * Entry) : Prop := key (snd ke) = fst ke.

Definition any_entry (ke : string * Entry) : Prop := True.

(** The keys of the fast tier are distinct and are the keys its entries
    record. *)
Definition keyed_tiers s : Prop := tiers_keep keyed any_entry s.

Lemma keyed_hit_entry now k e :
  keyed (k, e) -> keyed (k, hit_entry config now e).
Proof. unfold keyed. simpl. now rewrite key_hit_entry. Qed.

Lemma keyed_onAdd now k e :
  keyed (k, e) -> keyed (k, onAdd (policy config) now e).
Proof. unfold keyed. simpl. now rewrite key_onAdd. Qed.

Lemma enforceL1Size_loop_keyed n s :
  keyed_tiers s -> keyed_tiers (enforceL1Size_loop config n s).
Proof.
  intros Hs.
  apply (enforceL1Size_loop_keep config keyed any_entry); try exact Hs.
  intros. exact I.
Qed.

Lemma promoteToL1_keyed h e s :
  keyed_tiers s -> keyed_tiers (promoteToL1 config h e s).
Proof.
  intros Hs.
  apply (promoteToL1_keep config keyed any_entry); try exact Hs.
  - apply keyed_hit_entry.
  - intros. exact I.
  - apply keyed_onAdd.
  - intros. exact I.
  - reflexivity.
Qed.

Lemma any_entry_all (m : JsMap.t Entry) : Forall any_entry m.
Proof. apply List.Forall_forall. intros. exact I. Qed.

Lemma keyed_tiers_same s s' :
  l1Cache s' = l1Cache s -> keyed_tiers s -> keyed_tiers s'.
Proof.
  intros E (Hnd & H1 & _). unfold keyed_tiers, tiers_keep. rewrite E.
  split; [assumption|]. split; [assumption | apply any_entry_all].
Qed.

Lemma get_keyed k startTime now s :
  keyed_tiers s -> keyed_tiers (fst (get config k startTime now s)).
Proof.
  intros Hs.
  apply (get_paths config (fun r => keyed_tiers (fst r))); simpl; intros.
  - destruct Hs as (Hnd & H1 & H2). unfold keyed_tiers, tiers_keep. simpl.
    rewrite JsMapFacts.keys_mutate. split; [assumption|].
    split; [|assumption]. apply JsMapFacts.Forall_mutate; [|assumption].
    intros e0. apply keyed_hit_entry.
  - now apply promoteToL1_keyed.
  - apply promoteToL1_keyed.
    eapply keyed_tiers_same; [|exact Hs]. reflexivity.
  - exact Hs.
  - apply promoteToL1_keyed.
    eapply keyed_tiers_same; [|exact Hs].
    match goal with Hl : loadFromDisk _ _ _ = _ |- _ =>
      pose proof (loadFromDisk_frame p now s) as Hf; rewrite Hl in Hf
    end.
    simpl in Hf. now destruct Hf as (-> & _).
  - eapply keyed_tiers_same; [|exact Hs]. simpl.
    match goal with Hl : loadFromDisk _ _ _ = _ |- _ =>
      pose proof (loadFromDisk_frame p now s) as Hf; rewrite Hl in Hf
    end.
    simpl in Hf. now destruct Hf as (-> & _).
  - eapply keyed_tiers_same; [|exact Hs]. reflexivity.
Qed.

Lemma set_keyed k v prio ttl_arg now s :
  keyed_tiers s -> keyed_tiers (set config k v prio ttl_arg now s).
Proof.
  intros (Hnd & H1 & H2). rewrite set_eq. cbv zeta.
  assert (Hl : keyed_tiers
                 (enforceL1Size config (set_insert config k v prio ttl_arg now s))).
  { apply enforceL1Size_loop_keyed. unfold keyed_tiers, tiers_keep.
    rewrite set_insert_l1Cache.
    split; [now apply JsMapFacts.NoDup_keys_set|].
    split; [|exact H2].
    apply JsMapFacts.Forall_set; [|exact H1].
    unfold keyed, set_entry. simpl. now rewrite key_onAdd. }
  destruct (predictiveCaching config); exact Hl.
Qed.

Lemma delete_keyed k s : keyed_tiers s -> keyed_tiers (fst (delete k s)).
Proof.
  intros (Hnd & H1 & H2).
  assert (Hd : keyed_tiers
                 (with_l2Cache (JsMap.delete k (l2Cache s))
                    (with_l1Cache (JsMap.delete k (l1Cache s)) s))).
  { split; [now apply JsMapFacts.NoDup_keys_delete|].
    split; [now apply JsMapFacts.Forall_delete | apply any_entry_all]. }
  unfold delete. simpl.
  destruct (truthy_path (JsMap.get k (l3Index s))) as [p|]; [|exact Hd].
  destruct (fs_unlink p (disk s)); exact Hd.
Qed.

Lemma clear_keyed s : keyed_tiers (clear config s).
Proof.
  unfold clear, keyed_tiers, tiers_keep.
  destruct (enableDiskCache config); simpl;
    (split; [constructor|]; split; constructor).
Qed.

Lemma runMaintenance_keyed now s :
  keyed_tiers s -> keyed_tiers (runMaintenance config now s).
Proof.
  intros (Hnd & H1 & H2). unfold keyed_tiers, tiers_keep.
  rewrite runMaintenance_l1Cache.
  split; [|split; [|apply any_entry_all]].
  - unfold JsMap.keys in *. clear H1.
    induction (l1Cache s) as [|[k0 e0] m IH]; simpl; [constructor|].
    apply NoDup_cons in Hnd as [Hk Hnd].
    destruct (negb (isExpired now e0)); simpl; [|auto].
    apply NoDup_cons. split; [|auto].
    intros Hin. apply Hk. apply list_elem_of_In. apply list_elem_of_In in Hin.
    apply in_map_iff in Hin as (kv & Hkv & Hin).
    apply filter_In in Hin as [Hin _]. apply in_map_iff. eauto.
  - rewrite List.Forall_forall in *. intros ke Hin.
    apply filter_In in Hin as [Hin _]. auto.
Qed.

Lemma step_keyed op s : keyed_tiers s -> keyed_tiers (step config s op).
Proof.
  destruct op; simpl.
  - apply get_keyed.
  - apply set_keyed.
  - apply delete_keyed.
  - intros _. apply clear_keyed.
  - apply runMaintenance_keyed.
Qed.

Lemma run_keyed (fs : FileSystem) (ops : list (Op T)) :
  keyed_tiers (run config ops (new_cache fs)).
Proof.
  assert (Hgen : forall s, keyed_tiers s -> keyed_tiers (run config ops s)).
  { unfold run. induction ops as [|op ops' IH]; intros s Hs; simpl; [exact Hs|].
    apply IH. now apply step_keyed. }
  apply Hgen. split; [constructor|]. split; constructor.
Qed.

Lemma step_index_off op s : index_off s -> index_off (step config s op).
Proof.
  destruct op; simpl.
  - apply get_index_off.
  - apply set_index_off.
  - apply delete_index_off.
  - apply clear_index_off.
  - apply runMaintenance_index_off.
Qed.

Lemma run_well_formed (fs : FileSystem) (ops : list (Op T)) :
  well_formed (run config ops (new_cache fs)).
Proof.
  split.
  - now destruct (run_keyed fs ops) as (_ & H1 & _).
  - assert (Hgen : forall s, index_off s -> index_off (run config ops s)).
    { unfold run. induction ops as [|op ops' IH]; intros s Hs; simpl; [exact Hs|].
      apply IH. now apply step_index_off. }
    apply Hgen. intros _. reflexivity.
Qed.

(** C6, as amended.  On a cache reached from a new cache by any sequence of
    operations, [clear] empties the three tiers and resets the ten counters,
    hence the hit rate, to zero, and a second [clear] changes nothing more.
    It does not touch the two rolling samples: the [avgAccessTime] and the
    [avgCompressionRatio] that [getStats] derives from them are the same
    after [clear] as before. *)
Theorem clear_resets_counters_keeps_samples
        (fs : FileSystem) (ops : list (Op T)) :
  getSizes (clear config (run config ops (new_cache fs))) = (0, 0, 0) /\
  counters (getStats (clear config (run config ops (new_cache fs))))
  = zero_counters /\
  hitRate (getStats (clear config (run config ops (new_cache fs)))) = 0%Q /\
  avgAccessTime (getStats (clear config (run config ops (new_cache fs))))
  = avgAccessTime (getStats (run config ops (new_cache fs))) /\
  avgCompressionRatio (getStats (clear config (run config ops (new_cache fs))))
  = avgCompressionRatio (getStats (run config ops (new_cache fs))) /\
  clear config (clear config (run config ops (new_cache fs)))
  = clear config (run config ops (new_cache fs)).
Proof.
  apply clear_effect. now destruct (run_well_formed fs ops) as [_ Hi].
Qed.
End Reachable.

Section ReachableTtl.
Context {T : Type} `{Runtime T}.
Variable options : PartialConfig.

End ReachableTtl.

(** * The claims on concrete caches *)

Import Demo.

Local Open Scope Z_scope.

(** The empty cache over the empty disk. *)
Definition fresh : CacheManager string := new_cache empty_disk.

(** ** Residency across tiers *)

(** Fast tier of one entry, roomy lower tiers, disk tier on. *)
Definition one_slot : CacheConfig := small_config 1 5 5 true.

(** [set(a)], [set(b)] (which demotes [a]), [set(a)] again. *)
Definition set_a_b_a : CacheManager string :=
  set one_slot "a" "v3" NORMAL None 3
    (set one_slot "b" "v2" NORMAL None 2
       (set one_slot "a" "v1" NORMAL None 1 fresh)).

(** One entry per memory tier, disk tier on. *)
Definition one_each : CacheConfig := small_config 1 1 5 true.

(** [set(a)], [set(b)], [set(c)]: [a] ends on the disk, [b] in the compressed
    tier, [c] in the fast tier. *)
Definition a_on_disk : CacheManager string :=
  set one_each "c" "vc" NORMAL None 3
    (set one_each "b" "vb" NORMAL None 2
       (set one_each "a" "va" NORMAL None 1 fresh)).

(** As [set_a_b_a], the second [set(a)] with a TTL of 100 ms. *)
Definition set_a_b_a_short : CacheManager string :=
  set one_slot "a" "v3" NORMAL (Some (Num 100)) 3
    (set one_slot "b" "v2" NORMAL None 2
       (set one_slot "a" "v1" NORMAL None 1 fresh)).

(** C1 (the code departs from the claim).  With a fast tier of capacity 1,
    after [set(a)], [set(b)], [set(a)] the key [a] is in the fast tier with
    the new value and still in the compressed tier with the old one: [set]
    does not remove the copy an earlier demotion left.  The old copy is
    served once the new one has expired.  Likewise, after a [get(a)] served
    from the disk the key [a] is in the fast tier and still in the disk
    index. *)
Theorem set_leaves_stale_copy_in_lower_tier :
  (value <$> JsMap.get "a" (l1Cache set_a_b_a) = Some (Some "v3") /\
   value <$> JsMap.get "a" (l2Cache set_a_b_a) = Some (Some "v1")) /\
  snd (get one_slot "a" 200 200 set_a_b_a_short) = Returned (Some "v1") /\
  (JsMap.keys (l1Cache a_on_disk) = ["c"] /\
   JsMap.keys (l3Index a_on_disk) = ["a"] /\
   snd (get one_each "a" 4 4 a_on_disk) = Returned (Some "va") /\
   JsMap.has "a" (l1Cache (fst (get one_each "a" 4 4 a_on_disk))) = true /\
   JsMap.has "a" (l3Index (fst (get one_each "a" 4 4 a_on_disk))) = true).
Proof. vm_compute. repeat split. Qed.

(** ** Expired entries *)

(** C2 (counterexample).  An entry set at time 0 with a TTL of 100 ms is
    read at time 150: [get] reports a miss, and the entry is still in the fast
    tier afterwards. *)
Lemma get_keeps_expired_entry :
  snd (get one_slot "k" 150 150 (set one_slot "k" "v" NORMAL (Some (Num 100)) 0 fresh))
  = Returned None /\
  JsMap.has "k"
    (l1Cache (fst (get one_slot "k" 150 150
                       (set one_slot "k" "v" NORMAL (Some (Num 100)) 0 fresh))))
  = true.
Proof. vm_compute. split; reflexivity. Qed.

Lemma get_expired_entry_misses_and_stays_witness :
  snd (get one_slot "k" 150 150 (set one_slot "k" "v" NORMAL (Some (Num 100)) 0 fresh))
  = Returned None /\
  l1Cache (fst (get one_slot "k" 150 150
                    (set one_slot "k" "v" NORMAL (Some (Num 100)) 0 fresh)))
  = l1Cache (set one_slot "k" "v" NORMAL (Some (Num 100)) 0 fresh).
Proof.
  destruct (get_expired_entry_misses_and_stays one_slot "k"
              (createEntry one_slot "k" "v" NORMAL (Some (Num 100)) 0) 150 150
              (set one_slot "k" "v" NORMAL (Some (Num 100)) 0 fresh))
    as (Hget & Hl1 & _); try reflexivity.
  split; [now rewrite Hget | exact Hl1].
Defined.

(** ** Disk failures *)

(** The cache [a_on_disk] after the backing file of [a] has been lost. *)
Definition file_lost : CacheManager string := with_disk empty_disk a_on_disk.

(** The same cache after the backing file of [a] has been corrupted. *)
Definition file_corrupt : CacheManager string :=
  with_disk (mkFs {["cache/a.cache" := FileGarbage]} true) a_on_disk.

(** C3 (the code departs from the claim).  The key [a] is registered in the
    disk index and its backing file is missing, or unreadable as a record:
    [get(a)] returns a miss without raising, but the stale entry of [a] stays
    in the disk index, because [loadFromDisk] swallows the error and the
    clean-up in the [catch] of [get] never runs. *)
Theorem get_keeps_stale_index_entry :
  (snd (get one_each "a" 4 4 file_lost) = Returned None /\
   l3Index (fst (get one_each "a" 4 4 file_lost)) = [("a", "cache/a.cache")]) /\
  (snd (get one_each "a" 4 4 file_corrupt) = Returned None /\
   l3Index (fst (get one_each "a" 4 4 file_corrupt)) = [("a", "cache/a.cache")]).
Proof. vm_compute. repeat split. Qed.

(** ** Capacity *)

(** C4 (counterexample).  Two [set] calls at priority HIGH into a fast tier
    of capacity 1 leave two entries in it. *)
Lemma pinned_entries_exceed_capacity :
  ~ (forall (config : CacheConfig) (calls : list (SetCall string)),
        within_capacity config (run_sets config calls fresh)).
Proof.
  intros Hall.
  destruct (Hall one_slot [mkSetCall "a" "v1" HIGH None 1;
                           mkSetCall "b" "v2" HIGH None 2]) as [Hl1 _].
  vm_compute in Hl1. lia.
Qed.

Lemma set_calls_respect_capacity_witness :
  within_capacity one_each
    (run_sets one_each [mkSetCall "a" "va" NORMAL None 1;
                        mkSetCall "b" "vb" LOW None 2;
                        mkSetCall "c" "vc" NORMAL None 3] fresh).
Proof.
  apply (set_calls_respect_capacity one_each empty_disk
           [mkSetCall "a" "va" NORMAL None 1;
            mkSetCall "b" "vb" LOW None 2;
            mkSetCall "c" "vc" NORMAL None 3]).
  - repeat (apply List.Forall_cons; [discriminate|]). apply List.Forall_nil.
  - repeat (apply List.Forall_cons; [unfold evictable_priority; simpl; auto|]).
    apply List.Forall_nil.
Defined.

(** ** Statistics *)

(** Fast tier of one entry, compression of every value longer than one
    byte. *)
Definition compressing : CacheConfig :=
  mkConfig 1 5 5 "cache" 1 LRU (Num 3600000) true true 300000 1000 false.

(** C6 (counterexample).  A [get] that takes one millisecond and misses
    leaves the latency sample [[1]]; after [clear], and after a second
    [clear], [getStats] still reports an average access time of 1.  In the
    same way a demotion that compresses leaves a ratio in the other sample,
    and [getStats] reports a positive average compression ratio after
    [clear]. *)
Lemma clear_keeps_average_access_time :
  (~ (avgAccessTime (getStats (clear one_slot (fst (get one_slot "a" 0 1 fresh))))
      == 0)%Q /\
   ~ (avgAccessTime
        (getStats (clear one_slot
                     (clear one_slot (fst (get one_slot "a" 0 1 fresh)))))
      == 0)%Q) /\
  ~ (avgCompressionRatio
       (getStats (clear compressing
                    (set compressing "b" "bbbb" NORMAL None 2
                       (set compressing "a" "aaaa" NORMAL None 1 fresh))))
     == 0)%Q.
Proof. repeat split; vm_compute; discriminate. Qed.

(** Window of one sample, compression of every value longer than one byte. *)
Definition window_one : CacheConfig :=
  mkConfig 1 5 5 "cache" 1 LRU (Num 3600000) true true 300000 1 false.

(** C7 (counterexample).  With a configured window of 1, two demotions that
    compress leave two compression ratios in the sample. *)
Lemma compression_sample_ignores_window :
  ~ (forall (config : CacheConfig) (ops : list (Op string)),
        (length (compressionRatios (run config ops fresh))
         <= accessPatternWindowSize config)%nat).
Proof.
  intros Hall.
  specialize (Hall window_one [OpSet "a" "aaaa" NORMAL None 1;
                               OpSet "b" "bbbb" NORMAL None 2;
                               OpSet "c" "cccc" NORMAL None 3]).
  vm_compute in Hall. lia.
Qed.

(** ** Predictive scores *)

(** Predictive caching on. *)
Definition predictive : CacheConfig :=
  mkConfig 10 10 10 "cache" 1024 LRU (Num 3600000) true true 300000 1000 true.

(** Two keys of the pattern [user] are set: its score is 2. *)
Definition scored : CacheManager string :=
  set predictive "user:2" "y" NORMAL None 2
    (set predictive "user:1" "x" NORMAL None 1 fresh).

(** C9 (counterexample).  The score 2 is above 1 after six maintenance runs
    (1.062882), so the seventh run keeps it, multiplied by 0.9: a score of
    0.9565938, below 1, is retained after a run. *)
Lemma decayed_score_retained_below_one :
  exists q : Q,
    predictiveCache
      (Nat.iter 7 (runMaintenance predictive 10) scored) !! "user" = Some q /\
    (q <= 1)%Q.
Proof.
  exists (2 * (9 # 10) * (9 # 10) * (9 # 10) * (9 # 10)
            * (9 # 10) * (9 # 10) * (9 # 10))%Q.
  split; [vm_compute; reflexivity | vm_compute; discriminate].
Qed.

Lemma maintenance_decays_scores_witness :
  predictiveCache (runMaintenance predictive 10 scored) !! "user"
  = Some (2 * (9 # 10))%Q.
Proof.
  destruct (maintenance_decays_scores predictive 10 scored "user")
    as (_ & _ & Hkeep & _); [reflexivity|].
  apply (Hkeep 2%Q); [vm_compute; reflexivity | reflexivity].
Defined.

(** ** Default TTL *)

(** No option given to the constructor. *)
Definition no_options : PartialConfig :=
  mkPartial None None None None None None None None None None None None.

(** A default TTL of minus five milliseconds given to the constructor. *)
Definition negative_default : PartialConfig :=
  mkPartial None None None None None None (Some (Num (-5))) None None None None
            None.



(** * Further properties of the cache manager *)

Local Open Scope nat_scope.

(** ** The LFU policy *)

Section LfuVictims.
Context {T : Type}.
Implicit Types (e : CacheEntry T) (entries : JsMap.t (CacheEntry T)).

(** What the scan of [LFUPolicy.selectVictim] holds after a prefix of the
    entries: nothing while every entry seen is pinned, otherwise the first
    of the evictable entries with the fewest [hits]. *)
Definition lfu_best entries (acc : option nat * option string) : Prop :=
  (acc = (None, None) /\ Forall (fun ke => pinned (snd ke)) entries) \/
  (exists i k e,
      acc = (Some (hits e), Some k) /\
      entries !! i = Some (k, e) /\
      evictable e /\
      (forall j k' e', entries !! j = Some (k', e') -> evictable e' ->
                       hits e <= hits e') /\
      (forall j k' e', j < i -> entries !! j = Some (k', e') -> evictable e' ->
                       hits e < hits e')).

Lemma lookup_snoc_last {A} (l : list A) (x y : A) j :
  length l <= j -> (l ++ [x]) !! j = Some y -> y = x.
Proof.
  intros Hj Hl. rewrite lookup_app_r in Hl by lia.
  destruct (j - length l) as [|n]; simpl in Hl; [|discriminate].
  congruence.
Qed.

Lemma lfu_fold_best entries :
  lfu_best entries (fold_left lfu_step entries (None, None)).
Proof.
  induction entries as [|[kx ex] l IH] using rev_ind.
  - left. split; [reflexivity | constructor].
  - rewrite fold_left_app. simpl.
    destruct IH as [[Hacc Hall] | (i & k & e & Hacc & Hi & Hev & Hmin & Hfirst)];
      rewrite Hacc; unfold lfu_step; simpl.
    + destruct (below_HIGH ex) eqn:Hb; simpl.
      * right. exists (length l), kx, ex. split; [reflexivity|].
        split; [apply list_lookup_middle; reflexivity|].
        split; [now apply below_HIGH_true|].
        assert (Hpin : forall j k' e', j < length l ->
                  (l ++ [(kx, ex)]) !! j = Some (k', e') -> evictable e' -> False).
        { intros j k' e' Hj Hl He'. rewrite lookup_app_l in Hl by lia.
          apply list_elem_of_lookup_2, list_elem_of_In in Hl.
          rewrite List.Forall_forall in Hall. apply Hall in Hl.
          now apply pinned_not_evictable in Hl. }
        split.
        -- intros j k' e' Hl He'.
           destruct (Nat.lt_ge_cases j (length l)) as [Hj|Hj].
           ++ exfalso. eauto.
           ++ apply lookup_snoc_last in Hl; [|lia]. inversion Hl; subst. lia.
        -- intros j k' e' Hj Hl He'. exfalso. eauto.
      * left. split; [reflexivity|].
        apply Forall_app. split; [assumption|].
        constructor; [|constructor]. now apply below_HIGH_false.
    + destruct (below_HIGH ex && (hits ex <? hits e)) eqn:Hb.
      * apply andb_true_iff in Hb as [Hb Hlt]. apply Nat.ltb_lt in Hlt.
        right. exists (length l), kx, ex. split; [reflexivity|].
        split; [apply list_lookup_middle; reflexivity|].
        split; [now apply below_HIGH_true|].
        split.
        -- intros j k' e' Hl He'.
           destruct (Nat.lt_ge_cases j (length l)) as [Hj|Hj].
           ++ rewrite lookup_app_l in Hl by lia.
              specialize (Hmin _ _ _ Hl He'). lia.
           ++ apply lookup_snoc_last in Hl; [|lia]. inversion Hl; subst. lia.
        -- intros j k' e' Hj Hl He'.
           rewrite lookup_app_l in Hl by lia.
           specialize (Hmin _ _ _ Hl He'). lia.
      * right. exists i, k, e. split; [reflexivity|].
        assert (Hil : i < length l) by (eapply lookup_lt_Some; eauto).
        split; [rewrite lookup_app_l by lia; assumption|].
        split; [assumption|].
        split.
        -- intros j k' e' Hl He'.
           destruct (Nat.lt_ge_cases j (length l)) as [Hj|Hj].
           ++ rewrite lookup_app_l in Hl by lia. eauto.
           ++ apply lookup_snoc_last in Hl; [|lia]. inversion Hl; subst.
              apply below_HIGH_true in He'. rewrite He' in Hb. simpl in Hb.
              apply Nat.ltb_ge in Hb. lia.
        -- intros j k' e' Hj Hl He'.
           rewrite lookup_app_l in Hl by lia. eauto.
Qed.

(** X1.  [LFUPolicy.selectVictim] returns none exactly when every entry of
    the tier is pinned (HIGH or CRITICAL); otherwise it returns the key of an
    entry below HIGH whose hit count is the lowest among the entries below
    HIGH, the first such entry in the map's iteration order. *)
Theorem lfu_selectVictim_fewest_hits entries :
  (lfu_selectVictim entries = None <->
   Forall (fun ke => pinned (snd ke)) entries) /\
  (forall k, lfu_selectVictim entries = Some k ->
     exists i e,
       entries !! i = Some (k, e) /\
       evictable e /\
       (forall j k' e', entries !! j = Some (k', e') -> evictable e' ->
                        hits e <= hits e') /\
       (forall j k' e', j < i -> entries !! j = Some (k', e') -> evictable e' ->
                        hits e < hits e')).
Proof.
  unfold lfu_selectVictim.
  pose proof (lfu_fold_best entries) as
    [[Hacc Hall] | (i & k & e & Hacc & Hi & Hev & Hmin & Hfirst)];
    rewrite Hacc; simpl.
  - split; [tauto|]. intros k Hk. discriminate.
  - split.
    + split; [discriminate|]. intros Hall. exfalso.
      apply list_elem_of_lookup_2, list_elem_of_In in Hi.
      rewrite List.Forall_forall in Hall. apply Hall in Hi.
      now apply pinned_not_evictable in Hi.
    + intros k0 Hk0. inversion Hk0; subst k0. exists i, e. auto.
Qed.
End LfuVictims.

(** ** Lookups, deletions and promotions *)

Section Lookups.
Context {T : Type} `{Runtime T}.
Variable config : CacheConfig.

Abbreviation Cache := (CacheManager T).
Abbreviation Entry := (CacheEntry T).
Implicit Types (s : Cache) (e : Entry) (k : string) (n : nat).

Lemma JsMap_delete_absent {V} k (m : JsMap.t V) :
  JsMap.get k m = None -> JsMap.delete k m = m.
Proof.
  induction m as [|[k' v'] m IH]; simpl; [reflexivity|].
  destruct (String.eqb k k'); [discriminate|]. intros Hg. now rewrite IH.
Qed.

Lemma JsMap_size_set {V} k (v1 v2 : V) (m : JsMap.t V) :
  JsMap.size (JsMap.set k v1 m) = JsMap.size (JsMap.set k v2 m).
Proof.
  unfold JsMap.size.
  induction m as [|[k' v'] m IH]; simpl; [reflexivity|].
  destruct (String.eqb k k'); simpl; lia.
Qed.

Lemma with_same_tiers s :
  with_l2Cache (l2Cache s) (with_l1Cache (l1Cache s) s) = s.
Proof. destruct s. reflexivity. Qed.

(** A key held by no tier is not found. *)
Lemma get_absent k startTime now s :
  live now (JsMap.get k (l1Cache s)) = None ->
  live now (JsMap.get k (l2Cache s)) = None ->
  enableDiskCache config = false \/ truthy_path (JsMap.get k (l3Index s)) = None ->
  get config k startTime now s
  = (recordMiss config (now - startTime) s, Returned None).
Proof.
  intros H1 H2 H3. unfold get. rewrite H1. unfold get_l2. rewrite H2.
  unfold get_l3. destruct H3 as [H3|H3]; rewrite H3; [reflexivity|].
  destruct (enableDiskCache config); reflexivity.
Qed.

(** X2.  [delete] of a key that no tier holds returns [false] and leaves
    the cache, the statistics and the disk exactly as they were. *)
Theorem delete_absent_key_is_noop k s :
  JsMap.get k (l1Cache s) = None ->
  JsMap.get k (l2Cache s) = None ->
  JsMap.get k (l3Index s) = None ->
  delete k s = (s, false).
Proof.
  intros H1 H2 H3. unfold delete. simpl. rewrite H3. simpl.
  unfold JsMap.has. rewrite H1, H2. simpl.
  rewrite (JsMap_delete_absent _ _ H1), (JsMap_delete_absent _ _ H2).
  now rewrite with_same_tiers.
Qed.

(** X3.  After [delete(key)] the key is in neither memory tier, whatever
    the disk does, and every other key is where it was in all three tiers.
    The key leaves the disk index exactly when its backing file could be
    unlinked; when the unlink fails the index entry stays.  The result is
    [true] when the key was in a memory tier or its file was unlinked. *)
Theorem delete_removes_key k s :
  JsMap.get k (l1Cache (fst (delete k s))) = None /\
  JsMap.get k (l2Cache (fst (delete k s))) = None /\
  (forall k', k' <> k ->
     JsMap.get k' (l1Cache (fst (delete k s))) = JsMap.get k' (l1Cache s) /\
     JsMap.get k' (l2Cache (fst (delete k s))) = JsMap.get k' (l2Cache s) /\
     JsMap.get k' (l3Index (fst (delete k s))) = JsMap.get k' (l3Index s)) /\
  (forall p, truthy_path (JsMap.get k (l3Index s)) = Some p ->
     (is_Some (fs_unlink p (disk s)) ->
      JsMap.get k (l3Index (fst (delete k s))) = None /\
      snd (delete k s) = true) /\
     (fs_unlink p (disk s) = None ->
      l3Index (fst (delete k s)) = l3Index s /\
      disk (fst (delete k s)) = disk s /\
      snd (delete k s) = JsMap.has k (l1Cache s) || JsMap.has k (l2Cache s))) /\
  (truthy_path (JsMap.get k (l3Index s)) = None ->
     l3Index (fst (delete k s)) = l3Index s /\
     disk (fst (delete k s)) = disk s /\
     snd (delete k s) = JsMap.has k (l1Cache s) || JsMap.has k (l2Cache s)).
Proof.
  unfold delete. simpl.
  destruct (truthy_path (JsMap.get k (l3Index s))) as [p|] eqn:Ep.
  - destruct (fs_unlink p (disk s)) as [fs'|] eqn:Eu; simpl.
    + split; [apply JsMapFacts.get_delete_eq|].
      split; [apply JsMapFacts.get_delete_eq|].
      split.
      { intros k' Hne. rewrite !JsMapFacts.get_delete_ne by assumption. auto. }
      split; [|discriminate].
      intros p' Hp'. inversion Hp'; subst p'. rewrite Eu. split.
      * intros _. split; [apply JsMapFacts.get_delete_eq | reflexivity].
      * discriminate.
    + split; [apply JsMapFacts.get_delete_eq|].
      split; [apply JsMapFacts.get_delete_eq|].
      split.
      { intros k' Hne. rewrite !JsMapFacts.get_delete_ne by assumption. auto. }
      split; [|discriminate].
      intros p' Hp'. inversion Hp'; subst p'. rewrite Eu. split.
      * intros [x Hx]. discriminate.
      * auto.
  - simpl. split; [apply JsMapFacts.get_delete_eq|].
    split; [apply JsMapFacts.get_delete_eq|].
    split.
    { intros k' Hne. rewrite !JsMapFacts.get_delete_ne by assumption. auto. }
    split; [discriminate | auto].
Qed.

(** X4.  A [get] that follows [delete(key)] does not find the key, provided
    the key had no usable path in the disk index or its backing file was
    there to unlink. *)
Theorem delete_then_get_misses k startTime now s :
  truthy_path (JsMap.get k (l3Index s)) = None \/
  (exists p, truthy_path (JsMap.get k (l3Index s)) = Some p /\
             is_Some (files (disk s) !! p)) ->
  snd (get config k startTime now (fst (delete k s))) = Returned None.
Proof.
  intros Hidx.
  assert (Hafter : JsMap.get k (l1Cache (fst (delete k s))) = None /\
                   JsMap.get k (l2Cache (fst (delete k s))) = None /\
                   truthy_path (JsMap.get k (l3Index (fst (delete k s)))) = None).
  { unfold delete. simpl.
    destruct Hidx as [Hn | (p & Hp & [c Hc])].
    - rewrite Hn. simpl. rewrite !JsMapFacts.get_delete_eq. auto.
    - rewrite Hp. unfold fs_unlink. rewrite Hc. simpl.
      rewrite !JsMapFacts.get_delete_eq. auto. }
  destruct Hafter as (H1 & H2 & H3).
  rewrite get_absent; [reflexivity | now rewrite H1 | now rewrite H2 | now right].
Qed.

(** X5.  On a cache reached from a new cache by any sequence of operations,
    a [get] that follows [clear] finds nothing, whatever the key. *)
Theorem clear_then_get_misses (fs : FileSystem) (ops : list (Op T))
        k startTime now :
  snd (get config k startTime now (clear config (run config ops (new_cache fs))))
  = Returned None.
Proof.
  destruct (run_well_formed config fs ops) as [_ Hoff].
  rewrite get_absent; [reflexivity | | |].
  - unfold clear. destruct (enableDiskCache config); reflexivity.
  - unfold clear. destruct (enableDiskCache config); reflexivity.
  - unfold clear. destruct (enableDiskCache config) eqn:E.
    + right. reflexivity.
    + left. reflexivity.
Qed.

Lemma enforceL1Size_first_room k h s :
  JsMap.size (l1Cache s) <= maxL1Size config ->
  enforceL1Size_first config k h s = recordHit_at config (InL1 k) h s.
Proof.
  intros Hs. unfold enforceL1Size_first.
  assert (E : (maxL1Size config <? JsMap.size (l1Cache s)) = false)
    by (apply Nat.ltb_ge; lia).
  now rewrite E.
Qed.

(** What the payload of a stored entry decodes to. *)
Definition decodes (p : Payload T) (v : T) : Prop :=
  match p with
  | Raw v' => v' = v
  | Gz b => gunzip b ≫= json_parse = Some v
  end.

(** X7.  A hit in the compressed tier promotes the entry: when the fast
    tier has room for it, [get] returns the decoded value, the key is then in
    the fast tier with that raw value and no longer in the compressed tier,
    and one compressed-tier hit is counted. *)
Theorem get_promotes_from_compressed_tier k e v startTime now s :
  live now (JsMap.get k (l1Cache s)) = None ->
  JsMap.get k (l2Cache s) = Some e ->
  isExpired now e = false ->
  key e = k -> level e = l2 ->
  decodes (payload e) v ->
  JsMap.size (JsMap.set k e (l1Cache s)) <= maxL1Size config ->
  snd (get config k startTime now s) = Returned (Some v) /\
  (value <$> JsMap.get k (l1Cache (fst (get config k startTime now s))))
  = Some (Some v) /\
  JsMap.get k (l2Cache (fst (get config k startTime now s))) = None /\
  l2Hits (stats (fst (get config k startTime now s))) = S (l2Hits (stats s)) /\
  totalHits (stats (fst (get config k startTime now s)))
  = S (totalHits (stats s)).
Proof.
  intros H1 H2 Hlive Hk Hl Hdec Hroom. subst k.
  unfold get. rewrite H1. unfold get_l2. rewrite H2. simpl. rewrite Hlive.
  pose proof (fun e1 e2 => JsMap_size_set (key e) e1 e2 (l1Cache s)) as Hsz.
  destruct (payload e) as [v0|b] eqn:Ep; simpl in Hdec.
  - subst v0. simpl. unfold promoteToL1. rewrite Hl.
    rewrite enforceL1Size_first_room
      by (unfold place_in_l1; simpl; rewrite JsMapFacts.mutate_set;
          erewrite Hsz; exact Hroom).
    unfold recordHit_at, place_in_l1. simpl.
    rewrite JsMapFacts.mutate_set, JsMapFacts.get_mutate_eq,
      JsMapFacts.get_set_eq, JsMapFacts.get_delete_eq. simpl.
    unfold value, hit_entry. rewrite Ep.
    repeat split; destruct (policy config); simpl; now rewrite ?Ep.
  - rewrite Hdec. simpl. unfold promoteToL1. simpl. rewrite Hl.
    rewrite enforceL1Size_first_room
      by (unfold place_in_l1; simpl; rewrite JsMapFacts.mutate_set;
          erewrite Hsz; exact Hroom).
    unfold recordHit_at, place_in_l1. simpl.
    rewrite JsMapFacts.mutate_set, JsMapFacts.get_mutate_eq,
      JsMapFacts.get_set_eq, JsMapFacts.get_delete_eq. simpl.
    unfold hit_entry.
    repeat split; destruct (policy config); reflexivity.
Qed.
End Lookups.

(** ** Hit and miss accounting *)

Section Accounting.
Context {T : Type} `{Runtime T}.
Variable config : CacheConfig.

Abbreviation Cache := (CacheManager T).
Abbreviation Entry := (CacheEntry T).
Implicit Types (s : Cache) (e : Entry) (k : string) (n : nat).

(** The counters [recordHit] and [recordMiss] write. *)
Definition access_counters (c : Counters) : nat * nat * nat * nat * nat :=
  (totalHits c, totalMisses c, l1Hits c, l2Hits c, l3Hits c).

(** The access counters are those of [s]. *)
Definition same_access s s' : Prop :=
  access_counters (stats s') = access_counters (stats s).

Lemma enforceL3Size_loop_access n s :
  same_access s (enforceL3Size_loop config n s).
Proof.
  apply (enforceL3Size_loop_ind config (same_access s)); [|reflexivity].
  intros s' k p rest Hs' _ _. unfold same_access in *. rewrite <- Hs'.
  reflexivity.
Qed.

Lemma demoteToL3_access e s : same_access s (demoteToL3 config e s).
Proof.
  unfold demoteToL3. destruct (fs_writeFile _ _ _); [|reflexivity].
  unfold enforceL3Size, same_access.
  rewrite enforceL3Size_loop_access. reflexivity.
Qed.

Lemma l2_evict_access k e s : same_access s (l2_evict config k e s).
Proof.
  unfold l2_evict, same_access. simpl.
  destruct (enableDiskCache config); [|reflexivity].
  pose proof (demoteToL3_access e
                (with_l2Cache (JsMap.delete k (l2Cache s)) s)) as Hd.
  unfold same_access, access_counters in *. simpl in *.
  inversion Hd. congruence.
Qed.

Lemma enforceL2Size_loop_access n s :
  same_access s (enforceL2Size_loop config n s).
Proof.
  apply (enforceL2Size_loop_ind config (same_access s)); [|reflexivity].
  intros s' k victim Hs' _ _ _. unfold same_access in *. rewrite <- Hs'.
  apply l2_evict_access.
Qed.

Lemma demoteToL2_access e s : same_access s (demoteToL2 config e s).
Proof.
  rewrite demoteToL2_eq. unfold enforceL2Size, same_access.
  rewrite enforceL2Size_loop_access. simpl.
  unfold demote_stats. destruct (compresses config e); [|reflexivity].
  destruct (payload e); reflexivity.
Qed.

Lemma l1_evict_access k e s : same_access s (l1_evict config k e s).
Proof.
  unfold l1_evict, same_access.
  pose proof (demoteToL2_access e
                (with_l1Cache (JsMap.delete k (l1Cache s)) s)) as Hd.
  unfold same_access, access_counters in *. simpl in *.
  inversion Hd. congruence.
Qed.

Lemma enforceL1Size_loop_access n s :
  same_access s (enforceL1Size_loop config n s).
Proof.
  apply (enforceL1Size_loop_ind config (same_access s)); [|reflexivity].
  intros s' k victim Hs' _ _ _. unfold same_access in *. rewrite <- Hs'.
  apply l1_evict_access.
Qed.

Lemma loadFromDisk_access p now s : same_access s (fst (loadFromDisk p now s)).
Proof. unfold loadFromDisk. repeat case_match; reflexivity. Qed.

Lemma set_access k v prio ttl_arg now s :
  same_access s (set config k v prio ttl_arg now s).
Proof.
  rewrite set_eq. cbv zeta.
  assert (Hl : same_access s
                 (enforceL1Size config (set_insert config k v prio ttl_arg now s))).
  { unfold enforceL1Size, same_access. rewrite enforceL1Size_loop_access.
    reflexivity. }
  destruct (predictiveCaching config); exact Hl.
Qed.

Lemma delete_access k s : same_access s (fst (delete k s)).
Proof. unfold delete. repeat case_match; reflexivity. Qed.

Lemma clean_l3_access now (idx : JsMap.t string) s :
  same_access s (fold_left (clean_l3_step now) idx s).
Proof.
  revert s. induction idx as [|kp idx IH]; intros s; simpl; [reflexivity|].
  unfold same_access in *. rewrite IH. unfold clean_l3_step.
  pose proof (loadFromDisk_access (snd kp) now s) as Hl.
  destruct (loadFromDisk (snd kp) now s) as [s1 [r|]]; exact Hl.
Qed.

Lemma runMaintenance_access now s :
  same_access s (runMaintenance config now s).
Proof.
  unfold runMaintenance.
  assert (Hc : same_access s (cleanExpiredEntries now s)).
  { unfold cleanExpiredEntries, same_access. rewrite clean_l3_access.
    reflexivity. }
  destruct (predictiveCaching config); exact Hc.
Qed.

(** What a hit at level [lvl] adds to the access counters. *)
Definition counted_hit (lvl : Level) s s' : Prop :=
  totalHits (stats s') = S (totalHits (stats s)) /\
  totalMisses (stats s') = totalMisses (stats s) /\
  l1Hits (stats s') = (if lvl is l1 then S (l1Hits (stats s)) else l1Hits (stats s)) /\
  l2Hits (stats s') = (if lvl is l2 then S (l2Hits (stats s)) else l2Hits (stats s)) /\
  l3Hits (stats s') = (if lvl is l3 then S (l3Hits (stats s)) else l3Hits (stats s)).

(** What a miss adds to the access counters. *)
Definition counted_miss s s' : Prop :=
  totalHits (stats s') = totalHits (stats s) /\
  totalMisses (stats s') = S (totalMisses (stats s)) /\
  l1Hits (stats s') = l1Hits (stats s) /\
  l2Hits (stats s') = l2Hits (stats s) /\
  l3Hits (stats s') = l3Hits (stats s).

Lemma recordHit_counted lvl t s0 s :
  same_access s0 s -> counted_hit lvl s0 (recordHit_stats config lvl t s).
Proof.
  unfold same_access, access_counters, counted_hit. intros Hs.
  inversion Hs. destruct lvl; simpl; repeat split; congruence.
Qed.

Lemma recordMiss_counted t s0 s :
  same_access s0 s -> counted_miss s0 (recordMiss config t s).
Proof.
  unfold same_access, access_counters, counted_miss. intros Hs.
  inversion Hs. simpl. repeat split; congruence.
Qed.

Lemma counted_hit_same lvl s0 s s' :
  counted_hit lvl s0 s -> same_access s s' -> counted_hit lvl s0 s'.
Proof.
  unfold same_access, access_counters, counted_hit.
  intros (H1 & H2 & H3 & H4 & H5) Hs. inversion Hs. repeat split; congruence.
Qed.

Lemma same_access_trans s1 s2 s3 :
  same_access s1 s2 -> same_access s2 s3 -> same_access s1 s3.
Proof. unfold same_access. congruence. Qed.

Lemma enforceL2Size_access s : same_access s (enforceL2Size config s).
Proof. unfold enforceL2Size. apply enforceL2Size_loop_access. Qed.

Lemma enforceL1Size_access s : same_access s (enforceL1Size config s).
Proof. unfold enforceL1Size. apply enforceL1Size_loop_access. Qed.

(** The pending [recordHit] is counted once, whichever [await] it meets. *)
Lemma recordHit_at_counted w h s0 s :
  same_access s0 s ->
  counted_hit (hit_level h) s0 (recordHit_at config w h s).
Proof.
  intros Hs. unfold recordHit_at. apply recordHit_counted.
  destruct w; exact Hs.
Qed.

Lemma enforceL2Size_first_counted w h s0 s :
  same_access s0 s ->
  counted_hit (hit_level h) s0 (enforceL2Size_first config w h s).
Proof.
  intros Hs. unfold enforceL2Size_first.
  destruct (enableDiskCache config).
  - destruct (maxL2Size config <? _); [|now apply recordHit_at_counted].
    destruct (usable_victim _) as [k|]; [|now apply recordHit_at_counted].
    destruct (JsMap.get k (l2Cache s)) as [victim|];
      [|now apply recordHit_at_counted].
    eapply counted_hit_same; [|apply enforceL2Size_access].
    eapply counted_hit_same;
      [apply (recordHit_at_counted w h s0
                (with_l2Cache (JsMap.delete k (l2Cache s)) s)); exact Hs|].
    eapply same_access_trans; [apply demoteToL3_access|]. reflexivity.
  - apply recordHit_at_counted.
    eapply same_access_trans; [exact Hs | apply enforceL2Size_access].
Qed.

Lemma demoteToL2_first_counted promoted k h victim s0 s :
  same_access s0 s ->
  counted_hit (hit_level h) s0 (demoteToL2_first config promoted k h victim s).
Proof.
  intros Hs. unfold demoteToL2_first.
  destruct (enableCompression config && _).
  - destruct promoted.
    + eapply counted_hit_same; [|apply demoteToL2_access].
      now apply recordHit_counted.
    + eapply counted_hit_same; [|apply demoteToL2_access].
      now apply recordHit_at_counted.
  - now apply enforceL2Size_first_counted.
Qed.

Lemma enforceL1Size_first_counted k h s0 s :
  same_access s0 s ->
  counted_hit (hit_level h) s0 (enforceL1Size_first config k h s).
Proof.
  intros Hs. unfold enforceL1Size_first.
  destruct (maxL1Size config <? _); [|now apply recordHit_at_counted].
  destruct (usable_victim _) as [k'|]; [|now apply recordHit_at_counted].
  destruct (JsMap.get k' (l1Cache s)) as [victim|];
    [|now apply recordHit_at_counted].
  eapply counted_hit_same; [|apply enforceL1Size_access].
  eapply counted_hit_same;
    [apply (demoteToL2_first_counted (String.eqb k' k) k h victim s0
              (with_l1Cache (JsMap.delete k' (l1Cache s)) s)); exact Hs|].
  reflexivity.
Qed.

Lemma promoteToL1_counted h e s0 s :
  same_access s0 s ->
  counted_hit (hit_level h) s0 (promoteToL1 config h e s).
Proof.
  intros Hs. unfold promoteToL1.
  destruct (level e); try (apply enforceL1Size_first_counted; exact Hs).
  destruct (truthy_path _) as [p|];
    [|apply enforceL1Size_first_counted; exact Hs].
  eapply counted_hit_same; [|apply enforceL1Size_access].
  apply (counted_hit_same _ _
           (recordHit_stats config (hit_level h) (hit_accessTime h) s));
    [apply recordHit_counted; exact Hs | reflexivity].
Qed.

(** How [get] changes the access counters. *)
Lemma get_access_counted k startTime now s :
  match snd (get config k startTime now s) with
  | Returned _ =>
      (exists lvl, counted_hit lvl s (fst (get config k startTime now s))) \/
      (counted_miss s (fst (get config k startTime now s)) /\
       snd (get config k startTime now s) = Returned None)
  | Threw => fst (get config k startTime now s) = s
  end.
Proof.
  apply (get_paths config
           (fun r => match snd r with
                     | Returned _ =>
                         (exists lvl, counted_hit lvl s (fst r)) \/
                         (counted_miss s (fst r) /\ snd r = Returned None)
                     | Threw => fst r = s
                     end)); simpl; intros.
  - left. exists l1. apply recordHit_counted. reflexivity.
  - left. exists l2.
    apply (promoteToL1_counted (mkHit l2 (now - startTime) now)). reflexivity.
  - left. exists l2.
    apply (promoteToL1_counted (mkHit l2 (now - startTime) now)). reflexivity.
  - reflexivity.
  - left. exists l3.
    apply (promoteToL1_counted (mkHit l3 (now - startTime) now)).
    match goal with Hl : loadFromDisk _ _ _ = _ |- _ =>
      pose proof (loadFromDisk_access p now s) as Ha; now rewrite Hl in Ha
    end.
  - right. split; [|reflexivity]. apply recordMiss_counted.
    match goal with Hl : loadFromDisk _ _ _ = _ |- _ =>
      pose proof (loadFromDisk_access p now s) as Ha; now rewrite Hl in Ha
    end.
  - right. split; [|reflexivity]. apply recordMiss_counted. reflexivity.
Qed.

(** The total of the hits is the sum of the hits per tier. *)
Definition hits_balanced s : Prop :=
  totalHits (stats s) = l1Hits (stats s) + l2Hits (stats s) + l3Hits (stats s).

Lemma same_access_balanced s s' :
  same_access s s' -> hits_balanced s -> hits_balanced s'.
Proof.
  unfold same_access, access_counters, hits_balanced. intros Hs Hb.
  inversion Hs. congruence.
Qed.

Lemma step_balanced op s : hits_balanced s -> hits_balanced (step config s op).
Proof.
  intros Hb. destruct op as [k t0 t | k v prio ttl_arg t | k | | t]; simpl.
  - pose proof (get_access_counted k t0 t s) as Hg.
    destruct (snd (get config k t0 t s)).
    + unfold hits_balanced in *.
      destruct Hg as [[lvl (H1 & _ & H3 & H4 & H5)] | [(H1 & _ & H3 & H4 & H5) _]].
      * rewrite H1, H3, H4, H5. destruct lvl; lia.
      * rewrite H1, H3, H4, H5. exact Hb.
    + now rewrite Hg.
  - eapply same_access_balanced; [apply set_access | exact Hb].
  - eapply same_access_balanced; [apply delete_access | exact Hb].
  - unfold clear, hits_balanced. destruct (enableDiskCache config); reflexivity.
  - eapply same_access_balanced; [apply runMaintenance_access | exact Hb].
Qed.

(** X8.  On a cache reached from a new cache by any sequence of operations
    the statistics are consistent: [totalHits] is the sum of the three
    per-tier hit counters, and the hit rate [getStats] derives lies between 0
    and 1. *)
Theorem stats_consistent (fs : FileSystem) (ops : list (Op T)) :
  totalHits (counters (getStats (run config ops (new_cache fs))))
  = l1Hits (counters (getStats (run config ops (new_cache fs))))
    + l2Hits (counters (getStats (run config ops (new_cache fs))))
    + l3Hits (counters (getStats (run config ops (new_cache fs)))) /\
  (0 <= hitRate (getStats (run config ops (new_cache fs))))%Q /\
  (hitRate (getStats (run config ops (new_cache fs))) <= 1)%Q.
Proof.
  split.
  - assert (Hgen : forall s, hits_balanced s -> hits_balanced (run config ops s)).
    { unfold run. induction ops as [|op ops' IH]; intros s Hs; simpl; [exact Hs|].
      apply IH. now apply step_balanced. }
    apply (Hgen (new_cache fs)). reflexivity.
  - unfold getStats. simpl.
    generalize (totalHits (stats (run config ops (new_cache fs)))) as h.
    generalize (totalMisses (stats (run config ops (new_cache fs)))) as m.
    intros m h. destruct (0 <? h + m) eqn:E.
    + apply Nat.ltb_lt in E.
      destruct (h + m) as [|t] eqn:Et; [lia|].
      assert (Hh : h <= S t) by lia.
      unfold Qle, Qdiv, Qmult, Qinv. simpl. split; lia.
    + split; [apply Qle_refl | unfold Qle; simpl; lia].
Qed.
End Accounting.

(** ** Predictive scores of key patterns *)

Section Patterns.
Context {T : Type} `{Runtime T}.
Variable config : CacheConfig.

Abbreviation Cache := (CacheManager T).
Implicit Types (s : Cache) (k : string).

(** The characters of a string, in order. *)
Fixpoint chars (k : string) : list ascii :=
  match k with
  | EmptyString => []
  | String c k' => c :: chars k'
  end.

Lemma pattern_of_no_colon k : ~ In ":"%char (chars (pattern_of k)).
Proof.
  induction k as [|c k IH]; simpl; [tauto|].
  destruct (Ascii.eqb c ":") eqn:E; simpl; [tauto|].
  intros [Hc | Hin]; [|tauto].
  subst c. now rewrite Ascii.eqb_refl in E.
Qed.

Lemma pattern_of_prefix k :
  k = pattern_of k \/
  exists rest, k = (pattern_of k ++ String ":" rest)%string.
Proof.
  induction k as [|c k IH]; simpl; [now left|].
  destruct (Ascii.eqb c ":") eqn:E; simpl.
  - apply Ascii.eqb_eq in E. subst c. right. now exists k.
  - destruct IH as [IH | [rest IH]].
    + left. congruence.
    + right. exists rest. rewrite IH at 1. reflexivity.
Qed.

Lemma enforceL1Size_loop_predictiveCache n s :
  predictiveCache (enforceL1Size_loop config n s) = predictiveCache s.
Proof.
  apply (enforceL1Size_loop_ind config
           (fun s' => predictiveCache s' = predictiveCache s)); [|reflexivity].
  intros s' k victim Hs' _ _ _. rewrite <- Hs'. unfold l1_evict. simpl.
  now destruct (demoteToL2_frame config victim
                  (with_l1Cache (JsMap.delete k (l1Cache s')) s'))
    as (_ & _ & ->).
Qed.

(** X9.  With predictive caching enabled, [set(key)] adds one to the score
    of the key's pattern (starting from 0 when the pattern has no score) and
    changes no other score; with predictive caching disabled it changes no
    score.  The pattern of a key is the part of the key before its first
    colon: it contains no colon, and the key is the pattern itself or the
    pattern followed by a colon and the rest. *)
Theorem set_scores_key_pattern k (v : T) prio ttl_arg now s :
  predictiveCache (set config k v prio ttl_arg now s)
  = (if predictiveCaching config
     then <[pattern_of k :=
              (default 0%Q (predictiveCache s !! pattern_of k) + 1)%Q]>
            (predictiveCache s)
     else predictiveCache s) /\
  ~ In ":"%char (chars (pattern_of k)) /\
  (k = pattern_of k \/
   exists rest, k = (pattern_of k ++ String ":" rest)%string).
Proof.
  split; [|split; [apply pattern_of_no_colon | apply pattern_of_prefix]].
  rewrite set_eq. cbv zeta. unfold enforceL1Size.
  destruct (predictiveCaching config).
  - unfold updatePredictiveCache. simpl.
    now rewrite enforceL1Size_loop_predictiveCache.
  - now rewrite enforceL1Size_loop_predictiveCache.
Qed.
End Patterns.

(** ** The disk tier *)

Section DiskTier.
Context {T : Type} `{RuntimeLaws T}.
Variable config : CacheConfig.

Abbreviation Cache := (CacheManager T).
Abbreviation Entry := (CacheEntry T).
Implicit Types (s : Cache) (e : Entry) (k : string) (n : nat).

Lemma JsMap_delete_head {V} k (v : V) (m : JsMap.t V) :
  ~ In k (JsMap.keys m) -> JsMap.delete k ((k, v) :: m) = m.
Proof.
  intros Hk. simpl. rewrite String.eqb_refl.
  apply JsMap_delete_absent.
  destruct (JsMap.get k m) as [v'|] eqn:E; [|reflexivity].
  exfalso. apply Hk. apply JsMapFacts.get_Some_In in E.
  unfold JsMap.keys. apply in_map_iff. exists (k, v'). auto.
Qed.

Lemma enforceL3Size_loop_fifo n s :
  NoDup (JsMap.keys (l3Index s)) ->
  JsMap.size (l3Index s) <= n ->
  l3Index (enforceL3Size_loop config n s)
  = drop (JsMap.size (l3Index s) - maxL3Size config) (l3Index s) /\
  evictions (stats (enforceL3Size_loop config n s))
  = evictions (stats s) + (JsMap.size (l3Index s) - maxL3Size config).
Proof.
  revert s. induction n as [|n IH]; intros s Hnd Hn.
  - simpl. destruct (l3Index s); simpl in *; [|lia]. split; [reflexivity | lia].
  - rewrite enforceL3Size_loop_S.
    destruct (maxL3Size config <? JsMap.size (l3Index s)) eqn:E.
    + apply Nat.ltb_lt in E.
      destruct (l3Index s) as [|[k p] rest] eqn:Ei; [simpl in E; lia|].
      simpl in Hnd. apply NoDup_cons in Hnd as [Hk Hnd].
      assert (Hidx : l3Index (l3_evict k p s) = rest).
      { unfold l3_evict. simpl. rewrite Ei. apply JsMap_delete_head.
        intros Hin. apply Hk. now apply list_elem_of_In. }
      destruct (IH (l3_evict k p s)) as [IH1 IH2].
      * now rewrite Hidx.
      * rewrite Hidx. unfold JsMap.size in *. simpl in Hn. lia.
      * rewrite IH1, IH2, Hidx. unfold JsMap.size in *. simpl in *.
        replace (S (length rest) - maxL3Size config)
          with (S (length rest - maxL3Size config)) by lia.
        simpl. split; [reflexivity | lia].
    + apply Nat.ltb_ge in E.
      replace (JsMap.size (l3Index s) - maxL3Size config) with 0 by lia.
      simpl. split; [reflexivity | lia].
Qed.

(** X10.  The disk tier is first in, first out: with distinct keys in the
    index, [enforceL3Size] removes exactly the entries registered first, as
    many as the index exceeds [maxL3Size] by, keeps the others in their
    order, and counts one eviction for each entry removed. *)
Theorem enforceL3Size_drops_oldest s :
  NoDup (JsMap.keys (l3Index s)) ->
  l3Index (enforceL3Size config s)
  = drop (JsMap.size (l3Index s) - maxL3Size config) (l3Index s) /\
  evictions (stats (enforceL3Size config s))
  = evictions (stats s) + (JsMap.size (l3Index s) - maxL3Size config).
Proof.
  intros Hnd. unfold enforceL3Size. now apply enforceL3Size_loop_fifo.
Qed.

Lemma enforceL3Size_room s :
  JsMap.size (l3Index s) <= maxL3Size config -> enforceL3Size config s = s.
Proof.
  intros Hs. unfold enforceL3Size.
  destruct (JsMap.size (l3Index s)) as [|n] eqn:En; [reflexivity|].
  rewrite enforceL3Size_loop_S, En.
  assert (E : (maxL3Size config <? S n) = false) by (apply Nat.ltb_ge; lia).
  now rewrite E.
Qed.

Lemma filePath_of_truthy k :
  truthy_path (Some (filePath_of config k)) = Some (filePath_of config k).
Proof.
  unfold filePath_of. destruct (l3Directory config); reflexivity.
Qed.

(** The payload holds the value [v], raw or compressed by [demoteToL2]. *)
Definition holds_value (p : Payload T) (v : T) : Prop :=
  p = Raw v \/ p = Gz (gzip (json_stringify v)).

(** A TTL that has not elapsed in memory has not elapsed in the record. *)
Lemma ttl_elapsed_json (elapsed : Z) (t : option JsNumber) :
  ttl_elapsed elapsed t = false -> ttl_elapsed elapsed (json_number t) = false.
Proof. destruct t as [[q| | |]|]; simpl; auto. Qed.

(** Loading the record of an entry that holds [v] and is not expired. *)
Lemma loadFromDisk_record p now s e v :
  files (disk s) !! p = Some (FileRecord (disk_record e)) ->
  holds_value (payload e) v ->
  isExpired now e = false ->
  exists s1, loadFromDisk p now s = (s1, Some (v, priority e)).
Proof.
  intros Hf Hval Hlive.
  assert (Hexp : record_expired now (disk_record e) = false).
  { unfold record_expired, isExpired in *. simpl. now apply ttl_elapsed_json. }
  unfold loadFromDisk, fs_readFile. rewrite Hf, Hexp.
  unfold disk_record at 1. simpl.
  destruct Hval as [Hp | Hp]; rewrite Hp; simpl.
  - rewrite parse_stringify. eauto.
  - rewrite gunzip_gzip. simpl. rewrite parse_stringify. eauto.
Qed.

(** A [get] served from the disk. *)
Lemma get_disk_hit k p v prio startTime now s s1 :
  enableDiskCache config = true ->
  live now (JsMap.get k (l1Cache s)) = None ->
  live now (JsMap.get k (l2Cache s)) = None ->
  truthy_path (JsMap.get k (l3Index s)) = Some p ->
  loadFromDisk p now s = (s1, Some (v, prio)) ->
  snd (get config k startTime now s) = Returned (Some v) /\
  counted_hit l3 s (fst (get config k startTime now s)).
Proof.
  intros Hon H1 H2 Hp Hload.
  pose proof (loadFromDisk_access p now s) as Hl. rewrite Hload in Hl.
  unfold get. rewrite H1. unfold get_l2. rewrite H2.
  unfold get_l3. rewrite Hon, Hp, Hload. simpl. split; [reflexivity|].
  apply (promoteToL1_counted config (mkHit l3 (now - startTime) now)).
  exact Hl.
Qed.

(** X11.  Disk round trip.  When the disk accepts the write and the index
    has room, [demoteToL3] registers the key under its file path, and a
    [get] of that key which finds it in neither memory tier, before the entry
    expires, loads the file and returns the entry's value (decompressed when
    the entry was compressed) as a disk hit. *)
Theorem demoteToL3_then_get_returns_value e v startTime now s :
  enableDiskCache config = true ->
  writable (disk s) = true ->
  JsMap.size (JsMap.set (key e) (filePath_of config (key e)) (l3Index s))
  <= maxL3Size config ->
  holds_value (payload e) v ->
  isExpired now e = false ->
  live now (JsMap.get (key e) (l1Cache s)) = None ->
  live now (JsMap.get (key e) (l2Cache s)) = None ->
  JsMap.get (key e) (l3Index (demoteToL3 config e s))
  = Some (filePath_of config (key e)) /\
  snd (get config (key e) startTime now (demoteToL3 config e s))
  = Returned (Some v) /\
  l3Hits (stats (fst (get config (key e) startTime now (demoteToL3 config e s))))
  = S (l3Hits (stats s)).
Proof.
  intros Hon Hw Hroom Hval Hlive H1 H2.
  assert (Hd : demoteToL3 config e s
               = with_stats (bump_diskWrites (stats s))
                   (with_l3Index
                      (JsMap.set (key e) (filePath_of config (key e)) (l3Index s))
                      (with_disk
                         (mkFs (<[filePath_of config (key e) :=
                                    FileRecord (disk_record (with_level l3 e))]>
                                  (files (disk s))) (writable (disk s))) s))).
  { unfold demoteToL3, fs_writeFile. rewrite Hw. simpl.
    now rewrite enforceL3Size_room. }
  rewrite Hd. split; [simpl; apply JsMapFacts.get_set_eq|].
  destruct (loadFromDisk_record (filePath_of config (key e)) now
              (with_stats (bump_diskWrites (stats s))
                 (with_l3Index
                    (JsMap.set (key e) (filePath_of config (key e)) (l3Index s))
                    (with_disk
                       (mkFs (<[filePath_of config (key e) :=
                                  FileRecord (disk_record (with_level l3 e))]>
                                (files (disk s))) (writable (disk s))) s)))
              (with_level l3 e) v) as [s1 Hload];
    [simpl; apply lookup_insert_eq | exact Hval | exact Hlive |].
  set (sd := with_stats (bump_diskWrites (stats s)) _) in *.
  destruct (get_disk_hit (key e) (filePath_of config (key e)) v (priority e)
              startTime now sd s1 Hon H1 H2) as [Hr Hc]; [| exact Hload |].
  - unfold sd. simpl. rewrite JsMapFacts.get_set_eq. apply filePath_of_truthy.
  - split; [exact Hr|]. destruct Hc as (_ & _ & _ & _ & H5). exact H5.
Qed.
End DiskTier.

(** ** The compressed tier *)

Section CompressedTier.
Context {T : Type} `{RuntimeLaws T}.
Variable config : CacheConfig.

Abbreviation Cache := (CacheManager T).
Abbreviation Entry := (CacheEntry T).
Implicit Types (s : Cache) (e : Entry) (k : string) (n : nat).

Lemma enforceL2Size_room s :
  JsMap.size (l2Cache s) <= maxL2Size config -> enforceL2Size config s = s.
Proof.
  intros Hs. unfold enforceL2Size.
  destruct (JsMap.size (l2Cache s)) as [|n] eqn:En; [reflexivity|].
  rewrite enforceL2Size_loop_S, En.
  assert (E : (maxL2Size config <? S n) = false) by (apply Nat.ltb_ge; lia).
  now rewrite E.
Qed.

(** X12.  Compression round trip.  When the compressed tier has room,
    [demoteToL2] stores the entry there under its key, compressed exactly
    when compression is enabled and the entry's size is above the threshold
    (one compression is then counted), and a [get] of that key which does
    not find it in the fast tier, before the entry expires, returns the
    entry's value. *)
Theorem demoteToL2_then_get_returns_value e v startTime now s :
  payload e = Raw v ->
  JsMap.size (JsMap.set (key e) e (l2Cache s)) <= maxL2Size config ->
  isExpired now e = false ->
  live now (JsMap.get (key e) (l1Cache s)) = None ->
  (payload <$> JsMap.get (key e) (l2Cache (demoteToL2 config e s)))
  = Some (if enableCompression config && (compressionThreshold config <? size e)
          then Gz (gzip (json_stringify v)) else Raw v) /\
  compressions (stats (demoteToL2 config e s))
  = (if enableCompression config && (compressionThreshold config <? size e)
     then S (compressions (stats s)) else compressions (stats s)) /\
  snd (get config (key e) startTime now (demoteToL2 config e s))
  = Returned (Some v).
Proof.
  intros Hp Hroom Hlive H1.
  pose proof (fun e1 e2 => JsMap_size_set (key e) e1 e2 (l2Cache s)) as Hsz.
  unfold demoteToL2. simpl. rewrite Hp.
  destruct (enableCompression config && (compressionThreshold config <? size e))
    eqn:Ec; simpl.
  - rewrite enforceL2Size_room by (simpl; erewrite Hsz; exact Hroom).
    simpl. rewrite JsMapFacts.get_set_eq. simpl.
    repeat split.
    unfold get. simpl. rewrite H1. unfold get_l2. simpl.
    rewrite JsMapFacts.get_set_eq. simpl.
    replace (isExpired now _) with (isExpired now e) by reflexivity.
    rewrite Hlive. simpl.
    rewrite gunzip_gzip. simpl. rewrite parse_stringify. reflexivity.
  - rewrite enforceL2Size_room by (simpl; erewrite Hsz; exact Hroom).
    simpl. rewrite JsMapFacts.get_set_eq. simpl. rewrite Hp.
    repeat split.
    unfold get. simpl. rewrite H1. unfold get_l2. simpl.
    rewrite JsMapFacts.get_set_eq. simpl.
    replace (isExpired now _) with (isExpired now e) by reflexivity.
    rewrite Hlive. simpl. rewrite Hp. unfold value. simpl. now rewrite Hp.
Qed.
End CompressedTier.

(** ** The maintenance sweep *)

Section Sweep.
Context {T : Type} `{Runtime T}.
Variable config : CacheConfig.

Abbreviation Cache := (CacheManager T).
Abbreviation Entry := (CacheEntry T).
Implicit Types (s : Cache) (e : Entry) (k p : string) (n : nat).

(** Whether [loadFromDisk] gives a record depends on the file alone. *)
Lemma loadFromDisk_file p now s s' :
  files (disk s) !! p = files (disk s') !! p ->
  is_Some (snd (loadFromDisk p now s)) -> is_Some (snd (loadFromDisk p now s')).
Proof.
  unfold loadFromDisk, fs_readFile. intros <-.
  repeat case_match; simpl; auto.
Qed.

(** [loadFromDisk] leaves the index alone, and the disk too unless it
    returns [null] after unlinking the file. *)
Lemma loadFromDisk_effect p now s :
  l3Index (fst (loadFromDisk p now s)) = l3Index s /\
  (disk (fst (loadFromDisk p now s)) = disk s \/
   (snd (loadFromDisk p now s) = None /\
    disk (fst (loadFromDisk p now s)) = fs_unlink_ignore p (disk s))).
Proof.
  unfold loadFromDisk. repeat case_match; simpl; auto.
Qed.

Lemma fs_unlink_ignore_other p p' fs :
  p' <> p -> files (fs_unlink_ignore p fs) !! p' = files fs !! p'.
Proof.
  intros Hne. unfold fs_unlink_ignore, fs_unlink.
  destruct (files fs !! p); simpl; [|reflexivity].
  now apply lookup_delete_ne.
Qed.

(** During the sweep of the index: every entry still in the index is yet to
    be visited or has a file that loads. *)
Definition sweep_inv now (todo : JsMap.t string) s : Prop :=
  forall k p, In (k, p) (l3Index s) ->
              In (k, p) todo \/ is_Some (snd (loadFromDisk p now s)).

Lemma clean_l3_step_inv now k0 p0 todo s :
  sweep_inv now ((k0, p0) :: todo) s ->
  sweep_inv now todo (clean_l3_step now s (k0, p0)).
Proof.
  intros Hinv k p Hin. unfold clean_l3_step in *. simpl in *.
  destruct (loadFromDisk_effect p0 now s) as [Hidx Hdisk].
  destruct (loadFromDisk p0 now s) as [s1 r] eqn:El. simpl in *.
  destruct r as [r|].
  - rewrite Hidx in Hin. destruct Hdisk as [Hd | [Hn _]]; [|discriminate].
    destruct (Hinv k p Hin) as [[Heq | Hrest] | Hload].
    + inversion Heq; subst. right.
      apply (loadFromDisk_file p now s); [now rewrite Hd|].
      rewrite El. simpl. eauto.
    + now left.
    + right. apply (loadFromDisk_file p now s); [now rewrite Hd | exact Hload].
  - simpl in Hin. apply JsMapFacts.In_delete in Hin as [Hin Hne]. simpl in Hne.
    rewrite Hidx in Hin.
    destruct (Hinv k p Hin) as [[Heq | Hrest] | Hload].
    + inversion Heq; subst. congruence.
    + now left.
    + right. apply (loadFromDisk_file p now s); [|exact Hload]. simpl.
      destruct Hdisk as [Hd | [_ Hd]]; rewrite Hd; [reflexivity|].
      symmetry. apply fs_unlink_ignore_other.
      intros ->. rewrite El in Hload. simpl in Hload.
      destruct Hload as [x Hx]. discriminate.
Qed.

Lemma clean_l3_fold_inv now todo s :
  sweep_inv now todo s ->
  sweep_inv now [] (fold_left (clean_l3_step now) todo s).
Proof.
  revert s. induction todo as [|[k0 p0] todo IH]; intros s Hinv; simpl;
    [exact Hinv|].
  apply IH. now apply clean_l3_step_inv.
Qed.

Lemma clean_l3_fold_subset now todo s k p :
  In (k, p) (l3Index (fold_left (clean_l3_step now) todo s)) ->
  In (k, p) (l3Index s).
Proof.
  revert s. induction todo as [|[k0 p0] todo IH]; intros s Hin; simpl in *;
    [exact Hin|].
  apply IH in Hin. unfold clean_l3_step in Hin. simpl in Hin.
  destruct (loadFromDisk_effect p0 now s) as [Hidx _].
  destruct (loadFromDisk p0 now s) as [s1 [r|]]; simpl in *.
  - now rewrite Hidx in Hin.
  - apply JsMapFacts.In_delete in Hin as [Hin _]. now rewrite Hidx in Hin.
Qed.

Lemma cleanExpiredEntries_l2Cache now s :
  l2Cache (cleanExpiredEntries now s) =
  List.filter (fun ke => negb (isExpired now (snd ke))) (l2Cache s).
Proof.
  unfold cleanExpiredEntries.
  now destruct (clean_l3_frame now
    (l3Index (with_l2Cache
       (List.filter (fun ke => negb (isExpired now (snd ke)))
          (l2Cache (with_l1Cache
             (List.filter (fun ke => negb (isExpired now (snd ke))) (l1Cache s)) s)))
       (with_l1Cache
          (List.filter (fun ke => negb (isExpired now (snd ke))) (l1Cache s)) s)))
    (with_l2Cache
       (List.filter (fun ke => negb (isExpired now (snd ke)))
          (l2Cache (with_l1Cache
             (List.filter (fun ke => negb (isExpired now (snd ke))) (l1Cache s)) s)))
       (with_l1Cache
          (List.filter (fun ke => negb (isExpired now (snd ke))) (l1Cache s)) s)))
    as (_ & -> & _).
Qed.

(** X13.  A maintenance run keeps, in their order, exactly the entries of
    the fast and the compressed tier that are not expired, and it keeps in
    the disk index only entries that were there before and whose backing file
    loads as an unexpired record: an index entry whose file is missing,
    unreadable or expired is removed. *)
Theorem runMaintenance_sweeps_all_tiers now s :
  l1Cache (runMaintenance config now s)
  = List.filter (fun ke => negb (isExpired now (snd ke))) (l1Cache s) /\
  l2Cache (runMaintenance config now s)
  = List.filter (fun ke => negb (isExpired now (snd ke))) (l2Cache s) /\
  (forall k p, In (k, p) (l3Index (runMaintenance config now s)) ->
     In (k, p) (l3Index s) /\
     is_Some (snd (loadFromDisk p now (runMaintenance config now s)))).
Proof.
  split; [apply runMaintenance_l1Cache|].
  assert (Hc : forall k p, In (k, p) (l3Index (cleanExpiredEntries now s)) ->
             In (k, p) (l3Index s) /\
             is_Some (snd (loadFromDisk p now (cleanExpiredEntries now s)))).
  { intros k p Hin. unfold cleanExpiredEntries in *. split.
    - apply clean_l3_fold_subset in Hin. exact Hin.
    - pose proof (clean_l3_fold_inv now _ _
                    (fun k p Hin => or_introl Hin) k p Hin) as [[] | Hl].
      exact Hl. }
  unfold runMaintenance. destruct (predictiveCaching config).
  - split; [simpl; apply cleanExpiredEntries_l2Cache|].
    intros k p Hin. simpl in Hin. destruct (Hc k p Hin) as [H1 H2].
    split; [exact H1|].
    eapply loadFromDisk_file; [|exact H2]. reflexivity.
  - split; [apply cleanExpiredEntries_l2Cache | exact Hc].
Qed.
End Sweep.

(** ** Values held by the memory tiers *)

Section Payloads.
Context {T : Type} `{RuntimeLaws T}.
Variable config : CacheConfig.

Abbreviation Cache := (CacheManager T).
Abbreviation Entry := (CacheEntry T).
Implicit Types (s : Cache) (e : Entry) (k : string) (n : nat).

(** The entry holds its raw value. *)
Definition is_raw (ke : string * Entry) : Prop :=
  exists v, payload (snd ke) = Raw v.

(** The entry holds a raw value or bytes that decompress and parse. *)
Definition decodable (ke : string * Entry) : Prop :=
  exists v, decodes (payload (snd ke)) v.

(** The keys of the fast tier are distinct, its entries hold raw values and
    the entries of the compressed tier decode. *)
Definition payload_tiers s : Prop := tiers_keep is_raw decodable s.

Lemma is_raw_hit_entry now k e :
  is_raw (k, e) -> is_raw (k, hit_entry config now e).
Proof.
  intros [v Hv]. exists v. simpl in *. unfold hit_entry.
  destruct (policy config); exact Hv.
Qed.

Lemma decodable_hit_entry now k e :
  decodable (k, e) -> decodable (k, hit_entry config now e).
Proof.
  intros [v Hv]. exists v. simpl in *. unfold hit_entry.
  destruct (policy config); exact Hv.
Qed.

Lemma is_raw_onAdd now k e :
  is_raw (k, e) -> is_raw (k, onAdd (policy config) now e).
Proof.
  intros [v Hv]. exists v. simpl in *. destruct (policy config); exact Hv.
Qed.

(** What [demoteToL2] stores of a raw entry decodes to the entry's value. *)
Lemma demoted_raw_decodes e v :
  payload e = Raw v -> decodes (payload (demoted_entry config e)) v.
Proof.
  intros Hv. unfold demoted_entry. destruct (compresses config e).
  - rewrite Hv. simpl. rewrite gunzip_gzip. simpl. apply parse_stringify.
  - simpl. now rewrite Hv.
Qed.

Lemma is_raw_demoted k e :
  k <> EmptyString -> evictable e -> is_raw (k, e) ->
  decodable (key e, demoted_entry config e).
Proof.
  intros _ _ [v Hv]. exists v. now apply demoted_raw_decodes.
Qed.

Lemma enforceL1Size_loop_payloads n s :
  payload_tiers s -> payload_tiers (enforceL1Size_loop config n s).
Proof.
  intros Hs.
  apply (enforceL1Size_loop_keep config is_raw decodable); try exact Hs.
  apply is_raw_demoted.
Qed.

Lemma promoteToL1_payloads h e s :
  payload_tiers s -> is_raw (key e, e) ->
  payload_tiers (promoteToL1 config h e s).
Proof.
  intros Hs He.
  apply (promoteToL1_keep config is_raw decodable); try exact Hs.
  - apply is_raw_hit_entry.
  - apply decodable_hit_entry.
  - apply is_raw_onAdd.
  - apply is_raw_demoted.
  - exact He.
Qed.

Lemma payload_tiers_same s s' :
  l1Cache s' = l1Cache s -> l2Cache s' = l2Cache s ->
  payload_tiers s -> payload_tiers s'.
Proof.
  intros E1 E2 Hs. unfold payload_tiers, tiers_keep. now rewrite E1, E2.
Qed.

Lemma loadFromDisk_payloads p now s :
  payload_tiers s -> payload_tiers (fst (loadFromDisk p now s)).
Proof.
  destruct (loadFromDisk_frame p now s) as (E1 & E2 & _).
  now apply payload_tiers_same.
Qed.

Lemma get_payloads k startTime now s :
  payload_tiers s -> payload_tiers (fst (get config k startTime now s)).
Proof.
  intros Hs.
  apply (get_paths config (fun r => payload_tiers (fst r))); simpl; intros.
  - destruct Hs as (Hnd & Hp1 & Hp2). unfold payload_tiers, tiers_keep. simpl.
    rewrite JsMapFacts.keys_mutate. split; [assumption|].
    split; [|assumption]. apply JsMapFacts.Forall_mutate; [|assumption].
    intros e0. apply is_raw_hit_entry.
  - apply promoteToL1_payloads; [exact Hs | now exists v].
  - apply promoteToL1_payloads; [|now exists v].
    destruct Hs as (Hnd & Hp1 & Hp2). split; [assumption|].
    split; [assumption|]. simpl.
    apply JsMapFacts.Forall_mutate; [|assumption].
    intros e0 _. now exists v.
  - exact Hs.
  - apply promoteToL1_payloads; [|now exists data].
    match goal with Hl : loadFromDisk _ _ _ = _ |- _ =>
      pose proof (loadFromDisk_payloads p now s Hs) as Hp; now rewrite Hl in Hp
    end.
  - eapply payload_tiers_same; [| |apply (loadFromDisk_payloads p now s Hs)];
      match goal with Hl : loadFromDisk _ _ _ = _ |- _ => now rewrite Hl end.
  - eapply payload_tiers_same; [| |exact Hs]; reflexivity.
Qed.

Lemma set_payloads k v prio ttl_arg now s :
  payload_tiers s -> payload_tiers (set config k v prio ttl_arg now s).
Proof.
  intros (Hnd & H1 & H2). rewrite set_eq. cbv zeta.
  assert (Hl : payload_tiers
                 (enforceL1Size config (set_insert config k v prio ttl_arg now s))).
  { apply enforceL1Size_loop_payloads. unfold payload_tiers, tiers_keep.
    rewrite set_insert_l1Cache.
    split; [now apply JsMapFacts.NoDup_keys_set|].
    split; [|exact H2].
    apply JsMapFacts.Forall_set; [|exact H1].
    exists v. apply payload_set_entry. }
  destruct (predictiveCaching config); exact Hl.
Qed.

Lemma delete_payloads k s :
  payload_tiers s -> payload_tiers (fst (delete k s)).
Proof.
  intros (Hnd & H1 & H2).
  assert (Hd : payload_tiers
                 (with_l2Cache (JsMap.delete k (l2Cache s))
                    (with_l1Cache (JsMap.delete k (l1Cache s)) s))).
  { split; [now apply JsMapFacts.NoDup_keys_delete|].
    split; now apply JsMapFacts.Forall_delete. }
  unfold delete. simpl.
  destruct (truthy_path (JsMap.get k (l3Index s))) as [p|]; [|exact Hd].
  destruct (fs_unlink p (disk s)); exact Hd.
Qed.

Lemma clear_payloads s : payload_tiers (clear config s).
Proof.
  unfold clear, payload_tiers, tiers_keep.
  destruct (enableDiskCache config); simpl;
    (split; [constructor|]; split; constructor).
Qed.

Lemma NoDup_keys_filter {V} (f : string * V -> bool) (m : JsMap.t V) :
  NoDup (JsMap.keys m) -> NoDup (JsMap.keys (List.filter f m)).
Proof.
  unfold JsMap.keys.
  induction m as [|[k0 e0] m IH]; simpl; [constructor|].
  intros Hnd. apply NoDup_cons in Hnd as [Hk Hnd].
  destruct (f (k0, e0)); simpl; [|auto].
  apply NoDup_cons. split; [|auto].
  intros Hin. apply Hk. apply list_elem_of_In. apply list_elem_of_In in Hin.
  apply in_map_iff in Hin as (kv & Hkv & Hin).
  apply filter_In in Hin as [Hin _]. apply in_map_iff. eauto.
Qed.

Lemma Forall_filter_keep {A} (P : A -> Prop) (f : A -> bool) (l : list A) :
  Forall P l -> Forall P (List.filter f l).
Proof.
  rewrite !List.Forall_forall. intros HP x Hin.
  apply filter_In in Hin as [Hin _]. auto.
Qed.

Lemma runMaintenance_l2Cache now s :
  l2Cache (runMaintenance config now s) =
  List.filter (fun ke => negb (isExpired now (snd ke))) (l2Cache s).
Proof.
  unfold runMaintenance. destruct (predictiveCaching config); simpl;
    apply cleanExpiredEntries_l2Cache.
Qed.

Lemma runMaintenance_payloads now s :
  payload_tiers s -> payload_tiers (runMaintenance config now s).
Proof.
  intros (Hnd & H1 & H2). unfold payload_tiers, tiers_keep.
  rewrite runMaintenance_l1Cache, runMaintenance_l2Cache.
  split; [now apply NoDup_keys_filter|].
  split; now apply Forall_filter_keep.
Qed.

Lemma step_payloads op s : payload_tiers s -> payload_tiers (step config s op).
Proof.
  destruct op; simpl.
  - apply get_payloads.
  - apply set_payloads.
  - apply delete_payloads.
  - intros _. apply clear_payloads.
  - apply runMaintenance_payloads.
Qed.

Lemma run_payloads (fs : FileSystem) (ops : list (Op T)) :
  payload_tiers (run config ops (new_cache fs)).
Proof.
  assert (Hgen : forall s, payload_tiers s -> payload_tiers (run config ops s)).
  { unfold run. induction ops as [|op ops' IH]; intros s Hs; simpl; [exact Hs|].
    apply IH. now apply step_payloads. }
  apply Hgen. split; [constructor|]. split; constructor.
Qed.

Lemma live_Some now (m : JsMap.t Entry) k e :
  live now (JsMap.get k m) = Some e ->
  In (k, e) m /\ isExpired now e = false.
Proof.
  unfold live. destruct (JsMap.get k m) as [e0|] eqn:Eg; [|discriminate].
  destruct (isExpired now e0) eqn:Ex; [discriminate|].
  intros He. inversion He; subst e0.
  split; [now apply JsMapFacts.get_Some_In | exact Ex].
Qed.

(** X6.  On a cache reached from a new cache by any sequence of operations,
    with values that [JSON.parse] reads back from [JSON.stringify] and bytes
    that [gunzip] reads back from [gzip], every entry of the fast tier holds
    its raw value and every entry of the compressed tier holds a raw value or
    bytes that decompress and parse to a value.  So the decompression in
    [get] never fails: [get] never rejects. *)
Theorem get_never_rejects (fs : FileSystem) (ops : list (Op T))
        k startTime now :
  Forall (fun ke => exists v, payload (snd ke) = Raw v)
         (l1Cache (run config ops (new_cache fs))) /\
  Forall (fun ke => exists v, decodes (payload (snd ke)) v)
         (l2Cache (run config ops (new_cache fs))) /\
  exists r,
    snd (get config k startTime now (run config ops (new_cache fs)))
    = Returned r.
Proof.
  destruct (run_payloads fs ops) as (_ & H1 & H2).
  split; [exact H1|]. split; [exact H2|].
  apply (get_paths config (fun r => exists r', snd r = Returned r'));
    simpl; intros; eauto.
  exfalso.
  match goal with Hl : live _ (JsMap.get _ (l2Cache _)) = Some _ |- _ =>
    apply live_Some in Hl as [Hin _]
  end.
  rewrite List.Forall_forall in H2. destruct (H2 _ Hin) as [v Hv].
  simpl in Hv.
  match goal with Hp : payload _ = Gz _ |- _ => rewrite Hp in Hv end.
  simpl in Hv. congruence.
Qed.

(** X14.  On a cache reached from a new cache by any sequence of operations,
    with the same platform, every [get] is counted exactly once, at the tier
    that serves it.  When the fast tier holds a live entry for the key, [get]
    returns its value and adds one to [l1Hits] and to [totalHits].  Otherwise,
    when the compressed tier holds a live entry for the key, [get] returns
    the value the entry decodes to and adds one to [l2Hits] and to
    [totalHits].  Otherwise, when the disk tier is enabled, the index holds a
    path for the key and the file loads, [get] returns the loaded value and
    adds one to [l3Hits] and to [totalHits].  Otherwise no tier serves the
    key: [get] resolves [null] and adds one to [totalMisses].  In each case
    the other access counters are unchanged. *)
Theorem get_counts_one_access (fs : FileSystem) (ops : list (Op T))
        k startTime now :
  (forall e,
      live now (JsMap.get k (l1Cache (run config ops (new_cache fs)))) = Some e ->
      exists v,
        payload e = Raw v /\
        snd (get config k startTime now (run config ops (new_cache fs)))
        = Returned (Some v) /\
        counted_hit l1 (run config ops (new_cache fs))
          (fst (get config k startTime now (run config ops (new_cache fs))))) /\
  (forall e,
      live now (JsMap.get k (l1Cache (run config ops (new_cache fs)))) = None ->
      live now (JsMap.get k (l2Cache (run config ops (new_cache fs)))) = Some e ->
      exists v,
        decodes (payload e) v /\
        snd (get config k startTime now (run config ops (new_cache fs)))
        = Returned (Some v) /\
        counted_hit l2 (run config ops (new_cache fs))
          (fst (get config k startTime now (run config ops (new_cache fs))))) /\
  (live now (JsMap.get k (l1Cache (run config ops (new_cache fs)))) = None ->
   live now (JsMap.get k (l2Cache (run config ops (new_cache fs)))) = None ->
   (exists p s1 v prio,
       enableDiskCache config = true /\
       truthy_path (JsMap.get k (l3Index (run config ops (new_cache fs))))
       = Some p /\
       loadFromDisk p now (run config ops (new_cache fs))
       = (s1, Some (v, prio)) /\
       snd (get config k startTime now (run config ops (new_cache fs)))
       = Returned (Some v) /\
       counted_hit l3 (run config ops (new_cache fs))
         (fst (get config k startTime now (run config ops (new_cache fs))))) \/
   ((enableDiskCache config = false \/
     truthy_path (JsMap.get k (l3Index (run config ops (new_cache fs)))) = None \/
     exists p,
       truthy_path (JsMap.get k (l3Index (run config ops (new_cache fs))))
       = Some p /\
       snd (loadFromDisk p now (run config ops (new_cache fs))) = None) /\
    snd (get config k startTime now (run config ops (new_cache fs)))
    = Returned None /\
    counted_miss (run config ops (new_cache fs))
      (fst (get config k startTime now (run config ops (new_cache fs)))))).
Proof.
  destruct (run_payloads fs ops) as (_ & Hraw & Hdec).
  remember (run config ops (new_cache fs)) as s eqn:Es. clear Es.
  apply (get_paths config
           (fun r =>
              (forall e, live now (JsMap.get k (l1Cache s)) = Some e ->
                 exists v, payload e = Raw v /\ snd r = Returned (Some v) /\
                           counted_hit l1 s (fst r)) /\
              (forall e, live now (JsMap.get k (l1Cache s)) = None ->
                 live now (JsMap.get k (l2Cache s)) = Some e ->
                 exists v, decodes (payload e) v /\ snd r = Returned (Some v) /\
                           counted_hit l2 s (fst r)) /\
              (live now (JsMap.get k (l1Cache s)) = None ->
               live now (JsMap.get k (l2Cache s)) = None ->
               (exists p s1 v prio,
                   enableDiskCache config = true /\
                   truthy_path (JsMap.get k (l3Index s)) = Some p /\
                   loadFromDisk p now s = (s1, Some (v, prio)) /\
                   snd r = Returned (Some v) /\ counted_hit l3 s (fst r)) \/
               ((enableDiskCache config = false \/
                 truthy_path (JsMap.get k (l3Index s)) = None \/
                 exists p, truthy_path (JsMap.get k (l3Index s)) = Some p /\
                           snd (loadFromDisk p now s) = None) /\
                snd r = Returned None /\ counted_miss s (fst r)))));
    simpl.
  - intros e He. split; [|split; intros; congruence].
    intros e' He'. assert (e' = e) by congruence. subst e'.
    destruct (live_Some _ _ _ _ He) as [Hin _].
    rewrite List.Forall_forall in Hraw. destruct (Hraw _ Hin) as [v Hv].
    simpl in Hv. exists v. split; [exact Hv|].
    split; [unfold value; now rewrite Hv|].
    apply recordHit_counted. reflexivity.
  - intros e v H1 H2 Hp. split; [intros; congruence|].
    split; [|intros; congruence].
    intros e' _ He'. assert (e' = e) by congruence. subst e'.
    exists v. split; [now rewrite Hp|]. split; [reflexivity|].
    apply (promoteToL1_counted config (mkHit l2 (now - startTime) now)).
    reflexivity.
  - intros e b v H1 H2 Hp Hd. split; [intros; congruence|].
    split; [|intros; congruence].
    intros e' _ He'. assert (e' = e) by congruence. subst e'.
    exists v. split; [now rewrite Hp|]. split; [reflexivity|].
    apply (promoteToL1_counted config (mkHit l2 (now - startTime) now)).
    reflexivity.
  - intros e b H1 H2 Hp Hd. exfalso.
    destruct (live_Some _ _ _ _ H2) as [Hin _].
    rewrite List.Forall_forall in Hdec. destruct (Hdec _ Hin) as [v Hv].
    simpl in Hv. rewrite Hp in Hv. simpl in Hv. congruence.
  - intros p s1 data prio H1 H2 Hon Hp Hl.
    split; [intros; congruence|]. split; [intros; congruence|].
    intros _ _. left. exists p, s1, data, prio.
    split; [assumption|]. split; [assumption|]. split; [assumption|].
    split; [reflexivity|].
    apply (promoteToL1_counted config (mkHit l3 (now - startTime) now)).
    pose proof (loadFromDisk_access p now s) as Ha. now rewrite Hl in Ha.
  - intros p s1 H1 H2 Hon Hp Hl.
    split; [intros; congruence|]. split; [intros; congruence|].
    intros _ _. right. split.
    { right. right. exists p. split; [exact Hp | now rewrite Hl]. }
    split; [reflexivity|]. apply recordMiss_counted.
    pose proof (loadFromDisk_access p now s) as Ha. now rewrite Hl in Ha.
  - intros H1 H2 Hoff.
    split; [intros; congruence|]. split; [intros; congruence|].
    intros _ _. right. split; [tauto|].
    split; [reflexivity|]. apply recordMiss_counted. reflexivity.
Qed.
End Payloads.

(** ** Replacement in a full fast tier *)

Section Replacement.
Context {T : Type} `{Runtime T}.
Variable config : CacheConfig.

Abbreviation Cache := (CacheManager T).
Abbreviation Entry := (CacheEntry T).
Implicit Types (s : Cache) (e : Entry) (k : string) (n : nat).

Lemma JsMap_set_absent {V} k (v : V) (m : JsMap.t V) :
  JsMap.get k m = None -> JsMap.set k v m = m ++ [(k, v)].
Proof.
  induction m as [|[k' v'] m IH]; simpl; [reflexivity|].
  destruct (String.eqb k k'); [discriminate|]. intros Hg. now rewrite IH.
Qed.

Lemma JsMap_get_app_l {V} k (v : V) (m m' : JsMap.t V) :
  JsMap.get k m = Some v -> JsMap.get k (m ++ m') = Some v.
Proof.
  induction m as [|[k' v'] m IH]; simpl; [discriminate|].
  destruct (String.eqb k k'); auto.
Qed.

Lemma JsMap_delete_snoc {V} k k' (v : V) (m : JsMap.t V) :
  k <> k' -> JsMap.delete k (m ++ [(k', v)]) = JsMap.delete k m ++ [(k', v)].
Proof.
  intros Hne. induction m as [|[k2 v2] m IH]; simpl.
  - apply String.eqb_neq in Hne. now rewrite Hne.
  - destruct (String.eqb k k2); simpl; now rewrite IH.
Qed.

Lemma enforceL1Size_loop_room n s :
  JsMap.size (l1Cache s) <= maxL1Size config ->
  enforceL1Size_loop config n s = s.
Proof.
  intros Hs. destruct n as [|n]; [reflexivity|].
  rewrite enforceL1Size_loop_S.
  assert (E : (maxL1Size config <? JsMap.size (l1Cache s)) = false)
    by (apply Nat.ltb_ge; lia).
  now rewrite E.
Qed.

End Replacement.

(** ** Pinned entries *)

Section Pinning.
Context {T : Type} `{Runtime T}.
Variable config : CacheConfig.

Abbreviation Cache := (CacheManager T).
Abbreviation Entry := (CacheEntry T).
Implicit Types (s : Cache) (e : Entry) (k : string) (n : nat).

(** The keys of the fast tier are distinct. *)
Definition distinct_l1 s : Prop := NoDup (JsMap.keys (l1Cache s)).

Lemma run_distinct (fs : FileSystem) (ops : list (Op T)) :
  distinct_l1 (run config ops (new_cache fs)).
Proof. now destruct (run_keyed config fs ops) as (Hnd & _). Qed.

(** The capacity loop of the fast tier never removes a pinned entry. *)
Lemma enforceL1Size_loop_keeps_pinned k' e' n s :
  pinned e' ->
  distinct_l1 s -> JsMap.get k' (l1Cache s) = Some e' ->
  JsMap.get k' (l1Cache (enforceL1Size_loop config n s)) = Some e'.
Proof.
  intros Hpin Hnd Hget.
  apply (enforceL1Size_loop_ind config
           (fun s' => distinct_l1 s' /\ JsMap.get k' (l1Cache s') = Some e'));
    [|now split].
  intros s' k victim [Hnd' Hget'] _ Hv _.
  unfold distinct_l1. rewrite l1_evict_l1Cache.
  split; [now apply JsMapFacts.NoDup_keys_delete|].
  rewrite JsMapFacts.get_delete_ne; [exact Hget'|].
  intros ->.
  apply usable_victim_Some in Hv as [Hv _].
  apply selectVictim_Some in Hv as (e & Hin & Hev).
  rewrite (JsMapFacts.NoDup_In_get _ _ _ Hnd' Hin) in Hget'.
  inversion Hget'; subst e. now apply pinned_not_evictable in Hpin.
Qed.

(** X16.  Pinning.  On a cache reached from a new cache by any sequence of
    operations, an entry of priority HIGH or CRITICAL in the fast tier is
    still there, unchanged, after a [set] of any other key, however full the
    tier is. *)
Theorem set_keeps_pinned_entries (fs : FileSystem) (ops : list (Op T))
        k' e' k (v : T) prio ttl_arg now :
  JsMap.get k' (l1Cache (run config ops (new_cache fs))) = Some e' ->
  pinned e' ->
  k <> k' ->
  JsMap.get k' (l1Cache (set config k v prio ttl_arg now
                            (run config ops (new_cache fs)))) = Some e'.
Proof.
  intros Hget Hpin Hne.
  pose proof (run_distinct fs ops) as Hnd.
  rewrite set_eq. cbv zeta.
  assert (Hl : JsMap.get k' (l1Cache (enforceL1Size config
                 (set_insert config k v prio ttl_arg now
                    (run config ops (new_cache fs))))) = Some e').
  { unfold enforceL1Size. apply enforceL1Size_loop_keeps_pinned; [exact Hpin | |].
    - unfold distinct_l1. rewrite set_insert_l1Cache.
      now apply JsMapFacts.NoDup_keys_set.
    - rewrite set_insert_l1Cache, JsMapFacts.get_set_ne by congruence.
      exact Hget. }
  destruct (predictiveCaching config); exact Hl.
Qed.
End Pinning.

(** ** Reading back what was just set, from any tier *)

(** *** Keys and files of the disk index *)

Section DiskNames.
Context {T : Type} `{Runtime T}.
Variable config : CacheConfig.
Variable kk : string.
Variable wr : bool.

Abbreviation Cache := (CacheManager T).
Abbreviation Entry := (CacheEntry T).
Implicit Types (s : Cache) (e victim : Entry) (k p : string) (n : nat).

(** The key [k] is not empty, and it has the digest of [kk] only when it is
    [kk]: the file of [k] is then not the file of [kk]. *)
Definition apart k : Prop :=
  k <> EmptyString /\ (sha256_hex k = sha256_hex kk -> k = kk).

(** The entry records such a key. *)
Definition apart_entry (ke : string * Entry) : Prop := apart (key (snd ke)).

(** An index entry as [demoteToL3] registers it: such a key, with the path
    of its file. *)
Definition registered (kp : string * string) : Prop :=
  apart (fst kp) /\ snd kp = filePath_of config (fst kp).

(** The index has distinct keys and registered entries; the cache
    directory accepts writes or not as [wr] tells, and the index of a
    directory that accepts none is empty. *)
Definition index_ok s : Prop :=
  NoDup (JsMap.keys (l3Index s)) /\
  Forall registered (l3Index s) /\
  writable (disk s) = wr /\
  (wr = false -> l3Index s = []).

(** The entries of the memory tiers record such keys, the index is in order
    and within its capacity. *)
Definition named s : Prop :=
  Forall apart_entry (l1Cache s) /\
  Forall apart_entry (l2Cache s) /\
  index_ok s /\
  JsMap.size (l3Index s) <= maxL3Size config.

Lemma fs_unlink_ignore_writable p fs :
  writable (fs_unlink_ignore p fs) = writable fs.
Proof.
  unfold fs_unlink_ignore, fs_unlink. destruct (files fs !! p); reflexivity.
Qed.

(** Removing a key from the index, and a file or none from the disk. *)
Lemma index_ok_delete k s s' :
  l3Index s' = JsMap.delete k (l3Index s) ->
  writable (disk s') = writable (disk s) ->
  index_ok s -> index_ok s'.
Proof.
  intros Ei Ew (Hnd & Hreg & Hw & He). unfold index_ok. rewrite Ei, Ew.
  split; [now apply JsMapFacts.NoDup_keys_delete|].
  split; [now apply JsMapFacts.Forall_delete|].
  split; [assumption|].
  intros Hf. now rewrite (He Hf).
Qed.

Lemma enforceL3Size_loop_index_ok n s :
  index_ok s -> index_ok (enforceL3Size_loop config n s).
Proof.
  apply (enforceL3Size_loop_ind config index_ok).
  intros s' k p rest Hs' _ _.
  apply (index_ok_delete k s'); [reflexivity | | assumption].
  unfold l3_evict. simpl. apply fs_unlink_ignore_writable.
Qed.

Lemma demoteToL3_index_ok e s :
  apart (key e) -> index_ok s -> index_ok (demoteToL3 config e s).
Proof.
  intros Hk (Hnd & Hreg & Hw & He). unfold demoteToL3, fs_writeFile.
  destruct (writable (disk s)) eqn:Ew; [|unfold index_ok; rewrite Ew; auto].
  unfold enforceL3Size. apply enforceL3Size_loop_index_ok.
  unfold index_ok. simpl.
  split; [now apply JsMapFacts.NoDup_keys_set|].
  split; [|split; congruence].
  apply JsMapFacts.Forall_set; [|assumption]. now split.
Qed.

Lemma same_memory_named s s' :
  same_memory s s' -> index_ok s' ->
  JsMap.size (l3Index s') <= maxL3Size config ->
  named s -> named s'.
Proof.
  intros (E1 & E2 & _) Hi Hb (H1 & H2 & _). unfold named.
  now rewrite E1, E2.
Qed.

Lemma demoteToL3_named e s :
  apart (key e) -> named s -> named (demoteToL3 config e s).
Proof.
  intros Hk Hs. destruct Hs as (H1 & H2 & Hi & Hb).
  eapply same_memory_named; [apply demoteToL3_frame | | |].
  - now apply demoteToL3_index_ok.
  - now apply demoteToL3_bound.
  - now split.
Qed.

Lemma In_apart (m : JsMap.t Entry) k e :
  Forall apart_entry m -> JsMap.get k m = Some e -> apart (key e).
Proof.
  intros Hm Hg. apply JsMapFacts.get_Some_In in Hg.
  rewrite List.Forall_forall in Hm. now apply (Hm (k, e)).
Qed.

Lemma l2_evict_named k victim s :
  JsMap.get k (l2Cache s) = Some victim ->
  named s -> named (l2_evict config k victim s).
Proof.
  intros Hg (H1 & H2 & Hi & Hb).
  pose proof (In_apart _ _ _ H2 Hg) as Hk.
  assert (Hd : named (with_l2Cache (JsMap.delete k (l2Cache s)) s)).
  { split; [assumption|]. split; [now apply JsMapFacts.Forall_delete|].
    now split. }
  unfold l2_evict. destruct (enableDiskCache config).
  - pose proof (demoteToL3_named victim _ Hk Hd) as Hn. exact Hn.
  - exact Hd.
Qed.

Lemma enforceL2Size_loop_named n s :
  named s -> named (enforceL2Size_loop config n s).
Proof.
  apply (enforceL2Size_loop_ind config named).
  intros s' k victim Hs' _ _ Hg. now apply l2_evict_named.
Qed.

Lemma demoteToL2_named e s :
  apart (key e) -> named s -> named (demoteToL2 config e s).
Proof.
  intros Hk (H1 & H2 & Hi & Hb). rewrite demoteToL2_eq. unfold enforceL2Size.
  apply enforceL2Size_loop_named.
  destruct (demote_stats_frame config e s) as (F1 & F2 & F3 & _ & _ & F6).
  unfold named, index_ok in *. simpl. rewrite F1, F2, F3, F6.
  split; [assumption|]. split; [|now split].
  apply JsMapFacts.Forall_set; [|assumption].
  unfold apart_entry. simpl. now rewrite key_demoted_entry.
Qed.

Lemma l1_evict_named k victim s :
  JsMap.get k (l1Cache s) = Some victim ->
  named s -> named (l1_evict config k victim s).
Proof.
  intros Hg (H1 & H2 & Hi & Hb).
  pose proof (In_apart _ _ _ H1 Hg) as Hk.
  assert (Hd : named (with_l1Cache (JsMap.delete k (l1Cache s)) s)).
  { split; [now apply JsMapFacts.Forall_delete|]. now split. }
  unfold l1_evict.
  pose proof (demoteToL2_named victim _ Hk Hd) as Hn. exact Hn.
Qed.

Lemma enforceL1Size_loop_named n s :
  named s -> named (enforceL1Size_loop config n s).
Proof.
  apply (enforceL1Size_loop_ind config named).
  intros s' k victim Hs' _ _ Hg. now apply l1_evict_named.
Qed.

Lemma apart_hit_entry now k e :
  apart_entry (k, e) -> apart_entry (k, hit_entry config now e).
Proof. unfold apart_entry. simpl. now rewrite key_hit_entry. Qed.

Lemma recordHit_at_named w h s :
  named s -> named (recordHit_at config w h s).
Proof.
  intros (H1 & H2 & Hi & Hb). unfold recordHit_at.
  destruct w as [k|k]; unfold named, index_ok in *; simpl.
  - split; [|now split].
    apply JsMapFacts.Forall_mutate; [|assumption].
    intros e. apply apart_hit_entry.
  - split; [assumption|]. split; [|now split].
    apply JsMapFacts.Forall_mutate; [|assumption].
    intros e. apply apart_hit_entry.
Qed.

Lemma enforceL2Size_first_named w h s :
  named s -> named (enforceL2Size_first config w h s).
Proof.
  intros Hs. unfold enforceL2Size_first.
  destruct (enableDiskCache config);
    [|now apply recordHit_at_named, enforceL2Size_loop_named].
  destruct (maxL2Size config <? _); [|now apply recordHit_at_named].
  destruct (usable_victim _) as [k|]; [|now apply recordHit_at_named].
  destruct (JsMap.get k (l2Cache s)) as [victim|] eqn:Eg;
    [|now apply recordHit_at_named].
  unfold enforceL2Size. apply enforceL2Size_loop_named.
  assert (Hd : named
                 (demoteToL3 config victim
                    (recordHit_at config w h
                       (with_l2Cache (JsMap.delete k (l2Cache s)) s)))).
  { destruct Hs as (H1 & H2 & Hi & Hb).
    apply demoteToL3_named; [now apply (In_apart _ _ _ H2 Eg)|].
    apply recordHit_at_named.
    split; [assumption|]. split; [now apply JsMapFacts.Forall_delete|].
    now split. }
  exact Hd.
Qed.

Lemma demoteToL2_first_named promoted k h victim s :
  apart (key victim) -> named s ->
  named (demoteToL2_first config promoted k h victim s).
Proof.
  intros Hk Hs. unfold demoteToL2_first.
  destruct (enableCompression config && _).
  - destruct promoted.
    + apply demoteToL2_named; [now rewrite key_hit_entry|].
      destruct Hs as (H1 & H2 & Hi & Hb). split; [assumption|]. now split.
    + apply demoteToL2_named; [assumption | now apply recordHit_at_named].
  - apply enforceL2Size_first_named.
    destruct Hs as (H1 & H2 & Hi & Hb).
    split; [assumption|]. split; [|now split]. simpl.
    now apply JsMapFacts.Forall_set.
Qed.

Lemma place_in_l1_named now e s :
  apart (key e) -> named s -> named (place_in_l1 config now e s).
Proof.
  intros Hk (H1 & H2 & Hi & Hb). unfold place_in_l1.
  split; [|now split]. simpl. rewrite JsMapFacts.mutate_set.
  apply JsMapFacts.Forall_set; [|assumption].
  unfold apart_entry. simpl. now rewrite key_onAdd.
Qed.
End DiskNames.

(** *** The tiers between two operations *)

Section Sound.
Context {T : Type} `{Runtime T}.
Variable config : CacheConfig.
Variable kk : string.
Variable wr : bool.

Abbreviation Cache := (CacheManager T).
Abbreviation Entry := (CacheEntry T).
Implicit Types (s : Cache) (e victim : Entry) (k p : string) (n : nat).

(** An entry of the compressed tier: stored under the key it records, which
    is not empty, and evictable, as every victim of the fast tier is. *)
Definition demoted2 (ke : string * Entry) : Prop :=
  fst ke <> EmptyString /\ key (snd ke) = fst ke /\ evictable (snd ke).

(** What holds whenever a capacity loop of the fast tier is about to run. *)
Definition steady s : Prop :=
  tiers_keep good1 demoted2 s /\
  named config kk wr s /\
  JsMap.size (l2Cache s) <= maxL2Size config.

(** The fast tier is within its capacity or holds pinned entries only. *)
Definition l1_settled s : Prop :=
  JsMap.size (l1Cache s) <= maxL1Size config \/
  Forall (fun ke => pinned (snd ke)) (l1Cache s).

(** What holds between two operations. *)
Definition sound s : Prop := steady s /\ l1_settled s.

Lemma good1_hit_entry now k e :
  good1 (k, e) -> good1 (k, hit_entry config now e).
Proof. intros [Hk He]. split; [assumption|]. simpl in *. now rewrite key_hit_entry. Qed.

Lemma demoted2_hit_entry now k e :
  demoted2 (k, e) -> demoted2 (k, hit_entry config now e).
Proof.
  intros (Hk & He & Hev). split; [assumption|]. simpl in *.
  split; [now rewrite key_hit_entry | now apply evictable_hit_entry].
Qed.

Lemma good1_onAdd now k e :
  good1 (k, e) -> good1 (k, onAdd (policy config) now e).
Proof. intros [Hk He]. split; [assumption|]. simpl in *. now rewrite key_onAdd. Qed.

Lemma evictable_demoted_entry e :
  evictable e -> evictable (demoted_entry config e).
Proof. unfold evictable. now rewrite priority_demoted_entry. Qed.

Lemma good1_demoted k e :
  k <> EmptyString -> evictable e -> good1 (k, e) ->
  demoted2 (key e, demoted_entry config e).
Proof.
  intros Hk Hev [_ He]. simpl in *. unfold demoted2. simpl.
  rewrite key_demoted_entry.
  split; [congruence|]. split; [reflexivity|].
  now apply evictable_demoted_entry.
Qed.

Lemma demoted2_good2 (m : JsMap.t Entry) :
  Forall demoted2 m -> Forall good2 m.
Proof.
  apply List.Forall_impl. intros ke (Hk & _ & Hev). now split.
Qed.

Lemma steady_tiers_ok s : steady s -> tiers_ok config s.
Proof.
  intros ((Hnd & H1 & H2) & (_ & _ & _ & Hb3) & Hb2). unfold tiers_ok.
  split; [assumption|]. split; [assumption|].
  split; [now apply demoted2_good2|]. now split.
Qed.

Lemma steady_intro s :
  tiers_keep good1 demoted2 s -> named config kk wr s ->
  JsMap.size (l2Cache s) <= maxL2Size config -> steady s.
Proof. intros. now split. Qed.

(** *** The compressed tier stays within its capacity *)

Lemma overfull_good2_has_victim (m : JsMap.t Entry) :
  Forall good2 m -> m <> [] ->
  usable_victim (selectVictim (policy config) m) <> None.
Proof.
  intros Hgood Hne Hv. apply usable_victim_None in Hv as [Hv|Hv].
  - apply selectVictim_None in Hv.
    destruct m as [|[k0 e0] rest]; [congruence|].
    apply Forall_cons in Hv as [Hp _].
    apply Forall_cons in Hgood as [[_ He] _].
    now apply pinned_not_evictable in Hp.
  - apply selectVictim_Some in Hv as (e & Hin & _).
    rewrite List.Forall_forall in Hgood. apply Hgood in Hin as [Hk _].
    now apply Hk.
Qed.

Lemma enforceL2Size_l2_bound s :
  Forall good2 (l2Cache s) ->
  JsMap.size (l2Cache (enforceL2Size config s)) <= maxL2Size config.
Proof.
  intros Hgood. unfold enforceL2Size.
  now apply enforceL2Size_loop_bound.
Qed.

Lemma recordHit_at_l2_size w h s :
  JsMap.size (l2Cache (recordHit_at config w h s)) = JsMap.size (l2Cache s).
Proof.
  unfold recordHit_at. destruct w; simpl; [reflexivity|].
  apply JsMapFacts.size_mutate.
Qed.

Lemma good2_hit_entry now k e :
  good2 (k, e) -> good2 (k, hit_entry config now e).
Proof.
  intros [Hk Hev]. split; [assumption|]. simpl in *.
  now apply evictable_hit_entry.
Qed.

Lemma recordHit_at_l2_good2 w h s :
  Forall good2 (l2Cache s) -> Forall good2 (l2Cache (recordHit_at config w h s)).
Proof.
  intros Hg. unfold recordHit_at. destruct w; simpl; [assumption|].
  apply JsMapFacts.Forall_mutate; [|assumption].
  intros e. apply good2_hit_entry.
Qed.

Lemma enforceL2Size_first_l2_bound w h s :
  Forall good2 (l2Cache s) ->
  JsMap.size (l2Cache (enforceL2Size_first config w h s)) <= maxL2Size config.
Proof.
  intros Hgood. unfold enforceL2Size_first.
  destruct (enableDiskCache config).
  - destruct (maxL2Size config <? JsMap.size (l2Cache s)) eqn:E.
    + apply Nat.ltb_lt in E.
      destruct (usable_victim _) as [k|] eqn:Ev.
      * destruct (victim_is_stored _ _ _ Ev) as [victim Hget].
        rewrite Hget. apply enforceL2Size_l2_bound. simpl.
        destruct (demoteToL3_frame config victim
                    (recordHit_at config w h
                       (with_l2Cache (JsMap.delete k (l2Cache s)) s)))
          as (_ & -> & _).
        apply recordHit_at_l2_good2. simpl.
        now apply JsMapFacts.Forall_delete.
      * exfalso. apply (overfull_good2_has_victim (l2Cache s)); try assumption.
        intros Hnil. rewrite Hnil in E. simpl in E. lia.
    + apply Nat.ltb_ge in E. now rewrite recordHit_at_l2_size.
  - rewrite recordHit_at_l2_size. now apply enforceL2Size_l2_bound.
Qed.

Lemma demoteToL2_first_l2_bound promoted k h victim s :
  Forall good2 (l2Cache s) ->
  key victim <> EmptyString -> evictable victim ->
  JsMap.size (l2Cache (demoteToL2_first config promoted k h victim s))
  <= maxL2Size config.
Proof.
  intros Hgood Hk Hev. unfold demoteToL2_first.
  destruct (enableCompression config && _).
  - destruct promoted.
    + apply demoteToL2_l2; [exact Hgood | now rewrite key_hit_entry |].
      now apply evictable_hit_entry.
    + apply demoteToL2_l2; [|assumption|assumption].
      now apply recordHit_at_l2_good2.
  - apply enforceL2Size_first_l2_bound. simpl.
    apply JsMapFacts.Forall_set; [|assumption]. now split.
Qed.

(** *** The promotion *)

Lemma enforceL1Size_settles s :
  steady s ->
  steady (enforceL1Size config s) /\ l1_settled (enforceL1Size config s).
Proof.
  intros Hs. pose proof (steady_tiers_ok s Hs) as Hok.
  destruct Hs as (Hkeep & Hnamed & Hb2).
  pose proof (enforceL1Size_loop_tiers_ok config (JsMap.size (l1Cache s)) s Hok)
    as (_ & _ & _ & Hb2' & _).
  split.
  - apply steady_intro.
    + apply (enforceL1Size_loop_keep config good1 demoted2); try assumption.
      apply good1_demoted.
    + now apply enforceL1Size_loop_named.
    + exact Hb2'.
  - unfold l1_settled, enforceL1Size.
    now apply enforceL1Size_loop_bound.
Qed.

Lemma recordHit_at_steady w h s :
  steady s -> steady (recordHit_at config w h s).
Proof.
  intros (Hkeep & Hnamed & Hb2). apply steady_intro.
  - apply (recordHit_at_keep config good1 demoted2); try assumption.
    + apply good1_hit_entry.
    + apply demoted2_hit_entry.
  - now apply recordHit_at_named.
  - now rewrite recordHit_at_l2_size.
Qed.

Lemma pinned_hit_entry now e : pinned e -> pinned (hit_entry config now e).
Proof. unfold pinned, hit_entry. destruct (policy config); auto. Qed.

Lemma recordHit_at_settled w h s :
  l1_settled s -> l1_settled (recordHit_at config w h s).
Proof.
  unfold l1_settled, recordHit_at. destruct w as [k|k]; simpl; [|auto].
  rewrite JsMapFacts.size_mutate. intros [Hs|Hp]; [now left|right].
  apply JsMapFacts.Forall_mutate; [|assumption].
  intros e. apply pinned_hit_entry.
Qed.

Lemma stuck_is_pinned s :
  Forall good1 (l1Cache s) ->
  usable_victim (selectVictim (policy config) (l1Cache s)) = None ->
  Forall (fun ke => pinned (snd ke)) (l1Cache s).
Proof.
  intros Hg Hv. apply usable_victim_None in Hv as [Hv|Hv].
  - now apply selectVictim_None in Hv.
  - exfalso. apply selectVictim_Some in Hv as (e & Hin & _).
    rewrite List.Forall_forall in Hg. apply Hg in Hin as [Hk _]. now apply Hk.
Qed.

Lemma enforceL1Size_first_sound k h s :
  steady s -> sound (enforceL1Size_first config k h s).
Proof.
  intros Hs. unfold enforceL1Size_first.
  destruct (maxL1Size config <? JsMap.size (l1Cache s)) eqn:E.
  - destruct (usable_victim _) as [k'|] eqn:Ev.
    + destruct (victim_is_stored _ _ _ Ev) as [victim Hget]. rewrite Hget.
      destruct Hs as ((Hnd & H1 & H2) & Hnamed & Hb2).
      destruct (victim_evictable config s k' victim Hnd Ev Hget)
        as (Hk' & Hev & Hin).
      assert (Hkv : key victim = k').
      { rewrite List.Forall_forall in H1. now destruct (H1 _ Hin). }
      apply enforceL1Size_settles. apply steady_intro.
      * assert (Hd : tiers_keep good1 demoted2
                       (demoteToL2_first config (String.eqb k' k) k h victim
                          (with_l1Cache (JsMap.delete k' (l1Cache s)) s))).
        { apply (demoteToL2_first_keep config good1 demoted2) with (k' := k');
            try assumption.
          - apply good1_hit_entry.
          - apply demoted2_hit_entry.
          - apply good1_demoted.
          - split; [now apply JsMapFacts.NoDup_keys_delete|].
            split; [now apply JsMapFacts.Forall_delete | assumption].
          - rewrite List.Forall_forall in H1. now apply H1. }
        exact Hd.
      * assert (Hd : named config kk wr
                       (demoteToL2_first config (String.eqb k' k) k h victim
                          (with_l1Cache (JsMap.delete k' (l1Cache s)) s))).
        { destruct Hnamed as (N1 & N2 & N3).
          apply demoteToL2_first_named;
            [exact (In_apart kk _ _ _ N1 Hget)|].
          split; [now apply JsMapFacts.Forall_delete | now split]. }
        exact Hd.
      * simpl. apply demoteToL2_first_l2_bound; [|congruence|assumption].
        simpl. now apply demoted2_good2.
    + split; [now apply recordHit_at_steady|].
      apply recordHit_at_settled. right.
      destruct Hs as ((_ & H1 & _) & _). now apply stuck_is_pinned.
  - apply Nat.ltb_ge in E. split; [now apply recordHit_at_steady|].
    apply recordHit_at_settled. now left.
Qed.

Lemma place_in_l1_steady now e s :
  apart kk (key e) -> steady s -> steady (place_in_l1 config now e s).
Proof.
  intros Hk (Hkeep & Hnamed & Hb2). apply steady_intro.
  - apply (place_in_l1_keep config good1 demoted2); try assumption.
    + apply good1_onAdd.
    + split; [exact (proj1 Hk) | reflexivity].
  - now apply place_in_l1_named.
  - exact Hb2.
Qed.

Lemma promoteToL1_sound h e s :
  apart kk (key e) -> steady s -> sound (promoteToL1 config h e s).
Proof.
  intros Hk Hs. unfold promoteToL1.
  assert (Hl2 : steady (with_l2Cache (JsMap.delete (key e) (l2Cache s)) s)).
  { destruct Hs as ((Hnd & H1 & H2) & (N1 & N2 & N3) & Hb2). apply steady_intro.
    - split; [assumption|]. split; [assumption|].
      now apply JsMapFacts.Forall_delete.
    - split; [assumption|]. split; [now apply JsMapFacts.Forall_delete|].
      exact N3.
    - simpl. pose proof (JsMapFacts.size_delete_le (key e) (l2Cache s)). lia. }
  destruct (level e).
  - now apply enforceL1Size_first_sound, place_in_l1_steady.
  - now apply enforceL1Size_first_sound, place_in_l1_steady.
  - destruct (truthy_path _) as [p|];
      [|now apply enforceL1Size_first_sound, place_in_l1_steady].
    apply enforceL1Size_settles.
    apply place_in_l1_steady; [now rewrite key_hit_entry|].
    destruct Hs as ((Hnd & H1 & H2) & (N1 & N2 & Hi & Hb3) & Hb2).
    apply steady_intro; [now split | | exact Hb2].
    split; [assumption|]. split; [assumption|]. simpl.
    split; [|pose proof (JsMapFacts.size_delete_le (key e) (l3Index s)); lia].
    apply (index_ok_delete config kk wr (key e) s); [reflexivity | | assumption].
    simpl. apply fs_unlink_ignore_writable.
Qed.
End Sound.

(** *** The operations keep the tiers sound *)

Section SoundOperations.
Context {T : Type} `{Runtime T}.
Variable config : CacheConfig.
Variable kk : string.
Variable wr : bool.

Abbreviation Cache := (CacheManager T).
Abbreviation Entry := (CacheEntry T).
Implicit Types (s : Cache) (e victim : Entry) (k p : string) (n : nat).

Lemma steady_same s s' :
  l1Cache s' = l1Cache s -> l2Cache s' = l2Cache s ->
  l3Index s' = l3Index s -> writable (disk s') = writable (disk s) ->
  steady config kk wr s -> steady config kk wr s'.
Proof.
  intros E1 E2 E3 Ew. unfold steady, tiers_keep, named, index_ok.
  now rewrite E1, E2, E3, Ew.
Qed.

Lemma sound_same s s' :
  l1Cache s' = l1Cache s -> l2Cache s' = l2Cache s ->
  l3Index s' = l3Index s -> writable (disk s') = writable (disk s) ->
  sound config kk wr s -> sound config kk wr s'.
Proof.
  intros E1 E2 E3 Ew [Hs Hl]. split; [now apply (steady_same s)|].
  unfold l1_settled. now rewrite E1.
Qed.

Lemma loadFromDisk_writable p now s :
  writable (disk (fst (loadFromDisk p now s))) = writable (disk s).
Proof.
  destruct (loadFromDisk_effect p now s) as (_ & [-> | [_ ->]]);
    [reflexivity | apply fs_unlink_ignore_writable].
Qed.

Lemma loadFromDisk_sound p now s :
  sound config kk wr s -> sound config kk wr (fst (loadFromDisk p now s)).
Proof.
  destruct (loadFromDisk_frame p now s) as (E1 & E2 & _).
  destruct (loadFromDisk_effect p now s) as (E3 & _).
  apply sound_same; try assumption. apply loadFromDisk_writable.
Qed.

Lemma get_sound k startTime now s :
  sound config kk wr s -> sound config kk wr (fst (get config k startTime now s)).
Proof.
  intros Hs.
  apply (get_paths config (fun r => sound config kk wr (fst r))); simpl.
  - intros e _. destruct Hs as [Hst Hl].
    change (sound config kk wr
              (recordHit_at config (InL1 k) (mkHit l1 (now - startTime) now) s)).
    split; [now apply recordHit_at_steady | now apply recordHit_at_settled].
  - intros e v _ H2 _. destruct Hs as [Hst _].
    apply promoteToL1_sound; [|exact Hst].
    apply live_Some in H2 as [Hin _].
    destruct Hst as (_ & (_ & N2 & _) & _).
    rewrite List.Forall_forall in N2. exact (N2 _ Hin).
  - intros e b v _ H2 _ _. destruct Hs as [Hst _].
    apply live_Some in H2 as [Hin _].
    destruct Hst as ((Hnd & H1 & Hd2) & (N1 & N2 & Hi & Hb3) & Hb2).
    assert (Hke : apart kk (key e)).
    { rewrite List.Forall_forall in N2. exact (N2 _ Hin). }
    assert (Hde : demoted2 (k, e)).
    { rewrite List.Forall_forall in Hd2. exact (Hd2 _ Hin). }
    apply promoteToL1_sound; [exact Hke|].
    apply steady_intro.
    + split; [assumption|]. split; [assumption|]. simpl.
      apply JsMapFacts.Forall_mutate; [|assumption].
      intros e0 _. exact Hde.
    + split; [assumption|]. split; [|now split]. simpl.
      apply JsMapFacts.Forall_mutate; [|assumption].
      intros e0 _. exact Hke.
    + simpl. now rewrite JsMapFacts.size_mutate.
  - intros. exact Hs.
  - intros p s1 data prio _ _ _ Hp Hl.
    pose proof (loadFromDisk_sound p now s Hs) as Hs1. rewrite Hl in Hs1.
    simpl in Hs1. destruct Hs1 as [Hst1 _].
    apply promoteToL1_sound; [|exact Hst1]. simpl.
    destruct (JsMap.get k (l3Index s)) as [p'|] eqn:Eg; [|discriminate].
    apply JsMapFacts.get_Some_In in Eg.
    destruct Hs as ((_ & (_ & _ & (_ & Hreg & _) & _) & _) & _).
    rewrite List.Forall_forall in Hreg. now destruct (Hreg _ Eg).
  - intros p s1 _ _ _ _ Hl.
    pose proof (loadFromDisk_sound p now s Hs) as Hs1. rewrite Hl in Hs1.
    simpl in Hs1. revert Hs1. now apply sound_same.
  - intros _ _ _. revert Hs. now apply sound_same.
Qed.

Lemma set_sound k v prio ttl_arg now s :
  apart kk k ->
  sound config kk wr s -> sound config kk wr (set config k v prio ttl_arg now s).
Proof.
  intros Hk [((Hnd & H1 & H2) & (N1 & N2 & Hi & Hb3) & Hb2) _].
  rewrite set_eq. cbv zeta.
  assert (Hl : sound config kk wr
                 (enforceL1Size config (set_insert config k v prio ttl_arg now s))).
  { apply enforceL1Size_settles. apply steady_intro.
    - unfold tiers_keep. rewrite set_insert_l1Cache.
      split; [now apply JsMapFacts.NoDup_keys_set|].
      split; [|exact H2].
      apply JsMapFacts.Forall_set; [|exact H1].
      split; [exact (proj1 Hk)|]. unfold set_entry. simpl. now rewrite key_onAdd.
    - unfold named. rewrite set_insert_l1Cache.
      split; [|split; [exact N2 | now split]].
      apply JsMapFacts.Forall_set; [|exact N1].
      unfold apart_entry, set_entry. simpl. now rewrite key_onAdd.
    - exact Hb2. }
  destruct (predictiveCaching config); [|exact Hl].
  revert Hl. now apply sound_same.
Qed.

Lemma delete_sound k s :
  sound config kk wr s -> sound config kk wr (fst (delete k s)).
Proof.
  intros [((Hnd & H1 & H2) & (N1 & N2 & Hi & Hb3) & Hb2) Hl].
  assert (Hm : tiers_keep good1 demoted2
                 (with_l2Cache (JsMap.delete k (l2Cache s))
                    (with_l1Cache (JsMap.delete k (l1Cache s)) s))).
  { split; [now apply JsMapFacts.NoDup_keys_delete|].
    split; now apply JsMapFacts.Forall_delete. }
  assert (Hb : JsMap.size (JsMap.delete k (l2Cache s)) <= maxL2Size config).
  { pose proof (JsMapFacts.size_delete_le k (l2Cache s)). lia. }
  assert (Hl' : l1_settled config
                  (with_l2Cache (JsMap.delete k (l2Cache s))
                     (with_l1Cache (JsMap.delete k (l1Cache s)) s))).
  { destruct Hl as [Hl|Hl]; [left|right]; simpl.
    - pose proof (JsMapFacts.size_delete_le k (l1Cache s)). lia.
    - now apply JsMapFacts.Forall_delete. }
  assert (Hd : sound config kk wr
                 (with_l2Cache (JsMap.delete k (l2Cache s))
                    (with_l1Cache (JsMap.delete k (l1Cache s)) s))).
  { split; [|exact Hl']. apply steady_intro; [exact Hm | | exact Hb].
    split; [now apply JsMapFacts.Forall_delete|].
    split; [now apply JsMapFacts.Forall_delete | now split]. }
  unfold delete. simpl.
  destruct (truthy_path (JsMap.get k (l3Index s))) as [p|]; [|exact Hd].
  destruct (fs_unlink p (disk s)) as [fs'|] eqn:Eu; [|exact Hd].
  simpl. split; [|exact Hl'].
  apply steady_intro; [exact Hm | | exact Hb].
  split; [now apply JsMapFacts.Forall_delete|].
  split; [now apply JsMapFacts.Forall_delete|]. simpl.
  split; [|pose proof (JsMapFacts.size_delete_le k (l3Index s)); lia].
  apply (index_ok_delete config kk wr k s); [reflexivity | | assumption].
  simpl. unfold fs_unlink in Eu.
  destruct (files (disk s) !! p); [|discriminate].
  now inversion Eu.
Qed.

Lemma unlink_all_writable (idx : JsMap.t string) fs :
  writable (fold_left (fun fs kp => fs_unlink_ignore (snd kp) fs) idx fs)
  = writable fs.
Proof.
  revert fs. induction idx as [|kp idx IH]; intros fs; simpl; [reflexivity|].
  rewrite IH. apply fs_unlink_ignore_writable.
Qed.

Lemma clear_sound s : sound config kk wr s -> sound config kk wr (clear config s).
Proof.
  intros [(_ & (_ & _ & (Hnd & Hreg & Hw & He) & Hb3) & _) _].
  unfold clear, sound, steady, tiers_keep, named, index_ok, l1_settled.
  destruct (enableDiskCache config); simpl.
  - rewrite unlink_all_writable.
    repeat (split; try constructor); auto; lia.
  - repeat (split; try constructor); auto; lia.
Qed.

Lemma clean_l3_step_index now s kp :
  index_ok config kk wr s /\ JsMap.size (l3Index s) <= maxL3Size config ->
  index_ok config kk wr (clean_l3_step now s kp) /\
  JsMap.size (l3Index (clean_l3_step now s kp)) <= maxL3Size config.
Proof.
  intros [Hi Hb]. unfold clean_l3_step.
  destruct (loadFromDisk_effect (snd kp) now s) as (E3 & _).
  pose proof (loadFromDisk_writable (snd kp) now s) as Ew.
  destruct (loadFromDisk (snd kp) now s) as [s1 [r|]]; simpl in *.
  - unfold index_ok in *. now rewrite E3, Ew.
  - split.
    + apply (index_ok_delete config kk wr (fst kp) s); simpl; try assumption.
      now rewrite E3.
    + rewrite E3. pose proof (JsMapFacts.size_delete_le (fst kp) (l3Index s)).
      lia.
Qed.

Lemma clean_l3_fold_index now (idx : JsMap.t string) s :
  index_ok config kk wr s /\ JsMap.size (l3Index s) <= maxL3Size config ->
  index_ok config kk wr (fold_left (clean_l3_step now) idx s) /\
  JsMap.size (l3Index (fold_left (clean_l3_step now) idx s))
  <= maxL3Size config.
Proof.
  revert s. induction idx as [|kp idx IH]; intros s Hs; simpl; [exact Hs|].
  apply IH. now apply clean_l3_step_index.
Qed.

Lemma size_filter_le {V} (f : string * V -> bool) (m : JsMap.t V) :
  JsMap.size (List.filter f m) <= JsMap.size m.
Proof.
  unfold JsMap.size. induction m as [|kv m IH]; simpl; [lia|].
  destruct (f kv); simpl; lia.
Qed.

Lemma cleanExpiredEntries_sound now s :
  sound config kk wr s -> sound config kk wr (cleanExpiredEntries now s).
Proof.
  intros [((Hnd & H1 & H2) & (N1 & N2 & Hi & Hb3) & Hb2) Hl].
  pose proof (cleanExpiredEntries_l1Cache now s) as E1.
  pose proof (cleanExpiredEntries_l2Cache now s) as E2.
  assert (E3 : index_ok config kk wr (cleanExpiredEntries now s) /\
               JsMap.size (l3Index (cleanExpiredEntries now s))
               <= maxL3Size config).
  { unfold cleanExpiredEntries. apply clean_l3_fold_index. now split. }
  destruct E3 as [Hi' Hb3'].
  unfold sound, steady, tiers_keep, named, l1_settled. rewrite E1, E2.
  pose proof (size_filter_le (fun ke => negb (isExpired now (snd ke)))
                             (l2Cache s)).
  pose proof (size_filter_le (fun ke => negb (isExpired now (snd ke)))
                             (l1Cache s)).
  split; [split; [|split]|].
  - split; [now apply NoDup_keys_filter|].
    split; now apply Forall_filter_keep.
  - split; [now apply Forall_filter_keep|].
    split; [now apply Forall_filter_keep | now split].
  - lia.
  - destruct Hl as [Hl|Hl]; [left; lia | right].
    now apply Forall_filter_keep.
Qed.

Lemma runMaintenance_sound now s :
  sound config kk wr s -> sound config kk wr (runMaintenance config now s).
Proof.
  intros Hs. apply cleanExpiredEntries_sound with (now := now) in Hs.
  unfold runMaintenance. destruct (predictiveCaching config); [|exact Hs].
  revert Hs. now apply sound_same.
Qed.

(** The key that the operation sets, if it is a [set], is not empty and
    has the digest of [kk] only when it is [kk]. *)
Definition sets_apart (op : Op T) : Prop :=
  match op with
  | OpSet k _ _ _ _ => apart kk k
  | _ => True
  end.

Lemma step_sound op s :
  sets_apart op -> sound config kk wr s -> sound config kk wr (step config s op).
Proof.
  destruct op; simpl; intros Hop.
  - apply get_sound.
  - now apply set_sound.
  - apply delete_sound.
  - apply clear_sound.
  - apply runMaintenance_sound.
Qed.

Lemma run_sound_from (ops : list (Op T)) s :
  Forall sets_apart ops ->
  sound config kk wr s -> sound config kk wr (run config ops s).
Proof.
  unfold run. revert s. induction ops as [|op ops' IH]; intros s Hops Hs; simpl;
    [exact Hs|].
  apply Forall_cons in Hops as [Hop Hops].
  apply IH; [exact Hops|]. now apply step_sound.
Qed.
End SoundOperations.

Lemma run_sound {T : Type} `{Runtime T} (config : CacheConfig) (kk : string)
      (fs : FileSystem) (ops : list (Op T)) :
  Forall (sets_apart kk) ops ->
  sound config kk (writable fs) (run config ops (new_cache fs)).
Proof.
  intros Hops. apply run_sound_from; [exact Hops|].
  unfold sound, steady, tiers_keep, named, index_ok, l1_settled, new_cache.
  simpl. repeat (split; try constructor); auto; lia.
Qed.

(** *** One eviction for each tier *)

Section OneEviction.
Context {T : Type} `{Runtime T}.
Variable config : CacheConfig.

Abbreviation Cache := (CacheManager T).
Abbreviation Entry := (CacheEntry T).
Implicit Types (s : Cache) (e victim : Entry) (k p : string) (n : nat).

(** The test of a capacity loop on the tier [m], when it evicts [k]:
    [m.size > capacity] and [selectVictim(m)] is the key [k]. *)
Definition evicts k (capacity : nat) (m : JsMap.t Entry) : bool :=
  (capacity <? JsMap.size m) &&
  match usable_victim (selectVictim (policy config) m) with
  | Some victimKey => String.eqb victimKey k
  | None => false
  end.

Lemma evictable_or_pinned e : evictable e \/ pinned e.
Proof. unfold evictable, pinned. destruct (priority e); auto. Qed.

Lemma selectVictim_pinned (m : JsMap.t Entry) :
  Forall (fun ke => pinned (snd ke)) m -> selectVictim (policy config) m = None.
Proof.
  intros Hp. destruct (selectVictim (policy config) m) as [k|] eqn:Ev;
    [|reflexivity].
  apply selectVictim_Some in Ev as (e & Hin & Hev).
  rewrite List.Forall_forall in Hp. apply Hp in Hin.
  now apply pinned_not_evictable in Hin.
Qed.

Lemma enforceL1Size_loop_stuck n s :
  usable_victim (selectVictim (policy config) (l1Cache s)) = None ->
  enforceL1Size_loop config n s = s.
Proof.
  intros Hv. destruct n as [|n]; [reflexivity|].
  rewrite enforceL1Size_loop_S, Hv. now destruct (_ <? _).
Qed.

Lemma enforceL2Size_loop_room n s :
  JsMap.size (l2Cache s) <= maxL2Size config ->
  enforceL2Size_loop config n s = s.
Proof.
  intros Hs. destruct n as [|n]; [reflexivity|].
  rewrite enforceL2Size_loop_S.
  assert (E : (maxL2Size config <? JsMap.size (l2Cache s)) = false)
    by (apply Nat.ltb_ge; lia).
  now rewrite E.
Qed.

(** The fast tier one entry over its capacity, or with [k] as its only
    evictable key: [enforceL1Size] evicts one entry at most. *)
Lemma enforceL1Size_once k s :
  NoDup (JsMap.keys (l1Cache s)) ->
  JsMap.size (l1Cache s) <= S (maxL1Size config) \/
  (forall k' e, In (k', e) (l1Cache s) -> evictable e -> k' = k) ->
  if evicts k (maxL1Size config) (l1Cache s)
  then exists victim,
      k <> EmptyString /\ JsMap.get k (l1Cache s) = Some victim /\
      enforceL1Size config s = l1_evict config k victim s
  else JsMap.get k (l1Cache (enforceL1Size config s)) = JsMap.get k (l1Cache s).
Proof.
  intros Hnd Hpre. unfold evicts, enforceL1Size.
  destruct (JsMap.size (l1Cache s)) as [|n] eqn:En; [reflexivity|].
  rewrite enforceL1Size_loop_S, En.
  destruct (maxL1Size config <? S n) eqn:E; simpl; [|reflexivity].
  apply Nat.ltb_lt in E.
  destruct (usable_victim _) as [k'|] eqn:Ev; [|reflexivity].
  destruct (victim_is_stored _ _ _ Ev) as [victim Hget]. rewrite Hget.
  destruct (victim_evictable config s k' victim Hnd Ev Hget) as (Hk' & Hev & Hin).
  assert (Hstop : enforceL1Size_loop config n (l1_evict config k' victim s)
                  = l1_evict config k' victim s).
  { destruct Hpre as [Hsz | Honly].
    - apply enforceL1Size_loop_room. rewrite l1_evict_l1Cache.
      pose proof (JsMapFacts.size_delete_lt k' victim (l1Cache s) Hget). lia.
    - apply enforceL1Size_loop_stuck. rewrite l1_evict_l1Cache.
      rewrite selectVictim_pinned; [reflexivity|].
      apply List.Forall_forall. intros [k0 e0] Hin0. simpl.
      apply JsMapFacts.In_delete in Hin0 as [Hin0 Hne]. simpl in Hne.
      destruct (evictable_or_pinned e0) as [He0|He0]; [|exact He0].
      exfalso. apply Hne.
      rewrite (Honly k0 e0 Hin0 He0). symmetry. now apply (Honly k' victim). }
  rewrite Hstop.
  destruct (String.eqb_spec k' k) as [->|Hne].
  - exists victim. auto.
  - rewrite l1_evict_l1Cache. apply JsMapFacts.get_delete_ne. congruence.
Qed.

(** The compressed tier one entry over its capacity: [enforceL2Size] evicts
    one entry at most. *)
Lemma enforceL2Size_once k s :
  JsMap.size (l2Cache s) <= S (maxL2Size config) ->
  if evicts k (maxL2Size config) (l2Cache s)
  then exists victim,
      JsMap.get k (l2Cache s) = Some victim /\
      enforceL2Size config s = l2_evict config k victim s
  else JsMap.get k (l2Cache (enforceL2Size config s)) = JsMap.get k (l2Cache s).
Proof.
  intros Hsz. unfold evicts, enforceL2Size.
  destruct (JsMap.size (l2Cache s)) as [|n] eqn:En; [reflexivity|].
  rewrite enforceL2Size_loop_S, En.
  destruct (maxL2Size config <? S n) eqn:E; simpl; [|reflexivity].
  apply Nat.ltb_lt in E.
  destruct (usable_victim _) as [k'|] eqn:Ev; [|reflexivity].
  destruct (victim_is_stored _ _ _ Ev) as [victim Hget]. rewrite Hget.
  assert (Hstop : enforceL2Size_loop config n (l2_evict config k' victim s)
                  = l2_evict config k' victim s).
  { apply enforceL2Size_loop_room. rewrite l2_evict_l2Cache.
    pose proof (JsMapFacts.size_delete_lt k' victim (l2Cache s) Hget). lia. }
  rewrite Hstop.
  destruct (String.eqb_spec k' k) as [->|Hne].
  - exists victim. auto.
  - rewrite l2_evict_l2Cache. apply JsMapFacts.get_delete_ne. congruence.
Qed.
End OneEviction.

(** *** The file of the entry registered last *)

Section DiskKeeps.
Context {T : Type} `{Runtime T}.
Variable config : CacheConfig.

Abbreviation Cache := (CacheManager T).
Abbreviation Entry := (CacheEntry T).
Implicit Types (s : Cache) (e victim : Entry) (k p : string) (n : nat).

Lemma length_append (a b : string) :
  String.length (a ++ b) = String.length a + String.length b.
Proof. induction a as [|c a IH]; simpl; [reflexivity | now rewrite IH]. Qed.

Lemma append_inv_tail (a b t : string) : (a ++ t = b ++ t)%string -> a = b.
Proof.
  revert b. induction a as [|c a IH]; intros [|c' b] Heq; simpl in Heq.
  - reflexivity.
  - apply (f_equal String.length) in Heq.
    rewrite !length_append in Heq. simpl in Heq. lia.
  - apply (f_equal String.length) in Heq.
    rewrite !length_append in Heq. simpl in Heq. lia.
  - inversion Heq; subst. f_equal. now apply IH.
Qed.

(** Keys with the same file have the same digest. *)
Lemma filePath_of_digest k k' :
  filePath_of config k = filePath_of config k' -> sha256_hex k = sha256_hex k'.
Proof.
  intros Heq. unfold filePath_of in Heq.
  apply String.app_inj in Heq. apply String.app_inj in Heq.
  now apply append_inv_tail in Heq.
Qed.

Lemma JsMap_get_snoc {V} k (v : V) (m : JsMap.t V) :
  JsMap.get k m = None -> JsMap.get k (m ++ [(k, v)]) = Some v.
Proof.
  induction m as [|[k' v'] m IH]; simpl; [now rewrite String.eqb_refl|].
  destruct (String.eqb k k'); [discriminate | exact IH].
Qed.

Lemma JsMap_get_absent {V} k (m : JsMap.t V) :
  ~ In k (JsMap.keys m) -> JsMap.get k m = None.
Proof.
  intros Hk. destruct (JsMap.get k m) as [v|] eqn:E; [|reflexivity].
  exfalso. apply Hk. apply JsMapFacts.get_Some_In in E.
  unfold JsMap.keys. apply in_map_iff. exists (k, v). auto.
Qed.

(** With room for one entry at least, the loop of [enforceL3Size] keeps the
    entry registered last, and its file when no older key has its digest. *)
Lemma enforceL3Size_loop_keeps_last n s :
  1 <= maxL3Size config ->
  forall older k c,
    l3Index s = older ++ [(k, filePath_of config k)] ->
    NoDup (JsMap.keys (l3Index s)) ->
    Forall (registered config k) older ->
    files (disk s) !! filePath_of config k = Some c ->
    JsMap.get k (l3Index (enforceL3Size_loop config n s))
    = Some (filePath_of config k) /\
    files (disk (enforceL3Size_loop config n s)) !! filePath_of config k
    = Some c.
Proof.
  intros Hcap. revert s.
  induction n as [|n IH]; intros s older k c Hidx Hnd Hreg Hfile.
  - simpl. split; [|exact Hfile]. rewrite Hidx. apply JsMap_get_snoc.
    apply JsMap_get_absent. rewrite Hidx in Hnd. unfold JsMap.keys in Hnd.
    rewrite map_app in Hnd. apply NoDup_app in Hnd as (_ & Hnd & _).
    intros Hin. apply (Hnd k); [now apply list_elem_of_In|].
    simpl. apply list_elem_of_In. now left.
  - assert (Hk : JsMap.get k older = None).
    { apply JsMap_get_absent. rewrite Hidx in Hnd. unfold JsMap.keys in Hnd.
      rewrite map_app in Hnd. apply NoDup_app in Hnd as (_ & Hnd & _).
      intros Hin. apply (Hnd k); [now apply list_elem_of_In|].
      simpl. apply list_elem_of_In. now left. }
    rewrite enforceL3Size_loop_S.
    destruct (maxL3Size config <? JsMap.size (l3Index s)) eqn:E.
    + apply Nat.ltb_lt in E.
      destruct older as [|[k0 p0] older'].
      { rewrite Hidx in E. simpl in E. lia. }
      rewrite Hidx. simpl.
      apply Forall_cons in Hreg as [[[_ Hk0] Hp0] Hreg]. simpl in Hk0, Hp0.
      assert (Hne : k0 <> k).
      { intros ->. simpl in Hk. now rewrite String.eqb_refl in Hk. }
      assert (Hidx' : l3Index (l3_evict k0 p0 s)
                      = older' ++ [(k, filePath_of config k)]).
      { unfold l3_evict. simpl. rewrite Hidx. simpl.
        rewrite String.eqb_refl. apply JsMap_delete_absent.
        rewrite Hidx in Hnd. simpl in Hnd. apply NoDup_cons in Hnd as [Hk0' _].
        apply JsMap_get_absent. intros Hin. apply Hk0'.
        now apply list_elem_of_In. }
      apply (IH (l3_evict k0 p0 s) older' k c); try assumption.
      * rewrite Hidx'. rewrite Hidx in Hnd. simpl in Hnd.
        now apply NoDup_cons in Hnd as [_ Hnd].
      * unfold l3_evict. simpl. rewrite <- Hfile.
        apply fs_unlink_ignore_other. rewrite Hp0.
        intros Heq. apply Hne. apply Hk0. now apply filePath_of_digest.
    + split; [|exact Hfile]. rewrite Hidx. now apply JsMap_get_snoc.
Qed.

(** [demoteToL3] on a disk that accepts the write and an index with room
    for one entry at least, no other key of which has the digest of the
    entry's key: the key is registered with its file, which holds the record
    of the entry. *)
Lemma demoteToL3_stores e s :
  1 <= maxL3Size config ->
  index_ok config (key e) true s ->
  JsMap.size (l3Index s) <= maxL3Size config ->
  JsMap.get (key e) (l3Index (demoteToL3 config e s))
  = Some (filePath_of config (key e)) /\
  files (disk (demoteToL3 config e s)) !! filePath_of config (key e)
  = Some (FileRecord (disk_record (with_level l3 e))).
Proof.
  intros Hcap (Hnd & Hreg & Hw & _) Hb.
  unfold demoteToL3, fs_writeFile. rewrite Hw. simpl.
  destruct (JsMap.get (key e) (l3Index s)) as [p0|] eqn:Eg.
  - rewrite enforceL3Size_room.
    + simpl. split; [apply JsMapFacts.get_set_eq | apply lookup_insert_eq].
    + simpl. rewrite (JsMap_size_set (key e) _ p0).
      assert (Hset : JsMap.set (key e) p0 (l3Index s) = l3Index s).
      { clear -Eg. induction (l3Index s) as [|[k' v'] m IH]; simpl in *;
          [discriminate|].
        destruct (String.eqb_spec (key e) k') as [->|Hne].
        - now inversion Eg.
        - now rewrite IH. }
      now rewrite Hset.
  - unfold enforceL3Size.
    apply (enforceL3Size_loop_keeps_last _ _ Hcap (l3Index s)).
    + simpl. now apply JsMap_set_absent.
    + simpl. now apply JsMapFacts.NoDup_keys_set.
    + exact Hreg.
    + simpl. apply lookup_insert_eq.
Qed.
End DiskKeeps.

(** *** [set] followed by [get] *)

Section SetThenGet.
Context {T : Type} `{RuntimeLaws T}.
Variable config : CacheConfig.

Abbreviation Cache := (CacheManager T).
Abbreviation Entry := (CacheEntry T).
Implicit Types (s : Cache) (e victim : Entry) (k p : string) (n : nat).

(** Whether [set(k, v)] leaves the new entry in no tier: the policy selects
    it as the victim of the fast tier, then as the victim of the compressed
    tier, and the disk tier does not take it, being disabled, or refusing the
    write, or having room for no entry. *)
Definition set_drops k (v : T) prio ttl_arg now s : bool :=
  let entry := set_entry config k v prio ttl_arg now in
  evicts config k (maxL1Size config) (JsMap.set k entry (l1Cache s)) &&
  evicts config k (maxL2Size config)
         (JsMap.set k (demoted_entry config entry) (l2Cache s)) &&
  negb (enableDiskCache config && writable (disk s) && (0 <? maxL3Size config)).

(** What [get] returns depends on the tiers and the disk alone. *)
Lemma loadFromDisk_result p now s s' :
  disk s' = disk s ->
  snd (loadFromDisk p now s') = snd (loadFromDisk p now s).
Proof.
  intros E. unfold loadFromDisk. rewrite E. repeat case_match; reflexivity.
Qed.

Lemma get_result_same k startTime now s s' :
  l1Cache s' = l1Cache s -> l2Cache s' = l2Cache s ->
  l3Index s' = l3Index s -> disk s' = disk s ->
  snd (get config k startTime now s') = snd (get config k startTime now s).
Proof.
  intros E1 E2 E3 E4. unfold get. rewrite E1.
  destruct (live now (JsMap.get k (l1Cache s))); [reflexivity|].
  unfold get_l2. rewrite E2.
  destruct (live now (JsMap.get k (l2Cache s))) as [e|].
  { destruct (payload e); [reflexivity|].
    destruct (gunzip _ ≫= json_parse); reflexivity. }
  unfold get_l3. rewrite E3.
  destruct (enableDiskCache config); [|reflexivity].
  destruct (truthy_path _) as [p|]; [|reflexivity].
  pose proof (loadFromDisk_result p now s s' E4) as Hl.
  destruct (loadFromDisk p now s') as [a [[d pr]|]];
    destruct (loadFromDisk p now s) as [b [[d' pr']|]]; simpl in *;
    congruence.
Qed.

Lemma get_fast_value k e v startTime now s :
  JsMap.get k (l1Cache s) = Some e ->
  isExpired now e = false -> payload e = Raw v ->
  snd (get config k startTime now s) = Returned (Some v).
Proof.
  intros Hg Hl Hp. unfold get, live. rewrite Hg, Hl. simpl.
  unfold value. now rewrite Hp.
Qed.

Lemma get_compressed_value k e v startTime now s :
  JsMap.get k (l1Cache s) = None ->
  JsMap.get k (l2Cache s) = Some e ->
  isExpired now e = false -> holds_value (payload e) v ->
  snd (get config k startTime now s) = Returned (Some v).
Proof.
  intros H1 H2 Hl Hp. unfold get, get_l2, live. rewrite H1, H2, Hl.
  destruct Hp as [Hp|Hp]; rewrite Hp; simpl.
  - unfold value. now rewrite Hp.
  - rewrite gunzip_gzip. simpl. now rewrite parse_stringify.
Qed.

Lemma get_not_found k startTime now s :
  JsMap.get k (l1Cache s) = None ->
  JsMap.get k (l2Cache s) = None ->
  enableDiskCache config = false \/ JsMap.get k (l3Index s) = None ->
  snd (get config k startTime now s) = Returned None.
Proof.
  intros H1 H2 H3. unfold get, get_l2, get_l3, live. rewrite H1, H2.
  destruct H3 as [-> | ->]; [reflexivity|].
  now destruct (enableDiskCache config).
Qed.

Lemma holds_value_demoted e v :
  payload e = Raw v -> holds_value (payload (demoted_entry config e)) v.
Proof.
  intros Hp. unfold demoted_entry, holds_value.
  destruct (compresses config e); simpl; rewrite Hp; auto.
Qed.

(** The entry [set] stores is the victim of the fast tier only if it is
    evictable and the tier is over its capacity. *)
Lemma evicts_pinned k e capacity (m : JsMap.t Entry) :
  NoDup (JsMap.keys m) -> pinned e ->
  evicts config k capacity (JsMap.set k e m) = false.
Proof.
  intros Hnd Hp. unfold evicts.
  destruct (capacity <? _); [simpl|reflexivity].
  destruct (usable_victim _) as [k'|] eqn:Ev; [|reflexivity].
  destruct (String.eqb_spec k' k) as [->|Hne]; [|reflexivity].
  exfalso. apply usable_victim_Some in Ev as [Ev _].
  apply selectVictim_Some in Ev as (e' & Hin & Hev).
  apply JsMapFacts.NoDup_In_get in Hin;
    [|now apply JsMapFacts.NoDup_keys_set].
  rewrite JsMapFacts.get_set_eq in Hin. inversion Hin; subst e'.
  now apply pinned_not_evictable in Hp.
Qed.

Lemma evicts_room k capacity (m : JsMap.t Entry) :
  JsMap.size m <= capacity -> evicts config k capacity m = false.
Proof.
  intros Hs. unfold evicts.
  assert (E : (capacity <? JsMap.size m) = false) by (apply Nat.ltb_ge; lia).
  now rewrite E.
Qed.

(** On a sound cache, [set(k, v)] followed by [get(k)] before the entry
    expires returns [v], unless [set] has dropped the entry. *)
Lemma set_then_get_sound k v prio ttl_arg now startTime now' s :
  sound config k (writable (disk s)) s ->
  isExpired now' (createEntry config k v prio ttl_arg now) = false ->
  snd (get config k startTime now' (set config k v prio ttl_arg now s))
  = if set_drops k v prio ttl_arg now s
    then Returned None else Returned (Some v).
Proof.
  intros [((Hnd & H1 & H2) & (N1 & N2 & Hi & Hb3) & Hb2) Hl] Hlive.
  pose proof (set_entry_live config k v prio ttl_arg now now') as Hlive'.
  rewrite Hlive in Hlive'.
  pose proof (payload_set_entry config k v prio ttl_arg now) as Hpay.
  assert (Hkey : key (set_entry config k v prio ttl_arg now) = k).
  { unfold set_entry. now rewrite key_onAdd. }
  unfold set_drops. cbv zeta.
  set (entry := set_entry config k v prio ttl_arg now) in *.
  set (s1 := set_insert config k v prio ttl_arg now s).
  assert (Hmain : snd (get config k startTime now' (enforceL1Size config s1))
                  = if evicts config k (maxL1Size config)
                         (JsMap.set k entry (l1Cache s)) &&
                       evicts config k (maxL2Size config)
                         (JsMap.set k (demoted_entry config entry) (l2Cache s)) &&
                       negb (enableDiskCache config && writable (disk s)
                             && (0 <? maxL3Size config))
                    then Returned None else Returned (Some v)).
  { assert (Hl1 : l1Cache s1 = JsMap.set k entry (l1Cache s))
      by apply set_insert_l1Cache.
    assert (Hnd1 : NoDup (JsMap.keys (l1Cache s1))).
    { rewrite Hl1. now apply JsMapFacts.NoDup_keys_set. }
    assert (Hpre : JsMap.size (l1Cache s1) <= S (maxL1Size config) \/
                   (forall k' e, In (k', e) (l1Cache s1) -> evictable e -> k' = k)).
    { rewrite Hl1. destruct Hl as [Hsz|Hpin].
      - left. pose proof (JsMapFacts.size_set_le k entry (l1Cache s)). lia.
      - right. intros k' e Hin Hev.
        apply JsMapFacts.In_set in Hin as [Heq|Hin]; [now inversion Heq|].
        rewrite List.Forall_forall in Hpin. apply Hpin in Hin.
        now apply pinned_not_evictable in Hin. }
    pose proof (enforceL1Size_once config k s1 Hnd1 Hpre) as Hone.
    rewrite Hl1 in Hone.
    destruct (evicts config k (maxL1Size config) (JsMap.set k entry (l1Cache s)));
      cbn [andb negb].
    2:{ apply (get_fast_value k entry); try assumption.
        rewrite Hone. apply JsMapFacts.get_set_eq. }
    destruct Hone as (victim & Hk & Hget & Hrun).
    rewrite JsMapFacts.get_set_eq in Hget. inversion Hget; subst victim.
    clear Hget. rewrite Hrun. unfold l1_evict. cbv zeta.
    rewrite demoteToL2_eq.
    set (s2 := with_l1Cache (JsMap.delete k (l1Cache s1)) s1).
    destruct (demote_stats_frame config entry s2) as (F1 & F2 & F3 & _ & _ & F6).
    set (s3 := with_l2Cache
                 (JsMap.set (key entry) (demoted_entry config entry)
                            (l2Cache (demote_stats config entry s2)))
                 (demote_stats config entry s2)).
    assert (Hl2 : l2Cache s3
                  = JsMap.set k (demoted_entry config entry) (l2Cache s)).
    { unfold s3. simpl. now rewrite F2, Hkey. }
    assert (H31 : JsMap.get k (l1Cache s3) = None).
    { unfold s3. simpl. rewrite F1. simpl. apply JsMapFacts.get_delete_eq. }
    assert (Hsz3 : JsMap.size (l2Cache s3) <= S (maxL2Size config)).
    { rewrite Hl2.
      pose proof (JsMapFacts.size_set_le k (demoted_entry config entry)
                                         (l2Cache s)). lia. }
    pose proof (enforceL2Size_once config k s3 Hsz3) as Htwo.
    rewrite Hl2 in Htwo.
    assert (Hfast : forall n, l1Cache (enforceL2Size_loop config n s3)
                              = l1Cache s3).
    { intros n. now destruct (enforceL2Size_loop_frame config n s3). }
    assert (Hlive2 : isExpired now' (demoted_entry config entry) = false).
    { now rewrite demoted_entry_live. }
    destruct (evicts config k (maxL2Size config)
                (JsMap.set k (demoted_entry config entry) (l2Cache s)));
      cbn [andb negb].
    2:{ rewrite (get_result_same k startTime now' (enforceL2Size config s3))
          by reflexivity.
        apply (get_compressed_value k (demoted_entry config entry));
          try assumption.
        - unfold enforceL2Size. now rewrite Hfast.
        - rewrite Htwo. apply JsMapFacts.get_set_eq.
        - now apply holds_value_demoted. }
    destruct Htwo as (victim & Hget & Hrun2).
    rewrite JsMapFacts.get_set_eq in Hget. inversion Hget; subst victim.
    clear Hget. rewrite Hrun2. unfold l2_evict. cbv zeta.
    set (s4 := with_l2Cache (JsMap.delete k (l2Cache s3)) s3).
    assert (H41 : JsMap.get k (l1Cache s4) = None) by exact H31.
    assert (H42 : JsMap.get k (l2Cache s4) = None).
    { unfold s4. simpl. apply JsMapFacts.get_delete_eq. }
    assert (H43 : l3Index s4 = l3Index s).
    { unfold s4, s3. simpl. now rewrite F3. }
    assert (H44 : disk s4 = disk s).
    { unfold s4, s3. simpl. now rewrite F6. }
    destruct (enableDiskCache config) eqn:Ed; cbn [andb negb].
    2:{ rewrite (get_result_same k startTime now' s4) by reflexivity.
        apply get_not_found; auto. }
    rewrite (get_result_same k startTime now'
               (demoteToL3 config (demoted_entry config entry) s4))
      by reflexivity.
    destruct (demoteToL3_frame config (demoted_entry config entry) s4)
      as (D1 & D2 & _).
    assert (Hi4 : index_ok config k (writable (disk s)) s4).
    { unfold index_ok in *. now rewrite H43, H44. }
    destruct (writable (disk s)) eqn:Ew; cbn [andb negb].
    2:{ apply get_not_found; [congruence | congruence |]. right.
        unfold demoteToL3, fs_writeFile. rewrite H44, Ew. cbv iota.
        rewrite H43. destruct Hi as (_ & _ & _ & He). now rewrite He. }
    destruct (0 <? maxL3Size config) eqn:E3; cbn [andb negb].
    2:{ apply Nat.ltb_ge in E3.
        apply get_not_found; [congruence | congruence |]. right.
        pose proof (demoteToL3_bound config (demoted_entry config entry) s4)
          as Hb.
        rewrite H43 in Hb. specialize (Hb Hb3).
        destruct (l3Index (demoteToL3 config (demoted_entry config entry) s4));
          [reflexivity | simpl in Hb; lia]. }
    apply Nat.ltb_lt in E3.
    assert (Hk4 : key (demoted_entry config entry) = k).
    { now rewrite key_demoted_entry. }
    destruct (demoteToL3_stores config (demoted_entry config entry) s4)
      as [Hidx Hfile]; [lia | now rewrite Hk4 | now rewrite H43 |].
    rewrite Hk4 in Hidx, Hfile.
    destruct (loadFromDisk_record (filePath_of config k) now'
                (demoteToL3 config (demoted_entry config entry) s4)
                (with_level l3 (demoted_entry config entry)) v)
      as [s5 Hload];
      [exact Hfile | now apply holds_value_demoted | exact Hlive2 |].
    apply (get_disk_hit config k (filePath_of config k) v
             (priority (with_level l3 (demoted_entry config entry)))
             startTime now' _ s5 Ed).
    - rewrite D1. unfold live. now rewrite H41.
    - rewrite D2. unfold live. now rewrite H42.
    - rewrite Hidx. apply filePath_of_truthy.
    - exact Hload. }
  rewrite set_eq. cbv zeta. fold s1.
  destruct (predictiveCaching config); [|exact Hmain].
  rewrite (get_result_same k startTime now' (enforceL1Size config s1))
    by reflexivity.
  exact Hmain.
Qed.

End SetThenGet.

(** *** The round trip on concrete caches *)

(** One entry per memory tier, least-frequently-used eviction, no disk
    tier. *)
Definition lfu_no_disk : CacheConfig :=
  mkConfig 1 1 1 "cache" 1024 LFU (Num 3600000) false true 300000 1000 false.

(** [a] is set and read, [b] is set and read: [a] holds the fast tier and
    [b] the compressed tier, each with hits. *)
Definition warm_up : list (Op string) :=
  [OpSet "a" "va" NORMAL None 1%Z; OpGet "a" 2%Z 2%Z;
   OpSet "b" "vb" NORMAL None 3%Z; OpGet "b" 4%Z 4%Z].

Definition lfu_warm : CacheManager string := run lfu_no_disk warm_up fresh.

(** The same tiers with the disk tier on, one file at most. *)
Definition lfu_disk : CacheConfig :=
  mkConfig 1 1 1 "cache" 1024 LFU (Num 3600000) true true 300000 1000 false.

(** The empty key is set first.  The LFU policy selects it while no entry
    has a hit, and the loop takes the empty key for no victim: [a] and [b]
    stay in the fast tier beside it.  Then every key is read. *)
Definition empty_key_first : list (Op string) :=
  [OpSet EmptyString "x" NORMAL None 1%Z; OpSet "a" "va" NORMAL None 2%Z;
   OpSet "b" "vb" NORMAL None 3%Z; OpGet EmptyString 4%Z 4%Z; OpGet EmptyString 5%Z 5%Z;
   OpGet "a" 6%Z 6%Z; OpGet "b" 7%Z 7%Z].

(** A platform on which every key has the same digest, hence the same
    file. *)
Definition clash_runtime : Runtime string := {|
  json_stringify := fun v => v;
  json_parse := fun s => Some s;
  gzip := fun s => String "z" s;
  gunzip := demo_gunzip;
  sha256_hex := fun _ => "0"
|}.


(** Why the keys set before are to be non-empty and of other digests: two
    caches, with the disk tier on, where [set] does not drop the entry and
    the [get] that follows at once misses all the same.

    After the empty key has kept [a] and [b] in a fast tier of capacity 1,
    [set(c)] evicts [c], [a] and [b] from the fast tier in one call; [c]
    reaches the disk first and is removed from the index when [a] follows it
    there.

    With one digest for every key, the file written for [d] is the file of
    [c], which [enforceL3Size] unlinks when it removes [c] from the index. *)
Lemma round_trip_fails_on_odd_keys :
  (set_drops lfu_disk "c" "vc" NORMAL None 8
             (run lfu_disk empty_key_first fresh) = false /\
   JsMap.keys (l1Cache (run lfu_disk empty_key_first fresh)) = [EmptyString; "a"; "b"] /\
   JsMap.keys (l3Index (set lfu_disk "c" "vc" NORMAL None 8
                          (run lfu_disk empty_key_first fresh))) = ["a"] /\
   snd (get lfu_disk "c" 8 8
          (set lfu_disk "c" "vc" NORMAL None 8
             (run lfu_disk empty_key_first fresh)))
   = Returned None) /\
  (@set_drops _ clash_runtime lfu_disk "d" "vd" NORMAL None 6
              (@run _ clash_runtime lfu_disk
                    (warm_up ++ [OpSet "c" "vc" NORMAL None 5%Z]) fresh) = false /\
   l3Index (@set _ clash_runtime lfu_disk "d" "vd" NORMAL None 6
              (@run _ clash_runtime lfu_disk
                    (warm_up ++ [OpSet "c" "vc" NORMAL None 5%Z]) fresh))
   = [("d", "cache/0.cache")] /\
   files (disk (@set _ clash_runtime lfu_disk "d" "vd" NORMAL None 6
                  (@run _ clash_runtime lfu_disk
                        (warm_up ++ [OpSet "c" "vc" NORMAL None 5%Z]) fresh)))
   !! "cache/0.cache" = None /\
   snd (@get _ clash_runtime lfu_disk "d" 6 6
          (@set _ clash_runtime lfu_disk "d" "vd" NORMAL None 6
             (@run _ clash_runtime lfu_disk
                   (warm_up ++ [OpSet "c" "vc" NORMAL None 5%Z]) fresh)))
   = Returned None).
Proof. vm_compute. repeat split. Qed.


(** ** The further properties on concrete caches *)

(** *** The promotion that [get] does not await

    LFU, one entry per memory tier, every value compressed.  After the four
    operations [a] (three hits) is in the fast tier, [b] (one hit) in the
    compressed tier and [c] on the disk.  [get(c)] loads [c] and promotes it:
    the fast tier is over its capacity and [c], with one hit, is its victim;
    the demotion of [c] stops at its [gzip], and the [recordHit] of [get]
    runs there.  So [c] enters the compressed tier with three hits, and the
    victim of the compressed tier is [b], which follows [c] into the disk
    index. *)
Definition lfu_compressing : CacheConfig :=
  mkConfig 1 1 5 "cache" 1 LFU (Num 3600000) true true 300000 1000 false.

Definition c_on_disk : list (Op string) :=
  [OpSet "a" "aaaa" NORMAL None 1%Z; OpGet "a" 2%Z 2%Z;
   OpSet "c" "cccc" NORMAL None 3%Z; OpSet "b" "bbbb" NORMAL None 4%Z].

Lemma get_records_hit_during_promotion :
  getSizes (run lfu_compressing c_on_disk fresh) = (1, 1, 1) /\
  JsMap.keys (l2Cache (run lfu_compressing c_on_disk fresh)) = ["b"] /\
  JsMap.keys (l3Index (run lfu_compressing c_on_disk fresh)) = ["c"] /\
  snd (get lfu_compressing "c" 5 5 (run lfu_compressing c_on_disk fresh))
  = Returned (Some "cccc") /\
  JsMap.keys (l1Cache (fst (get lfu_compressing "c" 5 5
                              (run lfu_compressing c_on_disk fresh)))) = ["a"] /\
  map (fun ke => (fst ke, hits (snd ke)))
      (l2Cache (fst (get lfu_compressing "c" 5 5
                       (run lfu_compressing c_on_disk fresh)))) = [("c", 3)] /\
  JsMap.keys (l3Index (fst (get lfu_compressing "c" 5 5
                              (run lfu_compressing c_on_disk fresh))))
  = ["c"; "b"].
Proof. vm_compute. repeat split. Qed.


Lemma delete_absent_key_is_noop_witness :
  getSizes a_on_disk = (1, 1, 1)%nat /\
  delete "k" a_on_disk = (a_on_disk, false).
Proof.
  split; [reflexivity|].
  apply (delete_absent_key_is_noop "k" a_on_disk); reflexivity.
Defined.

Lemma delete_then_get_misses_witness :
  JsMap.get "a" (l3Index a_on_disk) = Some "cache/a.cache" /\
  snd (get one_each "a" 5 5 (fst (delete "a" a_on_disk))) = Returned None.
Proof.
  split; [reflexivity|].
  apply (delete_then_get_misses one_each "a" 5 5 a_on_disk).
  right. exists "cache/a.cache". split; [reflexivity|].
  vm_compute. eexists. reflexivity.
Defined.

(** [set(a)], [set(b)] with compression of every value longer than one
    byte: [a] is compressed in the compressed tier. *)
Definition a_compressed : list (Op string) :=
  [OpSet "a" "aaaa" NORMAL None 1%Z; OpSet "b" "bbbb" NORMAL None 2%Z].

Lemma get_never_rejects_witness :
  (payload <$> JsMap.get "a" (l2Cache (run compressing a_compressed fresh)))
  = Some (Gz "zaaaa") /\
  exists r,
    snd (get compressing "a" 5 5 (run compressing a_compressed fresh))
    = Returned r.
Proof.
  split; [reflexivity|].
  apply (get_never_rejects compressing empty_disk a_compressed "a" 5%Z 5%Z).
Defined.

Lemma get_counts_one_access_witness :
  snd (get compressing "a" 5 5 (run compressing a_compressed fresh))
  = Returned (Some "aaaa") /\
  l2Hits (stats (fst (get compressing "a" 5 5
                        (run compressing a_compressed fresh)))) = 1%nat.
Proof.
  destruct (get_counts_one_access compressing empty_disk a_compressed "a"
              5%Z 5%Z) as (_ & Hl2 & _).
  destruct (Hl2 (mkEntry "a" (Gz "zaaaa") 4 NORMAL 1%Z 1%Z 0
                         (Some (Num 3600000)) l2) eq_refl eq_refl)
    as (v & Hv & Hr & Hc).
  simpl in Hv. inversion Hv; subst v.
  split; [exact Hr|]. destruct Hc as (_ & _ & _ & H4 & _). exact H4.
Defined.

(** Fast tier of two entries. *)
Definition two_slots : CacheConfig := small_config 2 5 5 true.

(** [set(a)], [set(b)] on a fast tier of one entry: [a] is in the
    compressed tier. *)
Definition a_demoted : CacheManager string :=
  set one_slot "b" "v2" NORMAL None 2%Z
    (set one_slot "a" "v1" NORMAL None 1%Z fresh).

Lemma get_promotes_from_compressed_tier_witness :
  JsMap.has "a" (l1Cache a_demoted) = false /\
  snd (get two_slots "a" 5 5 a_demoted) = Returned (Some "v1") /\
  JsMap.get "a" (l2Cache (fst (get two_slots "a" 5 5 a_demoted))) = None.
Proof.
  split; [reflexivity|].
  destruct (get_promotes_from_compressed_tier two_slots "a"
              (mkEntry "a" (Raw "v1") 2 NORMAL 1%Z 1%Z 0 (Some (Num 3600000)) l2)
              "v1" 5%Z 5%Z a_demoted) as (Hr & _ & Hl2 & _);
    try reflexivity.
  split; [exact Hr | exact Hl2].
Defined.

(** Three keys registered in the disk index of a cache whose disk tier
    holds one. *)
Definition index_of_three : CacheManager string :=
  with_l3Index [("a", "cache/a.cache"); ("b", "cache/b.cache");
                ("c", "cache/c.cache")] fresh.

Lemma enforceL3Size_drops_oldest_witness :
  l3Index (enforceL3Size (small_config 1 1 1 true) index_of_three)
  = [("c", "cache/c.cache")].
Proof.
  destruct (enforceL3Size_drops_oldest (small_config 1 1 1 true) index_of_three)
    as [Hidx _].
  - apply (bool_decide_unpack _). vm_compute. exact I.
  - rewrite Hidx. reflexivity.
Defined.

Lemma demoteToL3_then_get_returns_value_witness :
  snd (get one_each "k" 5 5
         (demoteToL3 one_each
            (mkEntry "k" (Raw "v") 1 NORMAL 1%Z 1%Z 0 (Some (Num 3600000)) l2) fresh))
  = Returned (Some "v").
Proof.
  apply (fun h1 h2 h3 h4 h5 h6 h7 =>
           proj1 (proj2 (demoteToL3_then_get_returns_value one_each
              (mkEntry "k" (Raw "v") 1 NORMAL 1%Z 1%Z 0 (Some (Num 3600000)) l2)
              "v" 5%Z 5%Z fresh h1 h2 h3 h4 h5 h6 h7)));
    try reflexivity; try (vm_compute; lia); left; reflexivity.
Defined.

Lemma demoteToL2_then_get_returns_value_witness :
  snd (get compressing "k" 5 5
         (demoteToL2 compressing
            (mkEntry "k" (Raw "vv") 4 NORMAL 1%Z 1%Z 0 (Some (Num 3600000)) l1) fresh))
  = Returned (Some "vv").
Proof.
  apply (fun h1 h2 h3 h4 =>
           proj2 (proj2 (demoteToL2_then_get_returns_value compressing
              (mkEntry "k" (Raw "vv") 4 NORMAL 1%Z 1%Z 0 (Some (Num 3600000)) l1)
              "vv" 5%Z 5%Z fresh h1 h2 h3 h4)));
    try reflexivity; vm_compute; lia.
Defined.

(** Fast tier of three entries; [a], [b] and [c] are set, then [a] and [c]
    are read: [b], in the middle, is the least recently used. *)
Definition three_slots : CacheConfig := small_config 3 5 5 true.

Definition b_is_oldest : list (Op string) :=
  [OpSet "a" "v1" NORMAL None 1%Z; OpSet "b" "v2" NORMAL None 2%Z;
   OpSet "c" "v3" NORMAL None 3%Z; OpGet "a" 4%Z 4%Z; OpGet "c" 5%Z 5%Z].

(** A fast tier of two entries whose least recently used key is the empty
    string. *)
Definition empty_is_oldest : list (Op string) :=
  [OpSet EmptyString "v0" NORMAL None 1%Z; OpSet "a" "v1" NORMAL None 2%Z].


Lemma set_keeps_pinned_entries_witness :
  JsMap.get "p"
    (l1Cache (set one_slot "k" "v" NORMAL None 2%Z
                (run one_slot [OpSet "p" "vp" HIGH None 1%Z] fresh)))
  = Some (mkEntry "p" (Raw "vp") 2 HIGH 1%Z 1%Z 0 (Some (Num 3600000)) l1).
Proof.
  apply (set_keeps_pinned_entries one_slot empty_disk
           [OpSet "p" "vp" HIGH None 1%Z] "p"
           (mkEntry "p" (Raw "vp") 2 HIGH 1%Z 1%Z 0 (Some (Num 3600000)) l1)
           "k" "v" NORMAL None 2%Z);
    [reflexivity | left; reflexivity | discriminate].
Defined.
